(** * The audio scheduling core of PulseCanvas ([components/AudioEngine.ts])

    The engine is a TypeScript class over Tone.js.  Its numbers are
    JavaScript numbers, that is IEEE-754 binary64 values, and they are
    modelled as such: by the executable specification of binary64 in the
    standard library ([SpecFloat], precision 53, [emax] 1024).  Tone.js and
    the JavaScript heap are modelled as an explicit world that the methods
    of the class read and update through a small state-and-exception monad.
    What happens later is a step of its own: the continuation of the
    asynchronous [init] after its [await], and the calls Tone.js makes to
    the callbacks the engine gave it, with the arguments Tone.js chooses.

    The file has six parts: the arithmetic of numbers; the world, the
    class and the computing parts of the component around it; the facts
    about binary64 rounding the quantiser relies on; the properties of the
    engine the specification states; further properties of the engine;
    and properties of the component. *)

From stdpp Require Import gmap strings list pretty sorting.
From Stdlib Require Import ZArith Lia Bool.
From Stdlib Require Import Floats.SpecFloat.

(** * Part 1: JavaScript numbers *)

Module Float64.
Local Open Scope Z_scope.

Definition prec : Z := 53.
Definition emax : Z := 1024.

(** The smallest exponent and the exponent function of the format,
    written out ([SpecFloat.emin] and [SpecFloat.fexp] at 53 and 1024). *)
Definition emin : Z := -1074.
Definition fexp (e : Z) : Z := Z.max (e - 53) emin.

Definition number : Type := spec_float.

Definition add : number -> number -> number := SFadd prec emax.
Definition sub : number -> number -> number := SFsub prec emax.
Definition mul : number -> number -> number := SFmul prec emax.
Definition div : number -> number -> number := SFdiv prec emax.

(** [===], [<=] and [<] on numbers: NaN compares with nothing and the two
    zeros are equal. *)
Definition eqb : number -> number -> bool := SFeqb.
Definition leb : number -> number -> bool := SFleb.
Definition ltb : number -> number -> bool := SFltb.

Definition zero : number := S754_zero false.

(** The number an integer literal denotes. *)
Definition of_Z (z : Z) : number := binary_normalize prec emax z 0 false.

(** The number a decimal literal [n/d] denotes: the double nearest to the
    quotient (division is correctly rounded and [n], [d] are exact). *)
Definition decimal (n d : Z) : number := div (of_Z n) (of_Z d).

(** [n % d] (ECMAScript Number::remainder): the remainder of the
    truncating division, with the sign of the dividend.  The result is
    always representable, so the final normalisation does not round. *)
Definition rem (n d : number) : number :=
  match n, d with
  | S754_nan, _ | _, S754_nan => S754_nan
  | S754_infinity _, _ => S754_nan
  | _, S754_infinity _ => n
  | _, S754_zero _ => S754_nan
  | S754_zero _, _ => n
  | S754_finite sn mn en, S754_finite _ md ed =>
      let e := Z.min en ed in
      let N := Z.pos (fst (shl_align mn en e)) in
      let D := Z.pos (fst (shl_align md ed e)) in
      binary_normalize prec emax (cond_Zopp sn (Z.rem N D)) e sn
  end.

(** [Math.round]: the nearest integer, ties towards +Infinity; NaN, the
    infinities and integers are returned as they are, and a result of
    zero keeps the sign of the argument. *)
Definition round (x : number) : number :=
  match x with
  | S754_finite s m e =>
      if 0 <=? e then x
      else
        let k := (2 * cond_Zopp s (Z.pos m) + 2 ^ (- e)) / 2 ^ (1 - e) in
        binary_normalize prec emax k 0 s
  | _ => x
  end.

(** [Math.abs] *)
Definition abs : number -> number := SFabs.

(** [Math.floor]: the greatest integer that is not above the argument;
    NaN, the infinities, the zeros and the integers are returned as they
    are, and a positive number below 1 gives +0. *)
Definition floor (x : number) : number :=
  match x with
  | S754_finite s m e =>
      if 0 <=? e then x
      else binary_normalize prec emax (cond_Zopp s (Z.pos m) / 2 ^ (- e)) 0 s
  | _ => x
  end.

(** [Math.max] of two numbers: NaN if one of them is NaN, and +0 counts
    as larger than -0. *)
Definition max (a b : number) : number :=
  match a, b with
  | S754_nan, _ | _, S754_nan => S754_nan
  | S754_zero sa, S754_zero sb => S754_zero (sa && sb)
  | _, _ => if SFltb a b then b else a
  end.

(** ** Well-formed numbers and their value *)

(** A valid binary64 datum: canonical mantissa, exponent in range. *)
Definition valid (x : number) : Prop := valid_binary prec emax x = true.

(** Finite and not negative: +0, -0 or a positive finite double. *)
Definition fin_nonneg (x : number) : Prop :=
  match x with
  | S754_zero _ | S754_finite false _ _ => True
  | _ => False
  end.

(** Neither negative nor NaN: [fin_nonneg] or +Infinity. *)
Definition nonneg (x : number) : Prop :=
  match x with
  | S754_zero _ | S754_finite false _ _ | S754_infinity false => True
  | _ => False
  end.

(** Zero or negative: +0, -0, a negative finite double or -Infinity. *)
Definition not_positive (x : number) : Prop :=
  match x with
  | S754_zero _ | S754_finite true _ _ | S754_infinity true => True
  | _ => False
  end.

(** Finite and strictly positive. *)
Definition fin_pos (x : number) : Prop :=
  match x with
  | S754_finite false _ _ => True
  | _ => False
  end.

Definition top : Z := 2 ^ 2098.

(** Every finite double is an integer multiple of 2^-1074; [Zval] is that
    integer.  +Infinity sits at 2^1024, the value at which rounding
    overflows. *)
Definition Zval (x : number) : Z :=
  match x with
  | S754_zero _ | S754_nan => 0
  | S754_finite s m e => cond_Zopp s (Z.pos m * 2 ^ (e - emin))
  | S754_infinity s => cond_Zopp s top
  end.

(** ** Rounding on the grid of multiples of 2^-1074 *)

(** Round to nearest, ties to even, after dropping the [n] low bits. *)
Definition rne_shift (m n : Z) : Z :=
  let q := m / 2 ^ n in
  let r := m mod 2 ^ n in
  if (2 * r <? 2 ^ n) || ((2 * r =? 2 ^ n) && Z.even q) then q else q + 1.

(** Number of low bits a grid value loses when stored with a 53-bit
    mantissa. *)
Definition lost_bits (N : Z) : Z := Z.max (Z.log2 N + 1 - 53) 0.

(** The grid value nearest to [N] that has a 53-bit mantissa. *)
Definition RNE (N : Z) : Z := rne_shift N (lost_bits N) * 2 ^ lost_bits N.

(** What [binary_round_aux] does with a rounded mantissa [m1] at exponent
    [E]: a zero, a carry into the next binade, or the float itself;
    overflow goes to infinity. *)
Definition pack (sx : bool) (m1 E : Z) : number :=
  if m1 =? 0 then S754_zero sx
  else if m1 =? 2 ^ 53 then
    if E + 1 <=? 971 then S754_finite sx (2 ^ 52)%positive (E + 1)
    else S754_infinity sx
  else if E <=? 971 then S754_finite sx (Z.to_pos m1) E
  else S754_infinity sx.

(** A number that [===] identifies with one of 0, 1, ..., 15. *)
Definition is_grid_step (t : number) : Prop :=
  exists j : Z, 0 <= j < 16 /\ eqb t (of_Z j) = true.

End Float64.

Definition number : Type := Float64.number.

(** * Part 2: the world and the class *)

(** ** The exported data types *)

Module PadId.
Inductive t := kick | snare | hat | bass | lead | fx.
End PadId.

Module QuantizedTrigger.
Record t := mk { tick : number; scheduledAt : number }.
End QuantizedTrigger.

Module LoopEvent.
Record t := mk { tick : number; padId : PadId.t; velocity : number }.
End LoopEvent.

(** Addresses of JavaScript objects, and handles of Tone.js objects. *)
Definition loc : Type := nat.
Definition NodeId : Type := nat.
Definition PartId : Type := nat.

(** [events] is a reference to an array: copying a clip copies the
    reference, not the array. *)
Module LoopClip.
Record t := mk {
  id : string;
  title : string;
  author : string;
  bpm : number;
  color : string;
  createdAt : number;
  events : loc;
  likes : number;
  remixes : number
}.
End LoopClip.

(** [ActiveClip = LoopClip & { part: Tone.Part | null }].  A clip object
    without a [part] property, or with a null one, has [part = None]. *)
Module ActiveClip.
Record t := mk { clip : LoopClip.t; part : option PartId }.
End ActiveClip.

(** ** Tone.js, as far as the engine talks to it *)

Module Tone.

Inductive NodeKind :=
| Filter | Reverb | Distortion | Limiter
| MembraneSynth | NoiseSynth | MetalSynth | MonoSynth | Synth | FMSynth.

Inductive Output := ToNode (n : NodeId) | Destination.

(** An audio node: where the engine connected it, the last ramp requested
    on its parameter (target and duration), and how often [dispose()] was
    called on it.  What Tone.js does to the connections of a disposed node
    is not part of the record: [output] is the last [connect] call.  The
    constructor options (envelopes, decay times) are passed through to
    Tone.js and play no part in the engine's logic. *)
Record Node := mkNode {
  kind : NodeKind;
  output : option Output;
  ramp : option (number * number);
  disposals : nat
}.

(** One call of [triggerAttackRelease] on a voice. *)
Record Trigger := mkTrigger {
  voice : NodeId;
  note : option string;
  duration : string;
  time : number;
  vel : number
}.

(** A [Tone.Part]: the timed values and settings it was given, and how
    often [stop()] and [dispose()] were called on it.  Whether Tone.js
    still plays the part follows from these counts (see [playing]). *)
Record Part := mkPart {
  part_events : list (number * LoopEvent.t);
  part_loop : bool;
  part_loopEnd : option string;
  part_humanize : option number;
  part_start : option number;
  part_stops : nat;
  part_disposals : nat
}.

(** The closure [(time) => this.playInstrument(padId, time, velocity)]
    handed to [scheduleOnce]: what it captured. *)
Record Callback := mkCallback { cb_padId : PadId.t; cb_velocity : number }.

Record Transport := mkTransport {
  seconds : number;
  bpm : number;
  bpm_ramp : option (number * number);
  loop : bool;
  loopStart : number;
  loopEnd : option string;
  start : option string;
  once : list (number * Callback)
}.

(** [toSeconds] is what [Tone.Time(notation).toSeconds()] answers at the
    current tempo; [unlockable] tells whether [Tone.start()] resolves. *)
Record World := mkWorld {
  nodes : gmap NodeId Node;
  parts : gmap PartId Part;
  transport : Transport;
  triggers : list Trigger;
  toSeconds : string -> number;
  unlockable : bool
}.

Definition with_nodes (f : gmap NodeId Node -> gmap NodeId Node) (w : World) : World :=
  mkWorld (f (nodes w)) (parts w) (transport w) (triggers w) (toSeconds w) (unlockable w).

Definition with_parts (f : gmap PartId Part -> gmap PartId Part) (w : World) : World :=
  mkWorld (nodes w) (f (parts w)) (transport w) (triggers w) (toSeconds w) (unlockable w).

Definition with_transport (f : Transport -> Transport) (w : World) : World :=
  mkWorld (nodes w) (parts w) (f (transport w)) (triggers w) (toSeconds w) (unlockable w).

Definition with_triggers (f : list Trigger -> list Trigger) (w : World) : World :=
  mkWorld (nodes w) (parts w) (transport w) (f (triggers w)) (toSeconds w) (unlockable w).

Definition connect_node (o : Output) (n : Node) : Node :=
  mkNode (kind n) (Some o) (ramp n) (disposals n).

Definition ramp_node (value seconds : number) (n : Node) : Node :=
  mkNode (kind n) (output n) (Some (value, seconds)) (disposals n).

Definition dispose_node (n : Node) : Node :=
  mkNode (kind n) (output n) (ramp n) (S (disposals n)).

Definition stop_part (p : Part) : Part :=
  mkPart (part_events p) (part_loop p) (part_loopEnd p) (part_humanize p)
    (part_start p) (S (part_stops p)) (part_disposals p).

Definition dispose_part (p : Part) : Part :=
  mkPart (part_events p) (part_loop p) (part_loopEnd p) (part_humanize p)
    (part_start p) (part_stops p) (S (part_disposals p)).

End Tone.

(** ** The engine object and the whole state *)

Module AudioEngine.
Record t := mk {
  initialized : bool;
  filter : option NodeId;
  reverb : option NodeId;
  distortion : option NodeId;
  limiter : option NodeId;
  kick : option NodeId;
  snare : option NodeId;
  hat : option NodeId;
  bass : option NodeId;
  lead : option NodeId;
  fx : option NodeId;
  bpm : number
}.

(** The ten node fields, and the assignment [this.field = node]. *)
Inductive field :=
| filter_ | reverb_ | distortion_ | limiter_
| kick_ | snare_ | hat_ | bass_ | lead_ | fx_.

Definition field_eqb (a b : field) : bool :=
  match a, b with
  | filter_, filter_ | reverb_, reverb_ | distortion_, distortion_
  | limiter_, limiter_ | kick_, kick_ | snare_, snare_ | hat_, hat_
  | bass_, bass_ | lead_, lead_ | fx_, fx_ => true
  | _, _ => false
  end.

Definition assign (fld : field) (n : NodeId) (e : t) : t :=
  let pick g old := if field_eqb fld g then Some n else old in
  mk (initialized e)
    (pick filter_ (filter e)) (pick reverb_ (reverb e))
    (pick distortion_ (distortion e)) (pick limiter_ (limiter e))
    (pick kick_ (kick e)) (pick snare_ (snare e)) (pick hat_ (hat e))
    (pick bass_ (bass e)) (pick lead_ (lead e)) (pick fx_ (fx e))
    (bpm e).
End AudioEngine.

(** The engine instance, Tone.js, and the part of the JavaScript heap
    that holds clip objects and event arrays. *)
Record State := mkState {
  this : AudioEngine.t;
  tone : Tone.World;
  clips : gmap loc ActiveClip.t;
  arrays : gmap loc (list LoopEvent.t)
}.

(** The only error the class throws itself is
    [new Error("AudioEngine not initialised")]: the specification calls it
    EngineNotReady.  [Rejected] is a rejection of [Tone.start()], and
    [TypeError] a property access on an object that is not there. *)
Inductive Error := Err (message : string) | Rejected | TypeError.

Definition EngineNotReady : Error := Err "AudioEngine not initialised".

Inductive Outcome (A : Type) := Return (a : A) | Throw (e : Error).
Arguments Return {A} a.
Arguments Throw {A} e.

(** Methods run on the state and either return or throw; what they did to
    the state before throwing stays done. *)
Definition M (A : Type) : Type := State -> Outcome A * State.

Definition ret {A} (a : A) : M A := fun s => (Return a, s).

Definition throw {A} (e : Error) : M A := fun s => (Throw e, s).

Definition bind {A B} (m : M A) (k : A -> M B) : M B :=
  fun s =>
    match m s with
    | (Return a, s') => k a s'
    | (Throw e, s') => (Throw e, s')
    end.

Notation "'let*' x ':=' m 'in' k" := (bind m (fun x => k))
  (at level 10, x name, m at level 100, k at level 200, only parsing).
Notation "m '>>' k" := (bind m (fun _ => k))
  (at level 100, k at level 200, right associativity, only parsing).

Definition get : M State := fun s => (Return s, s).

Definition modify (f : State -> State) : M unit := fun s => (Return tt, f s).

Definition modify_this (f : AudioEngine.t -> AudioEngine.t) : M unit :=
  modify (fun s => mkState (f (this s)) (tone s) (clips s) (arrays s)).

Definition modify_tone (f : Tone.World -> Tone.World) : M unit :=
  modify (fun s => mkState (this s) (f (tone s)) (clips s) (arrays s)).

(** *** Calls into Tone.js *)

(** [new Tone.X(options)]: a fresh node, connected to nothing. *)
Definition new_node (k : Tone.NodeKind) : M NodeId :=
  let* s := get in
  let n := fresh (dom (Tone.nodes (tone s))) in
  modify_tone (Tone.with_nodes (insert n (Tone.mkNode k None None 0))) >>
  ret n.

Definition connect (n : NodeId) (o : Tone.Output) : M unit :=
  modify_tone (Tone.with_nodes (alter (Tone.connect_node o) n)).

Definition node_dispose (n : NodeId) : M unit :=
  modify_tone (Tone.with_nodes (alter Tone.dispose_node n)).

Definition node_rampTo (n : NodeId) (value seconds : number) : M unit :=
  modify_tone (Tone.with_nodes (alter (Tone.ramp_node value seconds) n)).

(** [await Tone.start()] *)
Definition Tone_start : M unit :=
  let* s := get in
  if Tone.unlockable (tone s) then ret tt else throw Rejected.

(** [Tone.Time(notation).toSeconds()] *)
Definition Time_toSeconds (notation : string) : M number :=
  let* s := get in ret (Tone.toSeconds (tone s) notation).

Definition Transport_seconds : M number :=
  let* s := get in ret (Tone.seconds (Tone.transport (tone s))).

(** The five assignments at the end of [init]. *)
Definition Transport_setup (bpm : number) : M unit :=
  modify_tone (Tone.with_transport (fun t =>
    Tone.mkTransport (Tone.seconds t) bpm (Tone.bpm_ramp t) true Float64.zero
      (Some "1m") (Some "+0.1") (Tone.once t))).

Definition Transport_bpm_rampTo (value seconds : number) : M unit :=
  modify_tone (Tone.with_transport (fun t =>
    Tone.mkTransport (Tone.seconds t) (Tone.bpm t) (Some (value, seconds))
      (Tone.loop t) (Tone.loopStart t) (Tone.loopEnd t) (Tone.start t) (Tone.once t))).

Definition Transport_scheduleOnce (cb : Tone.Callback) (time : number) : M unit :=
  modify_tone (Tone.with_transport (fun t =>
    Tone.mkTransport (Tone.seconds t) (Tone.bpm t) (Tone.bpm_ramp t)
      (Tone.loop t) (Tone.loopStart t) (Tone.loopEnd t) (Tone.start t)
      (Tone.once t ++ [(time, cb)]))).

Definition triggerAttackRelease (n : NodeId) (note : option string)
    (duration : string) (time velocity : number) : M unit :=
  modify_tone (Tone.with_triggers (fun l =>
    l ++ [Tone.mkTrigger n note duration time velocity])).

(** [new Tone.Part(callback, scheduled)] followed by the four settings of
    [createClip]: [loop], [loopEnd], [humanize] and [start(0)]. *)
Definition new_Part (scheduled : list (number * LoopEvent.t)) : M PartId :=
  let* s := get in
  let p := fresh (dom (Tone.parts (tone s))) in
  modify_tone (Tone.with_parts
    (insert p (Tone.mkPart scheduled true (Some "1m")
                 (Some (Float64.decimal 1 100)) (Some Float64.zero) 0 0))) >>
  ret p.

Definition part_stop (p : PartId) : M unit :=
  modify_tone (Tone.with_parts (alter Tone.stop_part p)).

Definition part_dispose (p : PartId) : M unit :=
  modify_tone (Tone.with_parts (alter Tone.dispose_part p)).

(** *** The JavaScript heap *)

Definition read_clip (l : loc) : M ActiveClip.t :=
  let* s := get in
  match clips s !! l with
  | Some c => ret c
  | None => throw TypeError
  end.

Definition read_array (l : loc) : M (list LoopEvent.t) :=
  let* s := get in
  match arrays s !! l with
  | Some a => ret a
  | None => throw TypeError
  end.

(** An object literal: a new object at an unused address. *)
Definition new_clip (c : ActiveClip.t) : M loc :=
  let* s := get in
  let l := fresh (dom (clips s)) in
  modify (fun s => mkState (this s) (tone s) (<[l := c]> (clips s)) (arrays s)) >>
  ret l.

(** ** The class [AudioEngine] *)

Definition GRID_RESOLUTION : number := Float64.of_Z 16.
Definition DEFAULT_BPM : number := Float64.of_Z 104.

(** [new AudioEngine()]: the field initialisers. *)
Definition new_AudioEngine : AudioEngine.t :=
  AudioEngine.mk false None None None None None None None None None None DEFAULT_BPM.

Definition set_initialized (b : bool) : M unit :=
  modify_this (fun e =>
    AudioEngine.mk b (AudioEngine.filter e) (AudioEngine.reverb e)
      (AudioEngine.distortion e) (AudioEngine.limiter e) (AudioEngine.kick e)
      (AudioEngine.snare e) (AudioEngine.hat e) (AudioEngine.bass e)
      (AudioEngine.lead e) (AudioEngine.fx e) (AudioEngine.bpm e)).

Definition set_bpm (b : number) : M unit :=
  modify_this (fun e =>
    AudioEngine.mk (AudioEngine.initialized e) (AudioEngine.filter e)
      (AudioEngine.reverb e) (AudioEngine.distortion e) (AudioEngine.limiter e)
      (AudioEngine.kick e) (AudioEngine.snare e) (AudioEngine.hat e)
      (AudioEngine.bass e) (AudioEngine.lead e) (AudioEngine.fx e) b).

Definition set_field (fld : AudioEngine.field) (n : NodeId) : M unit :=
  modify_this (AudioEngine.assign fld n).

Definition ensureReady : M unit :=
  let* s := get in
  if AudioEngine.initialized (this s) then ret tt else throw EngineNotReady.

(** [init] is asynchronous.  A call checks the flag and, if it is clear,
    calls [Tone.start()] and suspends at the [await], with [initialized]
    still false.  [init_resume] is the rest of the body: it runs in a
    later turn of the event loop, when the promise has settled, and other
    calls may have run in between. *)
Definition init_resume : M unit :=
  Tone_start >>
  let* f := new_node Tone.Filter in set_field AudioEngine.filter_ f >>
  let* r := new_node Tone.Reverb in set_field AudioEngine.reverb_ r >>
  let* d := new_node Tone.Distortion in set_field AudioEngine.distortion_ d >>
  let* l := new_node Tone.Limiter in set_field AudioEngine.limiter_ l >>
  connect f (Tone.ToNode r) >>
  connect r (Tone.ToNode d) >>
  connect d (Tone.ToNode l) >>
  connect l Tone.Destination >>
  let* k := new_node Tone.MembraneSynth in
  connect k (Tone.ToNode f) >> set_field AudioEngine.kick_ k >>
  let* sn := new_node Tone.NoiseSynth in
  connect sn (Tone.ToNode f) >> set_field AudioEngine.snare_ sn >>
  let* h := new_node Tone.MetalSynth in
  connect h (Tone.ToNode f) >> set_field AudioEngine.hat_ h >>
  let* b := new_node Tone.MonoSynth in
  connect b (Tone.ToNode f) >> set_field AudioEngine.bass_ b >>
  let* le := new_node Tone.Synth in
  connect le (Tone.ToNode f) >> set_field AudioEngine.lead_ le >>
  let* x := new_node Tone.FMSynth in
  connect x (Tone.ToNode f) >> set_field AudioEngine.fx_ x >>
  let* s := get in
  Transport_setup (AudioEngine.bpm (this s)) >>
  set_initialized true.

(** A call of [init] together with its continuation: what the call does
    when nothing else runs between its [await] and its resumption.  The
    turns of the event loop below take the two halves apart. *)
Definition init : M unit :=
  let* s := get in
  if AudioEngine.initialized (this s) then ret tt else init_resume.

(** [node?.dispose()] *)
Definition dispose_opt (o : option NodeId) : M unit :=
  match o with
  | Some n => node_dispose n
  | None => ret tt
  end.

(** The fields in the order in which [dispose] walks them. *)
Definition owned (e : AudioEngine.t) : list (option NodeId) :=
  [AudioEngine.kick e; AudioEngine.snare e; AudioEngine.hat e; AudioEngine.bass e;
   AudioEngine.lead e; AudioEngine.fx e; AudioEngine.filter e; AudioEngine.reverb e;
   AudioEngine.distortion e; AudioEngine.limiter e].

Fixpoint dispose_each (l : list (option NodeId)) : M unit :=
  match l with
  | [] => ret tt
  | o :: l' => dispose_opt o >> dispose_each l'
  end.

Definition dispose : M unit :=
  let* s := get in
  dispose_each (owned (this s)) >>
  set_initialized false.

Definition setBpm (nextBpm : number) : M unit :=
  ensureReady >>
  set_bpm nextBpm >>
  Transport_bpm_rampTo nextBpm (Float64.decimal 2 10).

Definition setFilterFrequency (value : number) : M unit :=
  ensureReady >>
  let* s := get in
  match AudioEngine.filter (this s) with
  | Some f => node_rampTo f value (Float64.decimal 4 10)
  | None => ret tt
  end.

Definition setReverbWet (value : number) : M unit :=
  ensureReady >>
  let* s := get in
  match AudioEngine.reverb (this s) with
  | Some r => node_rampTo r value (Float64.decimal 4 10)
  | None => ret tt
  end.

(** The quantisation inside [triggerPad]: the aligned time. *)
Definition nextTickSeconds (now subdivision : number) : number :=
  if Float64.eqb (Float64.rem now subdivision) Float64.zero then now
  else Float64.add now (Float64.sub subdivision (Float64.rem now subdivision)).

(** ... and the grid step it is reported at. *)
Definition tickOf (nextTick subdivision : number) : number :=
  Float64.rem (Float64.round (Float64.div nextTick subdivision)) GRID_RESOLUTION.

Definition triggerPad (padId : PadId.t) (velocity : option number) : M QuantizedTrigger.t :=
  let velocity := default (Float64.of_Z 1) velocity in
  ensureReady >>
  let* subdivision := Time_toSeconds "16n" in
  let* now := Transport_seconds in
  let next := nextTickSeconds now subdivision in
  let tick := tickOf next subdivision in
  Transport_scheduleOnce (Tone.mkCallback padId velocity) next >>
  ret (QuantizedTrigger.mk tick next).

(** The offset [createClip] computes for one event. *)
Definition offsetOf (measureSeconds : number) (evt : LoopEvent.t) : number :=
  Float64.mul
    (Float64.div (Float64.rem (LoopEvent.tick evt) GRID_RESOLUTION) GRID_RESOLUTION)
    measureSeconds.

Definition createClip (source : loc) : M loc :=
  ensureReady >>
  let* measureSeconds := Time_toSeconds "1m" in
  let* src := read_clip source in
  let* evts := read_array (LoopClip.events (ActiveClip.clip src)) in
  let scheduled := map (fun evt => (offsetOf measureSeconds evt, evt)) evts in
  let* part := new_Part scheduled in
  new_clip (ActiveClip.mk (ActiveClip.clip src) (Some part)).

Definition stopClip (activeClip : loc) : M unit :=
  let* a := read_clip activeClip in
  match ActiveClip.part a with
  | Some p => part_stop p >> part_dispose p
  | None => ret tt
  end.

(** [voice?.triggerAttackRelease(...)] *)
Definition trigger_opt (o : option NodeId) (note : option string)
    (duration : string) (time velocity : number) : M unit :=
  match o with
  | Some n => triggerAttackRelease n note duration time velocity
  | None => ret tt
  end.

Definition playInstrument (padId : PadId.t) (time velocity : number) : M unit :=
  let* s := get in
  let e := this s in
  match padId with
  | PadId.kick => trigger_opt (AudioEngine.kick e) (Some "C1") "8n" time velocity
  | PadId.snare => trigger_opt (AudioEngine.snare e) None "8n" time velocity
  | PadId.hat => trigger_opt (AudioEngine.hat e) None "16n" time velocity
  | PadId.bass =>
      trigger_opt (AudioEngine.bass e) (Some "C2") "8n" time
        (Float64.mul velocity (Float64.decimal 9 10))
  | PadId.lead =>
      trigger_opt (AudioEngine.lead e) (Some "C4") "8n" time
        (Float64.mul velocity (Float64.decimal 8 10))
  | PadId.fx =>
      trigger_opt (AudioEngine.fx e) (Some "G4") "8n" time
        (Float64.mul velocity (Float64.decimal 6 10))
  end.

(** ** What Tone.js does later *)

(** The closure [(time) => { this.playInstrument(padId, time, velocity) }]
    that [triggerPad] schedules, called with the [time] Tone.js passes. *)
Definition once_callback (cb : Tone.Callback) (time : number) : M unit :=
  playInstrument (Tone.cb_padId cb) time (Tone.cb_velocity cb).

(** The Transport fires a one-shot event: the event at position [i] of
    the timeline leaves it and its callback is called.  Which event is
    due, and the [time] it passes (the time of the event on the audio
    clock), are for Tone.js to decide. *)
Definition fire_once (i : nat) (time : number) : M unit :=
  let* s := get in
  match Tone.once (Tone.transport (tone s)) !! i with
  | None => ret tt
  | Some (_, cb) =>
      modify_tone (Tone.with_transport (fun t =>
        Tone.mkTransport (Tone.seconds t) (Tone.bpm t) (Tone.bpm_ramp t)
          (Tone.loop t) (Tone.loopStart t) (Tone.loopEnd t) (Tone.start t)
          (delete i (Tone.once t)))) >>
      once_callback cb time
  end.

(** The public operations, as data, and the state they lead to. *)
Inductive Op :=
| OInit
| ODispose
| OSetBpm (nextBpm : number)
| OSetFilterFrequency (value : number)
| OSetReverbWet (value : number)
| OTriggerPad (padId : PadId.t) (velocity : option number)
| OCreateClip (source : loc)
| OStopClip (activeClip : loc).

Definition run (o : Op) (s : State) : State :=
  match o with
  | OInit => snd (init s)
  | ODispose => snd (dispose s)
  | OSetBpm b => snd (setBpm b s)
  | OSetFilterFrequency v => snd (setFilterFrequency v s)
  | OSetReverbWet v => snd (setReverbWet v s)
  | OTriggerPad p v => snd (triggerPad p v s)
  | OCreateClip c => snd (createClip c s)
  | OStopClip a => snd (stopClip a s)
  end.

Definition run_all (ops : list Op) (s : State) : State :=
  fold_left (fun s o => run o s) ops s.

(** One turn of the event loop: a method is called, or a suspended call
    of [init] resumes.  In a turn a call of [init] only gets as far as
    its [await]: on a ready engine it returns, otherwise one more call is
    suspended.  The loop is the state together with the number of
    suspended calls; [run OInit] is the call followed at once by its
    resumption. *)
Inductive Turn :=
| Call (o : Op)
| Resume.

Definition turn (t : Turn) (c : State * nat) : State * nat :=
  match t with
  | Call OInit =>
      if AudioEngine.initialized (this (fst c)) then c else (fst c, S (snd c))
  | Call o => (run o (fst c), snd c)
  | Resume =>
      match snd c with
      | O => c
      | S n => (snd (init_resume (fst c)), n)
      end
  end.

Definition turns (ts : list Turn) (c : State * nat) : State * nat :=
  fold_left (fun c t => turn t c) ts c.

(** A world in which nothing was built yet, at the given transport time
    and tempo answers. *)
Definition empty_world (now : number) (toSeconds : string -> number)
    (unlockable : bool) : Tone.World :=
  Tone.mkWorld ∅ ∅
    (Tone.mkTransport now (Float64.of_Z 120) None false Float64.zero None None [])
    [] toSeconds unlockable.

Definition fresh_state (now : number) (toSeconds : string -> number)
    (unlockable : bool) : State :=
  mkState new_AudioEngine (empty_world now toSeconds unlockable) ∅ ∅.

(** The callback [createClip] gives to its part:
    [(time, value) => { if (!value) return; this.playInstrument(...) }]. *)
Definition part_callback (time : number) (value : option LoopEvent.t) : M unit :=
  match value with
  | None => ret tt
  | Some event => playInstrument (LoopEvent.padId event) time (LoopEvent.velocity event)
  end.

(** Tone.js calls the callback of a part only while the part is started:
    [start] was called on it, and neither [stop] nor [dispose]. *)
Definition playing (part : Tone.Part) : bool :=
  match Tone.part_start part with Some _ => true | None => false end
  && Nat.eqb (Tone.part_stops part) 0
  && Nat.eqb (Tone.part_disposals part) 0.

(** Calls of the callback by Tone.js: each with the time Tone.js passes
    and the position of the timed value it passes. *)
Fixpoint play_calls (values : list (number * LoopEvent.t)) (calls : list (number * nat))
    : M unit :=
  match calls with
  | [] => ret tt
  | (time, i) :: calls' =>
      part_callback time (snd <$> values !! i) >> play_calls values calls'
  end.

(** One loop period of the part [p].  Tone.js calls the callback of a
    started part once for every timed value in every period
    ([once_per_value]), at the time of the value within the period on the
    audio clock, moved by a random amount of at most [humanize].  The
    times and the order of the calls are for Tone.js to decide: [calls]
    lists them. *)
Definition play_period (p : PartId) (calls : list (number * nat)) : M unit :=
  let* s := get in
  match Tone.parts (tone s) !! p with
  | Some part =>
      if playing part then play_calls (Tone.part_events part) calls else ret tt
  | None => ret tt
  end.


(** ** Bookkeeping for the statements *)

(** In how many fields the engine holds the node [n]. *)
Fixpoint occurrences (n : NodeId) (l : list (option NodeId)) : nat :=
  match l with
  | [] => 0
  | Some n' :: l' => (if Nat.eqb n n' then 1 else 0) + occurrences n l'
  | None :: l' => occurrences n l'
  end.

(** The nodes after [dispose()] has been called on each entry of [l]. *)
Definition released (l : list (option NodeId)) (m : gmap NodeId Tone.Node)
    : gmap NodeId Tone.Node :=
  fold_left
    (fun m o => match o with Some n => alter Tone.dispose_node n m | None => m end)
    l m.

Definition clear_initialized (e : AudioEngine.t) : AudioEngine.t :=
  AudioEngine.mk false (AudioEngine.filter e) (AudioEngine.reverb e)
    (AudioEngine.distortion e) (AudioEngine.limiter e) (AudioEngine.kick e)
    (AudioEngine.snare e) (AudioEngine.hat e) (AudioEngine.bass e)
    (AudioEngine.lead e) (AudioEngine.fx e) (AudioEngine.bpm e).

(** The nine fields of a [LoopClip] agree. *)
Definition same_fields (a b : LoopClip.t) : Prop :=
  LoopClip.id a = LoopClip.id b /\
  LoopClip.title a = LoopClip.title b /\
  LoopClip.author a = LoopClip.author b /\
  LoopClip.bpm a = LoopClip.bpm b /\
  LoopClip.color a = LoopClip.color b /\
  LoopClip.createdAt a = LoopClip.createdAt b /\
  LoopClip.events a = LoopClip.events b /\
  LoopClip.likes a = LoopClip.likes b /\
  LoopClip.remixes a = LoopClip.remixes b.

(** ** The properties as the specification words them *)

(** The aligned time is not before [now], less than one subdivision after
    it, and equal to it exactly on a boundary. *)
Definition aligned_as_specified (now subdivision : number) : Prop :=
  let a := nextTickSeconds now subdivision in
  Float64.leb now a = true /\
  (Float64.Zval a - Float64.Zval now < Float64.Zval subdivision)%Z /\
  (a = now <-> (Float64.Zval now mod Float64.Zval subdivision = 0)%Z).

(** Once disposed, never ready again. *)
Definition dispose_is_terminal : Prop :=
  forall (s : State) (ops : list Op),
    AudioEngine.initialized (this (run_all ops (snd (dispose s)))) = false.

(** Nothing is pending after [dispose]. *)
Definition dispose_cancels_everything : Prop :=
  forall s : State,
    Tone.once (Tone.transport (tone (snd (dispose s)))) = [] /\
    forall p part,
      Tone.parts (tone (snd (dispose s))) !! p = Some part ->
      (0 < Tone.part_stops part)%nat.

(** The offset of every event lies in [0, measureSeconds). *)
Definition offset_in_measure (measureSeconds : number) (evt : LoopEvent.t) : Prop :=
  Float64.leb Float64.zero (offsetOf measureSeconds evt) = true /\
  Float64.ltb (offsetOf measureSeconds evt) measureSeconds = true.

(** A second [stopClip] releases nothing again. *)
Definition stopClip_releases_once : Prop :=
  forall (s : State) (a : loc) (c : ActiveClip.t) (p : PartId) (part part2 : Tone.Part),
    clips s !! a = Some c -> ActiveClip.part c = Some p ->
    Tone.parts (tone (snd (stopClip a s))) !! p = Some part ->
    Tone.parts (tone (snd (stopClip a (snd (stopClip a s))))) !! p = Some part2 ->
    Tone.part_disposals part2 = Tone.part_disposals part.

(** ** Sample worlds *)

(** What Tone.js answers for a duration at a given tempo: a quarter note
    lasts 60/bpm seconds, a sixteenth note is a quarter of that and a
    measure (in 4/4) four times that. *)
Definition seconds_at (bpm : number) (notation : string) : number :=
  let beat := Float64.div (Float64.of_Z 60) bpm in
  if String.eqb notation "16n" then Float64.mul beat (Float64.decimal 1 4)
  else if String.eqb notation "1m" then Float64.mul beat (Float64.of_Z 4)
  else Float64.zero.

(** A new engine in a world at 104 bpm, at transport time [now]. *)
Definition sample_fresh (now : number) : State :=
  fresh_state now (seconds_at DEFAULT_BPM) true.

Definition sample_ready (now : number) : State := snd (init (sample_fresh now)).

(** The events [(0,kick,1.0), (4,snare,0.9), (8,kick,1.0)]. *)
Definition sample_events : list LoopEvent.t :=
  [LoopEvent.mk (Float64.of_Z 0) PadId.kick (Float64.of_Z 1);
   LoopEvent.mk (Float64.of_Z 4) PadId.snare (Float64.decimal 9 10);
   LoopEvent.mk (Float64.of_Z 8) PadId.kick (Float64.of_Z 1)].

Definition sample_clip : LoopClip.t :=
  LoopClip.mk "nova-drift" "Nova Drift" "RayPulse" DEFAULT_BPM "#ff6ac1"
    (Float64.of_Z 1700000000000) 0%nat (Float64.of_Z 214) (Float64.of_Z 24).

(** The sample clip and its events, stored at address 0. *)
Definition with_sample_clip (s : State) : State :=
  mkState (this s) (tone s)
    (<[0%nat := ActiveClip.mk sample_clip None]> (clips s))
    (<[0%nat := sample_events]> (arrays s)).

Definition sample_playing : State :=
  snd (createClip 0%nat (with_sample_clip (sample_ready Float64.zero))).

(** The same engine once a tempo request has taken effect: Tone.js answers
    at [bpm]. *)
Definition ready_at (bpm now : number) : State :=
  snd (setBpm bpm (snd (init (fresh_state now (seconds_at bpm) true)))).

(** 0.721153846153846, the double just below five sixteenths at 104 bpm. *)
Definition just_below_5 : number := S754_finite false 6495576385630522 (-53).

(** The largest finite double. *)
Definition max_number : number := S754_finite false 9007199254740991 971.

(** An event whose tick is -1. *)
Definition event_before_grid : LoopEvent.t :=
  LoopEvent.mk (Float64.of_Z (-1)) PadId.kick (Float64.of_Z 1).

(** ** The signal graph of an initialised engine *)

(** The ten nodes an engine holds, by field. *)
Record Rack := mkRack {
  rack_filter : NodeId;
  rack_reverb : NodeId;
  rack_distortion : NodeId;
  rack_limiter : NodeId;
  rack_kick : NodeId;
  rack_snare : NodeId;
  rack_hat : NodeId;
  rack_bass : NodeId;
  rack_lead : NodeId;
  rack_fx : NodeId
}.

Definition rack_nodes (k : Rack) : list NodeId :=
  [rack_filter k; rack_reverb k; rack_distortion k; rack_limiter k;
   rack_kick k; rack_snare k; rack_hat k; rack_bass k; rack_lead k; rack_fx k].

(** The engine object whose fields hold the nodes of [k]. *)
Definition engine_of (k : Rack) (initialized : bool) (bpm : number) : AudioEngine.t :=
  AudioEngine.mk initialized
    (Some (rack_filter k)) (Some (rack_reverb k)) (Some (rack_distortion k))
    (Some (rack_limiter k)) (Some (rack_kick k)) (Some (rack_snare k))
    (Some (rack_hat k)) (Some (rack_bass k)) (Some (rack_lead k))
    (Some (rack_fx k)) bpm.

(** A node as [init] leaves it: connected, never ramped, never disposed. *)
Definition patched (kind : Tone.NodeKind) (o : Tone.Output) : Tone.Node :=
  Tone.mkNode kind (Some o) None 0.

(** The chain filter -> reverb -> distortion -> limiter -> output, and
    the six voices feeding the filter. *)
Definition wired (m : gmap NodeId Tone.Node) (k : Rack) : Prop :=
  m !! rack_filter k = Some (patched Tone.Filter (Tone.ToNode (rack_reverb k))) /\
  m !! rack_reverb k = Some (patched Tone.Reverb (Tone.ToNode (rack_distortion k))) /\
  m !! rack_distortion k = Some (patched Tone.Distortion (Tone.ToNode (rack_limiter k))) /\
  m !! rack_limiter k = Some (patched Tone.Limiter Tone.Destination) /\
  m !! rack_kick k = Some (patched Tone.MembraneSynth (Tone.ToNode (rack_filter k))) /\
  m !! rack_snare k = Some (patched Tone.NoiseSynth (Tone.ToNode (rack_filter k))) /\
  m !! rack_hat k = Some (patched Tone.MetalSynth (Tone.ToNode (rack_filter k))) /\
  m !! rack_bass k = Some (patched Tone.MonoSynth (Tone.ToNode (rack_filter k))) /\
  m !! rack_lead k = Some (patched Tone.Synth (Tone.ToNode (rack_filter k))) /\
  m !! rack_fx k = Some (patched Tone.FMSynth (Tone.ToNode (rack_filter k))).

(** The Transport after the five assignments at the end of [init]. *)
Definition looping_transport (bpm : number) (t : Tone.Transport) : Tone.Transport :=
  Tone.mkTransport (Tone.seconds t) bpm (Tone.bpm_ramp t) true Float64.zero
    (Some "1m") (Some "+0.1") (Tone.once t).

(** [s'] is [s] after a run of [init] that built the nodes of [k]. *)
Definition built (s s' : State) (k : Rack) : Prop :=
  this s' = engine_of k true (AudioEngine.bpm (this s)) /\
  NoDup (rack_nodes k) /\
  (forall n, In n (rack_nodes k) -> Tone.nodes (tone s) !! n = None) /\
  wired (Tone.nodes (tone s')) k /\
  (forall n, ~ In n (rack_nodes k) ->
     Tone.nodes (tone s') !! n = Tone.nodes (tone s) !! n) /\
  Tone.transport (tone s') =
    looping_transport (AudioEngine.bpm (this s)) (Tone.transport (tone s)) /\
  Tone.parts (tone s') = Tone.parts (tone s) /\
  Tone.triggers (tone s') = Tone.triggers (tone s) /\
  Tone.toSeconds (tone s') = Tone.toSeconds (tone s) /\
  Tone.unlockable (tone s') = Tone.unlockable (tone s) /\
  clips s' = clips s /\ arrays s' = arrays s.

(** The node that plays a pad. *)
Definition voice_of (k : Rack) (p : PadId.t) : NodeId :=
  match p with
  | PadId.kick => rack_kick k
  | PadId.snare => rack_snare k
  | PadId.hat => rack_hat k
  | PadId.bass => rack_bass k
  | PadId.lead => rack_lead k
  | PadId.fx => rack_fx k
  end.

(** The nodes of [s] are still there in [s'], of the same kind and
    connected to the same output. *)
Definition keeps_graph (s s' : State) : Prop :=
  forall n nd,
    Tone.nodes (tone s) !! n = Some nd ->
    exists nd',
      Tone.nodes (tone s') !! n = Some nd' /\
      Tone.kind nd' = Tone.kind nd /\ Tone.output nd' = Tone.output nd.

(** The ten fields of the engine object. *)
Definition fields (e : AudioEngine.t) : list (option NodeId) :=
  [AudioEngine.filter e; AudioEngine.reverb e; AudioEngine.distortion e;
   AudioEngine.limiter e; AudioEngine.kick e; AudioEngine.snare e;
   AudioEngine.hat e; AudioEngine.bass e; AudioEngine.lead e; AudioEngine.fx e].

(** The call of [triggerAttackRelease] a pad leads to, on an engine that
    holds the nodes of [k]. *)
Definition sound (k : Rack) (p : PadId.t) (time velocity : number) : Tone.Trigger :=
  match p with
  | PadId.kick => Tone.mkTrigger (rack_kick k) (Some "C1") "8n" time velocity
  | PadId.snare => Tone.mkTrigger (rack_snare k) None "8n" time velocity
  | PadId.hat => Tone.mkTrigger (rack_hat k) None "16n" time velocity
  | PadId.bass =>
      Tone.mkTrigger (rack_bass k) (Some "C2") "8n" time
        (Float64.mul velocity (Float64.decimal 9 10))
  | PadId.lead =>
      Tone.mkTrigger (rack_lead k) (Some "C4") "8n" time
        (Float64.mul velocity (Float64.decimal 8 10))
  | PadId.fx =>
      Tone.mkTrigger (rack_fx k) (Some "G4") "8n" time
        (Float64.mul velocity (Float64.decimal 6 10))
  end.

(** The call of [triggerAttackRelease] that one call of a part's callback
    leads to: none if Tone.js passes no value. *)
Definition fired (k : Rack) (values : list (number * LoopEvent.t)) (c : number * nat)
    : list Tone.Trigger :=
  match values !! snd c with
  | Some (_, e) => [sound k (LoopEvent.padId e) (fst c) (LoopEvent.velocity e)]
  | None => []
  end.


(** The rack of the sample engine: [init] in an empty world numbers the
    nodes in the order it builds them. *)
Definition sample_rack : Rack := mkRack 0 1 2 3 4 5 6 7 8 9.

(** * The component around the engine ([ArBeatPad])

    The React component keeps the recorded events, the list of shared
    clips and the score in its state and calls the engine from its
    handlers.  What follows models the parts of it that compute or that
    drive the engine: the clip a recording is saved as, a tap on a pad,
    the effects that pass the sliders on and release the engine, the
    skins a score unlocks and the age shown for a clip.  Rendering, the
    camera and the persistence through [localStorage] are left out. *)

(** ** The platform *)

(** [Array.prototype.sort(compare)] is stable, and [compare(x, y) > 0]
    means that [x] goes after [y]; a comparator that answers NaN counts
    as answering 0.  Insertion from the right is such a sort: on a
    comparator that orders the elements consistently every stable sort
    returns the same array. *)
Fixpoint insert_by {A} (compare : A -> A -> number) (x : A) (l : list A) : list A :=
  match l with
  | [] => [x]
  | y :: l' =>
      if Float64.ltb Float64.zero (compare x y) then y :: insert_by compare x l'
      else x :: l
  end.

Definition Array_sort {A} (compare : A -> A -> number) (l : list A) : list A :=
  foldr (insert_by compare) [] l.

(** An array that [map] or a literal creates: a new array at an unused
    address. *)
Definition new_array (a : list LoopEvent.t) : M loc :=
  let* s := get in
  let l := fresh (dom (arrays s)) in
  modify (fun s => mkState (this s) (tone s) (clips s) (<[l := a]> (arrays s))) >>
  ret l.

(** What a handler draws from the platform: the results of [uid()],
    [randomColor()], [Date.now()] and [Math.random()]. *)
Record Draw := mkDraw {
  draw_uid : string;
  draw_color : string;
  draw_now : number;
  draw_random : number
}.

(** ** The state of the component *)

(** The state variables the handlers below read or write, in the order
    of their [useState] calls.  The shared clips and the active clip are
    references to clip objects; the recorded events are a value, since no
    handler changes an array of events in place. *)
Module Ui.
Record t := mk {
  audioReady : bool;
  bpm : number;
  filterValue : number;
  reverbValue : number;
  points : number;
  streak : number;
  currentEvents : list LoopEvent.t;
  sharedClips : list loc;
  activeClip : option loc;
  loopTitle : string
}.
End Ui.

(** ** Saving a recording *)

(** [{ ...evt, tick: Math.abs(evt.tick % 16) }] *)
Definition fold_tick (evt : LoopEvent.t) : LoopEvent.t :=
  LoopEvent.mk (Float64.abs (Float64.rem (LoopEvent.tick evt) (Float64.of_Z 16)))
    (LoopEvent.padId evt) (LoopEvent.velocity evt).

(** [(a, b) => a.tick - b.tick] *)
Definition by_tick (a b : LoopEvent.t) : number :=
  Float64.sub (LoopEvent.tick a) (LoopEvent.tick b).

Definition normalized (currentEvents : list LoopEvent.t) : list LoopEvent.t :=
  Array_sort by_tick (map fold_tick currentEvents).

(** [handleSaveClip]; [trim] is [String.prototype.trim]. *)
Definition handleSaveClip (trim : string -> string) (d : Draw) (ui : Ui.t) : M Ui.t :=
  match Ui.currentEvents ui with
  | [] => ret ui
  | _ :: _ =>
      let* events := new_array (normalized (Ui.currentEvents ui)) in
      let clipTitle :=
        if String.eqb (trim (Ui.loopTitle ui)) "" then
          "Pulse " +:+ pretty (length (Ui.sharedClips ui) + 1)%nat
        else trim (Ui.loopTitle ui) in
      let* clip :=
        new_clip
          (ActiveClip.mk
             (LoopClip.mk (draw_uid d) clipTitle "You" (Ui.bpm ui) (draw_color d)
                (draw_now d) events
                (Float64.floor (Float64.mul (draw_random d) (Float64.of_Z 70)))
                (Float64.of_Z 0))
             None) in
      ret (Ui.mk (Ui.audioReady ui) (Ui.bpm ui) (Ui.filterValue ui) (Ui.reverbValue ui)
             (Float64.add (Ui.points ui) (Float64.of_Z 140)) (Ui.streak ui) []
             (clip :: Ui.sharedClips ui) (Ui.activeClip ui) "")
  end.

(** A tick that is a whole number, of either sign, held exactly. *)
Definition whole_tick (evt : LoopEvent.t) : Prop :=
  exists k : Z, (- 2 ^ 53 < k < 2 ^ 53)%Z /\ LoopEvent.tick evt = Float64.of_Z k.

(** A tick that is one of the steps 0, 1, ..., 15. *)
Definition on_grid (evt : LoopEvent.t) : Prop :=
  exists j : Z, (0 <= j < 16)%Z /\ LoopEvent.tick evt = Float64.of_Z j.

(** [a.tick <= b.tick] *)
Definition tick_le (a b : LoopEvent.t) : Prop :=
  Float64.leb (LoopEvent.tick a) (LoopEvent.tick b) = true.

(** ** Tapping a pad, and the effects around the engine *)

(** [ensureAudio]: the component initialises the engine once and
    remembers that in its own flag. *)
Definition ensureAudio (ui : Ui.t) : M Ui.t :=
  if Ui.audioReady ui then ret ui
  else
    init >>
    ret (Ui.mk true (Ui.bpm ui) (Ui.filterValue ui) (Ui.reverbValue ui) (Ui.points ui)
           (Ui.streak ui) (Ui.currentEvents ui) (Ui.sharedClips ui) (Ui.activeClip ui)
           (Ui.loopTitle ui)).

(** [handlePadTrigger], without the visual burst.  It is asynchronous
    and suspends at [await ensureAudio()]; the model runs it in one
    step. *)
Definition handlePadTrigger (padId : PadId.t) (ui : Ui.t) : M Ui.t :=
  let* ui := ensureAudio ui in
  let* q := triggerPad padId (Some (Float64.of_Z 1)) in
  ret (Ui.mk (Ui.audioReady ui) (Ui.bpm ui) (Ui.filterValue ui) (Ui.reverbValue ui)
         (Float64.add (Float64.add (Ui.points ui) (Float64.of_Z 5))
            (Float64.floor (Float64.div (Ui.streak ui) (Float64.of_Z 3))))
         (Float64.add (Ui.streak ui) (Float64.of_Z 1))
         (Ui.currentEvents ui ++
          [LoopEvent.mk (QuantizedTrigger.tick q) padId (Float64.of_Z 1)])
         (Ui.sharedClips ui) (Ui.activeClip ui) (Ui.loopTitle ui)).

(** The three effects that pass the sliders on to the engine.  React
    runs each after the first render and whenever its value changes. *)
Definition effect_bpm (ui : Ui.t) : M unit := setBpm (Ui.bpm ui).
Definition effect_filter (ui : Ui.t) : M unit := setFilterFrequency (Ui.filterValue ui).
Definition effect_reverb (ui : Ui.t) : M unit := setReverbWet (Ui.reverbValue ui).

(** The cleanup of the effect that depends on [activeClip]:
    [activeClip?.part?.dispose(); engine.dispose()].  React runs it with
    the [activeClip] of the render before, whenever [activeClip] has
    changed and when the component unmounts. *)
Definition cleanup (activeClip : option loc) : M unit :=
  match activeClip with
  | Some a =>
      let* c := read_clip a in
      match ActiveClip.part c with
      | Some p => part_dispose p
      | None => ret tt
      end
  | None => ret tt
  end >>
  dispose.

(** ** Skins *)

Module Skin.
Record t := mk { id : string; name : string; threshold : number }.
End Skin.

Definition skinUnlocks : list Skin.t :=
  [Skin.mk "aurora" "Aurora Bloom" (Float64.of_Z 0);
   Skin.mk "nebula" "Nebula Nova" (Float64.of_Z 400);
   Skin.mk "nova" "Nova Prism" (Float64.of_Z 800);
   Skin.mk "hyper" "Hyper Flux" (Float64.of_Z 1500)].

(** [skinUnlocks.filter((skin) => points >= skin.threshold)] *)
Definition unlockedSkins (points : number) : list Skin.t :=
  List.filter (fun skin => Float64.leb (Skin.threshold skin) points) skinUnlocks.

(** ** The age of a clip *)

(** [formatRelative(ts)] at the time [now] that [Date.now()] answers;
    [show] is the conversion of a number to a string in a template. *)
Definition formatRelative (show : number -> string) (now ts : number) : string :=
  let delta := Float64.sub now ts in
  let hours := Float64.floor (Float64.div delta (Float64.of_Z (1000 * 60 * 60))) in
  if Float64.ltb hours (Float64.of_Z 1) then
    let minutes :=
      Float64.max (Float64.of_Z 1)
        (Float64.floor (Float64.div delta (Float64.of_Z (1000 * 60)))) in
    show minutes +:+ "m ago"
  else if Float64.ltb hours (Float64.of_Z 24) then show hours +:+ "h ago"
  else show (Float64.floor (Float64.div hours (Float64.of_Z 24))) +:+ "d ago".

(** A recording of four taps, one of them with a tick before the grid,
    and the state of the component that holds it. *)
Definition sample_taps : list LoopEvent.t :=
  [LoopEvent.mk (Float64.of_Z 12) PadId.snare (Float64.of_Z 1);
   LoopEvent.mk (Float64.of_Z (-1)) PadId.kick (Float64.of_Z 1);
   LoopEvent.mk (Float64.of_Z 20) PadId.hat (Float64.of_Z 1);
   LoopEvent.mk (Float64.of_Z 0) PadId.kick (Float64.of_Z 1)].

Definition sample_ui : Ui.t :=
  Ui.mk true (Float64.of_Z 104) (Float64.of_Z 18000) (Float64.decimal 28 100)
    (Float64.of_Z 120) (Float64.of_Z 4) sample_taps [] None "".

Definition sample_draw : Draw :=
  mkDraw "c0ffee" "#ffd166" (Float64.of_Z 1700000000000) (Float64.decimal 1 2).

(** * Part 3: facts about binary64 rounding *)

Module Float64Facts.
Import Float64.
Local Open Scope Z_scope.

Lemma fexp_eq e : SpecFloat.fexp prec emax e = fexp e.
Proof. reflexivity. Qed.

(** A few values every JavaScript console shows: 0.1 + 0.2 is
    0.30000000000000004 and not 0.3; 0.3 % 0.1 is 0.09999999999999998;
    the remainder keeps the sign of the dividend; [Math.round] sends 2.5
    to 3, -2.5 to -2 and 0.49999999999999994 to 0. *)
Example add_tenths :
  add (decimal 1 10) (decimal 2 10) = S754_finite false 5404319552844596 (-54) /\
  decimal 3 10 = S754_finite false 5404319552844595 (-54).
Proof. split; reflexivity. Qed.

Example rem_three_tenths :
  rem (decimal 3 10) (decimal 1 10) = S754_finite false 7205759403792792 (-56).
Proof. reflexivity. Qed.

Example rem_keeps_sign :
  rem (of_Z (-7)) (of_Z 16) = of_Z (-7) /\ rem (of_Z 23) (of_Z 16) = of_Z 7 /\
  rem (S754_infinity false) (of_Z 16) = S754_nan.
Proof. repeat split; reflexivity. Qed.

Example round_ties_up :
  round (decimal 5 2) = of_Z 3 /\ round (decimal (-5) 2) = of_Z (-2) /\
  round (S754_finite false 9007199254740991 (-54)) = zero.
Proof. repeat split; reflexivity. Qed.


(** ** Digits and shifts *)

Lemma digits2_pos_log2 (m : positive) :
  Z.pos (digits2_pos m) = Z.log2 (Z.pos m) + 1.
Proof.
  induction m as [p IH|p IH|]; simpl digits2_pos.
  - rewrite Pos2Z.inj_succ, IH, Pos2Z.inj_xI, Z.log2_succ_double by lia. lia.
  - rewrite Pos2Z.inj_succ, IH, Pos2Z.inj_xO, Z.log2_double by lia. lia.
  - reflexivity.
Qed.

Lemma iter_pos_nat {A} (f : A -> A) (p : positive) (x : A) :
  iter_pos f p x = Nat.iter (Pos.to_nat p) f x.
Proof.
  revert x. induction p as [p IH|p IH|]; intros x; simpl iter_pos.
  - rewrite !IH, Pos2Nat.inj_xI, <- Nat.iter_add, <- Nat.iter_succ_r.
    f_equal. lia.
  - rewrite !IH, Pos2Nat.inj_xO, <- Nat.iter_add. f_equal. lia.
  - reflexivity.
Qed.

Lemma nat_iter_xO (n : nat) (m : positive) :
  Z.pos (Nat.iter n xO m) = Z.pos m * 2 ^ Z.of_nat n.
Proof.
  induction n as [|n IH].
  - simpl. lia.
  - rewrite Nat2Z.inj_succ, Z.pow_succ_r by lia.
    change (Nat.iter (S n) xO m) with (xO (Nat.iter n xO m)).
    rewrite Pos2Z.inj_xO, IH. lia.
Qed.

Lemma pos_iter_xO (m d : positive) :
  Z.pos (Pos.iter xO m d) = Z.pos m * 2 ^ Z.pos d.
Proof.
  rewrite Pos2Nat.inj_iter, <- (positive_nat_Z d).
  exact (nat_iter_xO (Pos.to_nat d) m).
Qed.


Lemma Zdigits2_log2 (m : Z) : 0 < m -> Zdigits2 m = Z.log2 m + 1.
Proof. destruct m as [|p|p]; try lia. intros _. apply digits2_pos_log2. Qed.

(** One right shift of a non-negative mantissa: halve, remember the bit
    that fell off, and accumulate the sticky bit. *)
Lemma shr_1_nonneg (m : Z) (r s : bool) :
  0 <= m ->
  shr_1 {| shr_m := m; shr_r := r; shr_s := s |} =
  {| shr_m := m / 2; shr_r := Z.odd m; shr_s := r || s |}.
Proof.
  intros Hm. rewrite <- Z.div2_div.
  destruct m as [|[p|p|]|p]; try lia; reflexivity.
Qed.

Lemma mod_pow2_succ (m k : Z) :
  0 <= k ->
  m mod 2 ^ (k + 1) = m mod 2 ^ k + 2 ^ k * Z.b2z (Z.testbit m k).
Proof.
  intros Hk. rewrite Z.pow_add_r, Z.pow_1_r by lia.
  rewrite Z.rem_mul_r, Z.testbit_spec' by lia. reflexivity.
Qed.

Lemma shr_iter (n : nat) (m : Z) (r0 s0 : bool) :
  0 <= m ->
  Nat.iter (S n) shr_1 {| shr_m := m; shr_r := r0; shr_s := s0 |} =
  {| shr_m := m / 2 ^ Z.of_nat (S n);
     shr_r := Z.testbit m (Z.of_nat n);
     shr_s := r0 || s0 || negb (m mod 2 ^ Z.of_nat n =? 0) |}.
Proof.
  intros Hm. induction n as [|n IH].
  - change (Nat.iter 1 shr_1 ?x) with (shr_1 x).
    rewrite shr_1_nonneg by lia. simpl Z.of_nat.
    rewrite Z.pow_1_r, Z.pow_0_r, Z.mod_1_r, Z.bit0_odd. simpl.
    now rewrite orb_false_r.
  - change (Nat.iter (S (S n)) shr_1 ?x) with (shr_1 (Nat.iter (S n) shr_1 x)).
    rewrite IH, shr_1_nonneg by (apply Z.div_pos; lia).
    f_equal.
    + rewrite Z.div_div by lia. f_equal.
      rewrite (Nat2Z.inj_succ (S n)), Z.pow_succ_r by lia. lia.
    + rewrite Z.testbit_odd, Z.shiftr_div_pow2 by lia. reflexivity.
    + rewrite (Nat2Z.inj_succ n). unfold Z.succ.
      rewrite (mod_pow2_succ m (Z.of_nat n)) by lia.
      assert (0 <= m mod 2 ^ Z.of_nat n) by (apply Z.mod_pos_bound; lia).
      assert (0 < 2 ^ Z.of_nat n) by lia.
      destruct (Z.testbit m (Z.of_nat n)); destruct r0, s0; simpl;
        repeat match goal with |- context [?a =? ?b] => destruct (Z.eqb_spec a b) end;
        simpl; try reflexivity; lia.
Qed.


Lemma Zdigits2_bounds (m : Z) :
  0 <= m ->
  0 <= Zdigits2 m /\ m < 2 ^ Zdigits2 m /\ (0 < m -> 2 ^ (Zdigits2 m - 1) <= m).
Proof.
  intros Hm. destruct (Z.eq_dec m 0) as [->|Hnz].
  - simpl. lia.
  - rewrite Zdigits2_log2 by lia.
    pose proof (Z.log2_nonneg m). pose proof (Z.log2_spec m ltac:(lia)) as [H1 H2].
    replace (Z.log2 m + 1 - 1) with (Z.log2 m) by lia.
    replace (Z.log2 m + 1) with (Z.succ (Z.log2 m)) by lia. lia.
Qed.

(** The mantissa left by [shr] is the quotient by the power of two,
    whatever the initial location bits were. *)
Lemma shr_spec (m : Z) (l : location) (e n : Z) :
  0 <= m -> 0 <= n ->
  shr_m (fst (shr (shr_record_of_loc m l) e n)) = m / 2 ^ n /\
  snd (shr (shr_record_of_loc m l) e n) = e + n.
Proof.
  intros Hm Hn. destruct n as [|p|p]; try lia.
  - simpl. rewrite Z.div_1_r.
    split; [destruct l as [|[| |]]; reflexivity | lia].
  - unfold shr. rewrite iter_pos_nat. simpl fst. simpl snd.
    destruct (Pos2Nat.is_succ p) as [k Hk]. rewrite Hk.
    assert (HZ : Z.pos p = Z.of_nat (S k)) by lia.
    split; [|reflexivity].
    destruct l as [|[| |]]; simpl shr_record_of_loc;
      rewrite shr_iter by lia; simpl shr_m; now rewrite HZ.
Qed.

Lemma shr_rne (m e n : Z) :
  0 <= m -> 0 <= n ->
  let mrs := fst (shr (shr_record_of_loc m loc_Exact) e n) in
  round_nearest_even (shr_m mrs) (loc_of_shr_record mrs) = rne_shift m n.
Proof.
  intros Hm Hn. destruct n as [|p|p]; try lia.
  - simpl. unfold rne_shift. rewrite Z.pow_0_r, Z.mod_1_r, Z.div_1_r. reflexivity.
  - unfold shr. rewrite iter_pos_nat. simpl fst.
    destruct (Pos2Nat.is_succ p) as [k Hk]. rewrite Hk.
    assert (HZ : Z.pos p = Z.of_nat k + 1) by lia.
    simpl shr_record_of_loc. rewrite shr_iter by lia.
    unfold rne_shift. rewrite HZ.
    replace (Z.of_nat (S k)) with (Z.of_nat k + 1) by lia.
    rewrite (mod_pow2_succ m (Z.of_nat k)) by lia.
    rewrite Z.pow_add_r, Z.pow_1_r by lia.
    pose proof (Z.mod_pos_bound m (2 ^ Z.of_nat k) ltac:(lia)) as [H0 H1].
    set (q := m / (2 ^ Z.of_nat k * 2)).
    set (r := m mod 2 ^ Z.of_nat k) in *.
    set (P := 2 ^ Z.of_nat k) in *.
    simpl orb.
    destruct (Z.testbit m (Z.of_nat k)); simpl Z.b2z;
      destruct (Z.eqb_spec r 0) as [Hr|Hr]; simpl;
      repeat match goal with
             | |- context [?a <? ?b] => destruct (Z.ltb_spec a b); simpl
             | |- context [?a =? ?b] => destruct (Z.eqb_spec a b); simpl
             end; try reflexivity; try lia.
Qed.

(** ** What [binary_round_aux] computes *)

Lemma round_nearest_even_range (m : Z) (l : location) :
  m <= round_nearest_even m l <= m + 1.
Proof. destruct l as [|[| |]]; simpl; try destruct (Z.even m); lia. Qed.

Lemma renormalise (sx : bool) (m1 E : Z) :
  emin <= E -> 0 <= m1 <= 2 ^ 53 -> (2 ^ 52 <= m1 \/ E = emin) ->
  (let '(mrs, e) := shr_fexp prec emax m1 E loc_Exact in
   match shr_m mrs with
   | 0 => S754_zero sx
   | Z.pos m => if e <=? emax - prec then S754_finite sx m e else S754_infinity sx
   | Z.neg _ => S754_nan
   end) = pack sx m1 E.
Proof.
  intros HE Hm Hn. unfold shr_fexp, pack. rewrite fexp_eq.
  destruct (Z.eqb_spec m1 0) as [->|Hnz].
  - simpl Zdigits2. unfold fexp.
    destruct (Z.max (0 + E - 53) emin - E) eqn:Hd; try lia; reflexivity.
  - destruct (Z.eqb_spec m1 (2 ^ 53)) as [->|Hne].
    + change (Zdigits2 (2 ^ 53)) with 54. unfold fexp.
      replace (Z.max (54 + E - 53) emin - E) with 1 by lia.
      simpl. reflexivity.
    + rewrite Zdigits2_log2 by lia.
      assert (Z.log2 m1 < 53) by (apply Z.log2_lt_pow2; lia).
      assert (52 <= Z.log2 m1 \/ E = emin).
      { destruct Hn as [Hn|Hn]; [left|now right]. apply Z.log2_le_pow2; lia. }
      unfold fexp.
      replace (Z.max (Z.log2 m1 + 1 + E - 53) emin - E) with 0 by lia.
      simpl. destruct m1 as [|p|p]; try lia. reflexivity.
Qed.

Lemma binary_round_aux_pack (sx : bool) (mx ex : Z) (lx : location) :
  0 <= mx -> ex <= fexp (Zdigits2 mx + ex) ->
  let n := fexp (Zdigits2 mx + ex) - ex in
  let mrs := fst (shr (shr_record_of_loc mx lx) ex n) in
  let m1 := round_nearest_even (shr_m mrs) (loc_of_shr_record mrs) in
  binary_round_aux prec emax sx mx ex lx = pack sx m1 (ex + n) /\
  mx / 2 ^ n <= m1 <= mx / 2 ^ n + 1 /\
  0 <= m1 <= 2 ^ 53 /\ (2 ^ 52 <= m1 \/ ex + n = emin) /\ emin <= ex + n.
Proof.
  intros Hmx Hex n mrs m1.
  destruct (shr_spec mx lx ex n Hmx ltac:(lia)) as [Hm He].
  fold mrs in Hm.
  pose proof (round_nearest_even_range (shr_m mrs) (loc_of_shr_record mrs)) as Hr.
  fold m1 in Hr. rewrite Hm in Hr.
  destruct (Zdigits2_bounds mx Hmx) as (Hd0 & Hd1 & Hd2).
  set (d := Zdigits2 mx) in *.
  assert (HE : emin <= ex + n) by (unfold n, fexp; lia).
  assert (Hq0 : 0 <= mx / 2 ^ n) by (apply Z.div_pos; lia).
  assert (Hq1 : mx / 2 ^ n < 2 ^ 53).
  { apply Z.div_lt_upper_bound; [lia|].
    rewrite <- Z.pow_add_r by lia.
    eapply Z.lt_le_trans; [exact Hd1|].
    apply Z.pow_le_mono_r; unfold n, fexp; lia. }
  assert (Hq2 : 2 ^ 52 <= mx / 2 ^ n \/ ex + n = emin).
  { destruct (Z.eq_dec (ex + n) emin) as [|Hne]; [now right|left].
    assert (Hn : n = d - 53) by (unfold n, fexp in *; lia).
    assert (0 < mx).
    { destruct (Z.eq_dec mx 0) as [E0|]; [|lia].
      subst mx. unfold d in Hn. simpl in Hn. lia. }
    apply Z.div_le_lower_bound; [lia|].
    rewrite <- Z.pow_add_r by lia.
    replace (n + 52) with (d - 1) by lia. auto. }
  split; [|repeat split; try lia].
  unfold binary_round_aux.
  assert (Hshr : shr_fexp prec emax mx ex lx = (mrs, ex + n)).
  { unfold shr_fexp. rewrite fexp_eq. fold d. fold n.
    rewrite (surjective_pairing (shr _ _ _)). fold mrs. now rewrite He. }
  rewrite Hshr. fold m1.
  apply renormalise; lia.
Qed.


(** ** Validity and value of a packed result *)

Lemma bounded_iff (m : positive) (e : Z) :
  bounded prec emax m e = true <->
  emin <= e <= 971 /\ Z.pos m < 2 ^ 53 /\ (2 ^ 52 <= Z.pos m \/ e = emin).
Proof.
  unfold bounded, canonical_mantissa. rewrite fexp_eq, digits2_pos_log2.
  rewrite andb_true_iff, Z.eqb_eq, Z.leb_le.
  change (emax - prec) with 971. unfold fexp.
  pose proof (Z.log2_lt_pow2 (Z.pos m) 53 ltac:(lia)) as H53.
  pose proof (Z.log2_le_pow2 (Z.pos m) 52 ltac:(lia)) as H52.
  lia.
Qed.

Lemma pow2_lt (a b : Z) : 0 <= a < b -> 2 ^ a < 2 ^ b.
Proof. intros. apply Z.pow_lt_mono_r; lia. Qed.

Lemma pow2_le (a b : Z) : 0 <= a <= b -> 2 ^ a <= 2 ^ b.
Proof. intros. apply Z.pow_le_mono_r; lia. Qed.

Lemma pow2_pos (a : Z) : 0 <= a -> 0 < 2 ^ a.
Proof. intros. apply Z.pow_pos_nonneg; lia. Qed.

Lemma scaled_lt_top (m e : Z) :
  0 <= m < 2 ^ 53 -> emin <= e <= 971 -> m * 2 ^ (e - emin) < top.
Proof.
  intros Hm He. unfold top, emin in *.
  replace 2098 with (53 + 2045) by lia. rewrite Z.pow_add_r by lia.
  pose proof (pow2_le (e - -1074) 2045 ltac:(lia)).
  pose proof (pow2_pos (e - -1074) ltac:(lia)).
  nia.
Qed.

Lemma scaled_ge_top (m e : Z) :
  2 ^ 52 <= m -> 971 < e -> top <= m * 2 ^ (e - emin).
Proof.
  intros Hm He. unfold top, emin in *.
  replace 2098 with (52 + 2046) by lia. rewrite Z.pow_add_r by lia.
  pose proof (pow2_le 2046 (e - -1074) ltac:(lia)).
  pose proof (pow2_pos 2046 ltac:(lia)).
  nia.
Qed.

Lemma pack_valid (sx : bool) (m1 E : Z) :
  emin <= E -> 0 <= m1 <= 2 ^ 53 -> (2 ^ 52 <= m1 \/ E = emin) ->
  valid (pack sx m1 E).
Proof.
  intros HE Hm Hn. unfold pack, valid.
  destruct (Z.eqb_spec m1 0); [reflexivity|].
  destruct (Z.eqb_spec m1 (2 ^ 53)).
  - destruct (Z.leb_spec (E + 1) 971); [|reflexivity].
    simpl valid_binary. apply bounded_iff.
    change (Z.pos (2 ^ 52)) with (2 ^ 52). unfold emin in *. lia.
  - destruct (Z.leb_spec E 971); [|reflexivity].
    simpl valid_binary. apply bounded_iff.
    rewrite Z2Pos.id by lia. lia.
Qed.

Lemma pack_Zval (m1 E : Z) :
  emin <= E -> 0 <= m1 <= 2 ^ 53 -> (2 ^ 52 <= m1 \/ E = emin) ->
  Zval (pack false m1 E) = Z.min (m1 * 2 ^ (E - emin)) top.
Proof.
  intros HE Hm Hn. unfold pack.
  destruct (Z.eqb_spec m1 0) as [->|Hnz].
  - simpl. unfold top. lia.
  - destruct (Z.eqb_spec m1 (2 ^ 53)) as [->|Hne].
    + assert (Hsh : 2 ^ 53 * 2 ^ (E - emin) = 2 ^ 52 * 2 ^ (E + 1 - emin)).
      { replace (E + 1 - emin) with (E - emin + 1) by lia.
        rewrite Z.pow_add_r by lia. lia. }
      destruct (Z.leb_spec (E + 1) 971).
      * simpl Zval. change (Z.pos (2 ^ 52)) with (2 ^ 52). rewrite Hsh.
        pose proof (scaled_lt_top (2 ^ 52) (E + 1) ltac:(lia) ltac:(lia)). lia.
      * simpl Zval. rewrite Hsh.
        pose proof (scaled_ge_top (2 ^ 52) (E + 1) ltac:(lia) ltac:(lia)). lia.
    + destruct (Z.leb_spec E 971).
      * simpl Zval. rewrite Z2Pos.id by lia.
        pose proof (scaled_lt_top m1 E ltac:(lia) ltac:(lia)). lia.
      * simpl Zval. assert (2 ^ 52 <= m1) by (unfold emin in *; lia).
        pose proof (scaled_ge_top m1 E ltac:(lia) ltac:(lia)). lia.
Qed.

Lemma pack_nonneg (m1 E : Z) : nonneg (pack false m1 E).
Proof.
  unfold pack.
  repeat match goal with |- context [if ?b then _ else _] => destruct b end;
    exact I.
Qed.


(** ** Rounding on the grid *)

Lemma rne_shift_range (m n : Z) :
  m / 2 ^ n <= rne_shift m n <= m / 2 ^ n + 1.
Proof. unfold rne_shift. destruct (_ || _); lia. Qed.

Lemma rne_shift_scale (m n k : Z) :
  0 <= n -> 0 <= k -> rne_shift (m * 2 ^ k) (n + k) = rne_shift m n.
Proof.
  intros Hn Hk. unfold rne_shift.
  rewrite Z.pow_add_r by lia.
  pose proof (pow2_pos n Hn). pose proof (pow2_pos k Hk).
  rewrite Z.div_mul_cancel_r by lia.
  rewrite Z.mul_mod_distr_r by lia.
  set (r := m mod 2 ^ n). set (q := m / 2 ^ n).
  set (P := 2 ^ n) in *. set (K := 2 ^ k) in *.
  replace (2 * (r * K) <? P * K) with (2 * r <? P)
    by (destruct (Z.ltb_spec (2 * r) P), (Z.ltb_spec (2 * (r * K)) (P * K)); nia).
  replace (2 * (r * K) =? P * K) with (2 * r =? P)
    by (destruct (Z.eqb_spec (2 * r) P), (Z.eqb_spec (2 * (r * K)) (P * K)); nia).
  reflexivity.
Qed.

Lemma shl_align_spec (m : positive) (e e' : Z) :
  e' <= e ->
  Z.pos (fst (shl_align m e e')) = Z.pos m * 2 ^ (e - e') /\
  snd (shl_align m e e') = e'.
Proof.
  intros He. unfold shl_align.
  destruct (e' - e) as [|d|d] eqn:Hd; try lia.
  - simpl. replace (e - e') with 0 by lia. lia.
  - simpl fst. simpl snd. rewrite pos_iter_xO.
    replace (e - e') with (Z.pos d) by lia. auto.
Qed.

Lemma shl_align_id (m : positive) (e e' : Z) :
  e <= e' -> shl_align m e e' = (m, e).
Proof.
  intros He. unfold shl_align. destruct (e' - e) eqn:Hd; try lia; reflexivity.
Qed.

Lemma log2_scaled (m k : Z) : 0 < m -> 0 <= k -> Z.log2 (m * 2 ^ k) = Z.log2 m + k.
Proof. intros. rewrite Z.log2_mul_pow2 by lia. lia. Qed.

(** [binary_round] of a positive mantissa at an exponent on the grid is
    [RNE] of its grid value, packed. *)
Lemma binary_round_spec (sx : bool) (M : positive) (e : Z) :
  emin <= e ->
  let N := Z.pos M * 2 ^ (e - emin) in
  let m1 := rne_shift N (lost_bits N) in
  binary_round prec emax sx M e = pack sx m1 (lost_bits N + emin) /\
  0 <= m1 <= 2 ^ 53 /\ (2 ^ 52 <= m1 \/ lost_bits N = 0) /\ 0 <= lost_bits N.
Proof.
  intros He N m1. unfold binary_round. rewrite fexp_eq.
  set (E := fexp (Z.pos (digits2_pos M) + e)).
  assert (HEmin : emin <= E) by (unfold E, fexp; lia).
  assert (Hal : exists mz ez,
             shl_align M e E = (mz, ez) /\ emin <= ez <= E /\
             Z.pos mz * 2 ^ (ez - emin) = N /\
             fexp (Zdigits2 (Z.pos mz) + ez) = E).
  { destruct (Z.le_gt_cases e E) as [Hle|Hgt].
    - exists M, e. rewrite shl_align_id by lia. repeat split; auto; lia.
    - destruct (shl_align_spec M e E ltac:(lia)) as [Hm Hx].
      exists (fst (shl_align M e E)), E.
      split; [|repeat split; try lia].
      { transitivity (fst (shl_align M e E), snd (shl_align M e E));
          [apply surjective_pairing | now rewrite Hx]. }
      + rewrite Hm. unfold N. rewrite <- Z.mul_assoc, <- Z.pow_add_r by lia.
        f_equal. f_equal. lia.
      + rewrite Zdigits2_log2, Hm, log2_scaled by lia.
        replace (Z.log2 (Z.pos M) + (e - E) + 1 + E)
          with (Z.pos (digits2_pos M) + e) by (rewrite digits2_pos_log2; lia).
        reflexivity. }
  destruct Hal as (mz & ez & -> & Hez & HN & HE).
  destruct (binary_round_aux_pack sx (Z.pos mz) ez loc_Exact ltac:(lia) ltac:(lia))
    as (Hbra & _ & Hb1 & Hb2 & _).
  rewrite HE in Hbra, Hb1, Hb2.
  rewrite shr_rne in Hbra, Hb1, Hb2 by lia.
  assert (Hlost : lost_bits N = E - emin).
  { unfold lost_bits. rewrite <- HN, log2_scaled by lia.
    rewrite <- HE, Zdigits2_log2 by lia. unfold fexp. lia. }
  assert (Hm1 : m1 = rne_shift (Z.pos mz) (E - ez)).
  { unfold m1. rewrite Hlost, <- HN.
    replace (E - emin) with (E - ez + (ez - emin)) by lia.
    apply rne_shift_scale; lia. }
  rewrite Hbra, Hm1, Hlost.
  replace (ez + (E - ez)) with E in * by lia.
  replace (E - emin + emin) with E by lia.
  repeat split; try lia.
Qed.

Lemma RNE_0 : RNE 0 = 0.
Proof. reflexivity. Qed.

(** Value, validity and sign of [binary_normalize] on a non-negative
    integer at a grid exponent. *)
Lemma binary_normalize_spec (M e : Z) :
  0 <= M -> emin <= e ->
  let x := binary_normalize prec emax M e false in
  valid x /\ nonneg x /\ Zval x = Z.min (RNE (M * 2 ^ (e - emin))) top.
Proof.
  intros HM He. destruct M as [|p|p]; try lia.
  - simpl. unfold top. repeat split; lia.
  - unfold binary_normalize.
    destruct (binary_round_spec false p e He) as (Hbr & Hb1 & Hb2 & Hb3).
    cbv zeta. rewrite Hbr.
    set (N := Z.pos p * 2 ^ (e - emin)) in *.
    split; [|split].
    + apply pack_valid; lia.
    + apply pack_nonneg.
    + rewrite pack_Zval by lia. unfold RNE.
      replace (lost_bits N + emin - emin) with (lost_bits N) by lia. reflexivity.
Qed.


Lemma rne_shift_0 (m : Z) : rne_shift m 0 = m.
Proof.
  unfold rne_shift. rewrite Z.pow_0_r, Z.mod_1_r, Z.div_1_r. reflexivity.
Qed.

(** Values that fit in 53 bits above the grid are not changed. *)
Lemma RNE_exact (m k : Z) :
  0 <= m < 2 ^ 53 -> 0 <= k -> RNE (m * 2 ^ k) = m * 2 ^ k.
Proof.
  intros Hm Hk. destruct (Z.eq_dec m 0) as [->|Hnz]; [reflexivity|].
  unfold RNE. set (sh := lost_bits (m * 2 ^ k)).
  assert (Hsh : 0 <= sh <= k).
  { unfold sh, lost_bits. rewrite log2_scaled by lia.
    assert (Z.log2 m < 53) by (apply Z.log2_lt_pow2; lia). lia. }
  assert (Hsplit : m * 2 ^ k = m * 2 ^ (k - sh) * 2 ^ sh).
  { rewrite <- Z.mul_assoc, <- Z.pow_add_r by lia. do 2 f_equal. lia. }
  assert (Hr : rne_shift (m * 2 ^ (k - sh) * 2 ^ sh) (0 + sh) = m * 2 ^ (k - sh))
    by (rewrite rne_shift_scale, rne_shift_0; lia).
  change (0 + sh) with sh in Hr.
  rewrite Hsplit at 1. rewrite Hr. symmetry. exact Hsplit.
Qed.

Lemma RNE_nonneg (N : Z) : 0 <= N -> 0 <= RNE N.
Proof.
  intros HN. unfold RNE.
  assert (0 <= lost_bits N) by (unfold lost_bits; lia).
  pose proof (rne_shift_range N (lost_bits N)).
  pose proof (pow2_pos (lost_bits N) ltac:(lia)).
  assert (0 <= N / 2 ^ lost_bits N) by (apply Z.div_pos; lia).
  nia.
Qed.

Lemma RNE_below (N : Z) : 0 < N -> 2 ^ Z.log2 N <= RNE N <= 2 ^ (Z.log2 N + 1).
Proof.
  intros HN. unfold RNE.
  set (s := lost_bits N). set (L := Z.log2 N).
  pose proof (Z.log2_nonneg N). fold L in H.
  assert (Hs : 0 <= s <= L) by (unfold s, lost_bits; fold L; lia).
  destruct (Z.log2_spec N HN) as [HL1 HL2]. fold L in HL1, HL2.
  pose proof (pow2_pos s ltac:(lia)) as HP.
  pose proof (rne_shift_range N s) as Hr.
  assert (HLs : 2 ^ L = 2 ^ (L - s) * 2 ^ s).
  { rewrite <- Z.pow_add_r by lia. f_equal. lia. }
  assert (HLs' : 2 ^ (L + 1) = 2 ^ (L + 1 - s) * 2 ^ s).
  { rewrite <- Z.pow_add_r by lia. f_equal. lia. }
  assert (Hq1 : 2 ^ (L - s) <= N / 2 ^ s).
  { apply Z.div_le_lower_bound; lia. }
  assert (Hq2 : N / 2 ^ s < 2 ^ (L + 1 - s)).
  { apply Z.div_lt_upper_bound; [lia|].
    replace (Z.succ L) with (L + 1) in HL2 by lia. lia. }
  rewrite HLs, HLs'. split; apply Z.mul_le_mono_nonneg_r; lia.
Qed.

Lemma rne_shift_mono (N1 N2 s : Z) :
  0 <= s -> N1 <= N2 -> rne_shift N1 s <= rne_shift N2 s.
Proof.
  intros Hs HN. unfold rne_shift.
  pose proof (pow2_pos s Hs) as HP.
  pose proof (Z.div_mod N1 (2 ^ s) ltac:(lia)) as E1.
  pose proof (Z.div_mod N2 (2 ^ s) ltac:(lia)) as E2.
  pose proof (Z.mod_pos_bound N1 (2 ^ s) HP) as B1.
  pose proof (Z.mod_pos_bound N2 (2 ^ s) HP) as B2.
  set (q1 := N1 / 2 ^ s) in *. set (q2 := N2 / 2 ^ s) in *.
  set (r1 := N1 mod 2 ^ s) in *. set (r2 := N2 mod 2 ^ s) in *.
  set (P := 2 ^ s) in *.
  assert (Hq : q1 <= q2) by nia.
  destruct (Z.eq_dec q1 q2) as [Heq|Hne].
  - assert (r1 <= r2) by nia. rewrite <- Heq.
    destruct (Z.ltb_spec (2 * r1) P), (Z.ltb_spec (2 * r2) P);
      destruct (Z.eqb_spec (2 * r1) P), (Z.eqb_spec (2 * r2) P);
      destruct (Z.even q1); simpl; lia.
  - destruct (_ || _), (_ || _); lia.
Qed.

(** Rounding is monotone. *)
Lemma RNE_mono (N1 N2 : Z) : 0 <= N1 <= N2 -> RNE N1 <= RNE N2.
Proof.
  intros [H1 H12].
  destruct (Z.eq_dec N1 0) as [->|Hnz].
  { rewrite RNE_0. apply RNE_nonneg. lia. }
  assert (HL : Z.log2 N1 <= Z.log2 N2) by (apply Z.log2_le_mono; lia).
  destruct (Z.eq_dec (lost_bits N1) (lost_bits N2)) as [Heq|Hne].
  - unfold RNE. rewrite Heq.
    assert (0 <= lost_bits N2) by (unfold lost_bits; lia).
    apply Z.mul_le_mono_nonneg_r; [apply Z.pow_nonneg; lia|].
    apply rne_shift_mono; lia.
  - assert (Z.log2 N1 + 1 <= Z.log2 N2) by (unfold lost_bits in *; lia).
    pose proof (Z.log2_nonneg N1).
    destruct (RNE_below N1 ltac:(lia)) as [_ Hup].
    destruct (RNE_below N2 ltac:(lia)) as [Hlo _].
    pose proof (pow2_le (Z.log2 N1 + 1) (Z.log2 N2) ltac:(lia)). lia.
Qed.


(** ** Order and equality of valid non-negative doubles *)

Lemma top_pos : 0 < top.
Proof. unfold top. apply pow2_pos. lia. Qed.

Lemma scaled_lt (m1 e1 m2 e2 : Z) :
  emin <= e1 < e2 -> 0 <= m1 < 2 ^ 53 -> 2 ^ 52 <= m2 ->
  m1 * 2 ^ (e1 - emin) < m2 * 2 ^ (e2 - emin).
Proof.
  intros He Hm1 Hm2.
  pose proof (pow2_pos (e1 - emin) ltac:(lia)) as HP.
  assert (Hs : 2 ^ (e2 - emin) = 2 ^ (e2 - e1) * 2 ^ (e1 - emin)).
  { rewrite <- Z.pow_add_r by lia. f_equal. lia. }
  pose proof (pow2_le 1 (e2 - e1) ltac:(lia)) as H2.
  rewrite Z.pow_1_r in H2. rewrite Hs.
  change (2 ^ 53) with (2 * 2 ^ 52) in Hm1. nia.
Qed.

Lemma finite_valid (s : bool) (m : positive) (e : Z) :
  valid (S754_finite s m e) ->
  emin <= e <= 971 /\ Z.pos m < 2 ^ 53 /\ (2 ^ 52 <= Z.pos m \/ e = emin).
Proof. intros H. apply bounded_iff. exact H. Qed.

Lemma Zval_finite_range (m : positive) (e : Z) :
  valid (S754_finite false m e) -> 0 < Zval (S754_finite false m e) < top.
Proof.
  intros H. apply finite_valid in H. simpl Zval. split.
  - pose proof (pow2_pos (e - emin) ltac:(lia)). nia.
  - apply scaled_lt_top; lia.
Qed.

Lemma compare_spec (x y : spec_float) :
  valid x -> valid y -> nonneg x -> nonneg y ->
  SFcompare x y = Some (Zval x ?= Zval y).
Proof.
  intros Vx Vy Nx Ny. pose proof top_pos as HT.
  destruct x as [sx|[|]| |[|] mx ex]; try contradiction;
    destruct y as [sy|[|]| |[|] my ey]; try contradiction;
    try pose proof (Zval_finite_range _ _ Vx); try pose proof (Zval_finite_range _ _ Vy);
    cbn [SFcompare]; f_equal; symmetry;
    try (apply Z.compare_eq_iff; reflexivity);
    try (apply Z.compare_lt_iff; cbn [Zval cond_Zopp] in *; lia);
    try (apply Z.compare_gt_iff; cbn [Zval cond_Zopp] in *; lia).
  apply finite_valid in Vx, Vy. cbn [Zval cond_Zopp].
  destruct (Z.compare_spec ex ey) as [->|Hlt|Hgt].
  - rewrite <- Zmult_compare_compat_r
      by (apply Z.lt_gt, pow2_pos; lia).
    rewrite Pos.compare_cont_spec. cbn [Z.compare].
    destruct (mx ?= my)%positive; reflexivity.
  - apply Z.compare_lt_iff. apply scaled_lt; lia.
  - apply Z.compare_gt_iff. apply scaled_lt; lia.
Qed.

Lemma leb_spec (x y : spec_float) :
  valid x -> valid y -> nonneg x -> nonneg y ->
  SFleb x y = true <-> Zval x <= Zval y.
Proof.
  intros. unfold SFleb. rewrite compare_spec by assumption.
  destruct (Z.compare_spec (Zval x) (Zval y)); split; intros; try lia; congruence.
Qed.

Lemma eqb_spec (x y : spec_float) :
  valid x -> valid y -> nonneg x -> nonneg y ->
  SFeqb x y = true <-> Zval x = Zval y.
Proof.
  intros. unfold SFeqb. rewrite compare_spec by assumption.
  destruct (Z.compare_spec (Zval x) (Zval y)); split; intros; try lia; congruence.
Qed.

Lemma fin_nonneg_nonneg (x : spec_float) : fin_nonneg x -> nonneg x.
Proof. destruct x as [|[|]| |[|]]; simpl; tauto. Qed.

Lemma nonneg_below_top (x : spec_float) :
  nonneg x -> Zval x < top -> fin_nonneg x.
Proof. destruct x as [|[|]| |[|]]; simpl; try tauto. lia. Qed.

Lemma Zval_fin_range (x : spec_float) :
  valid x -> fin_nonneg x -> 0 <= Zval x < top.
Proof.
  intros V F. destruct x as [|[|]| |[|] m e]; try contradiction.
  - pose proof top_pos. cbn [Zval]. lia.
  - pose proof (Zval_finite_range m e V). lia.
Qed.

(** A valid finite non-negative double is a fixed point of rounding. *)
Lemma RNE_Zval (x : spec_float) :
  valid x -> fin_nonneg x -> RNE (Zval x) = Zval x.
Proof.
  intros V F. destruct x as [|[|]| |[|] m e]; try contradiction; try reflexivity.
  apply finite_valid in V. simpl Zval. apply RNE_exact; lia.
Qed.


(** ** The operations on valid non-negative doubles *)

Lemma aligned_val (m : positive) (e ez : Z) :
  emin <= ez <= e ->
  Z.pos (fst (shl_align m e ez)) * 2 ^ (ez - emin) = Z.pos m * 2 ^ (e - emin).
Proof.
  intros H. destruct (shl_align_spec m e ez ltac:(lia)) as [-> _].
  rewrite <- Z.mul_assoc, <- Z.pow_add_r by lia. do 2 f_equal. lia.
Qed.

Lemma Zmin_RNE_fin (x : spec_float) :
  valid x -> fin_nonneg x -> Z.min (RNE (Zval x)) top = Zval x.
Proof.
  intros V F. rewrite RNE_Zval by assumption.
  pose proof (Zval_fin_range x V F). lia.
Qed.

Lemma add_spec (x y : number) :
  valid x -> valid y -> fin_nonneg x -> fin_nonneg y ->
  valid (add x y) /\ nonneg (add x y) /\
  Zval (add x y) = Z.min (RNE (Zval x + Zval y)) top.
Proof.
  intros Vx Vy Fx Fy.
  destruct x as [sx|[|]| |[|] mx ex]; try contradiction;
    destruct y as [sy|[|]| |[|] my ey]; try contradiction.
  - assert (Hz : Z.min (RNE (0 + 0)) top = 0)
      by (change (0 + 0) with 0; rewrite RNE_0; pose proof top_pos; lia).
    cbn [Zval]. rewrite Hz. destruct sx, sy; simpl; auto.
  - change (add (S754_zero sx) (S754_finite false my ey)) with (S754_finite false my ey).
    change (Zval (S754_zero sx)) with 0. rewrite Z.add_0_l.
    rewrite Zmin_RNE_fin by assumption. auto.
  - change (add (S754_finite false mx ex) (S754_zero sy)) with (S754_finite false mx ex).
    change (Zval (S754_zero sy)) with 0. rewrite Z.add_0_r.
    rewrite Zmin_RNE_fin by assumption. auto.
  - pose proof (finite_valid _ _ _ Vx) as Hx. pose proof (finite_valid _ _ _ Vy) as Hy.
    unfold add, SFadd. cbn [cond_Zopp Zval].
    set (ez := Z.min ex ey).
    rewrite <- (aligned_val mx ex ez), <- (aligned_val my ey ez) by lia.
    rewrite <- Z.mul_add_distr_r.
    apply binary_normalize_spec; lia.
Qed.

Lemma sub_spec (x y : number) :
  valid x -> valid y -> fin_nonneg x -> fin_nonneg y -> Zval y <= Zval x ->
  valid (sub x y) /\ nonneg (sub x y) /\
  Zval (sub x y) = Z.min (RNE (Zval x - Zval y)) top.
Proof.
  intros Vx Vy Fx Fy Hle.
  destruct x as [sx|[|]| |[|] mx ex]; try contradiction;
    destruct y as [sy|[|]| |[|] my ey]; try contradiction.
  - assert (Hz : Z.min (RNE (0 - 0)) top = 0)
      by (change (0 - 0) with 0; rewrite RNE_0; pose proof top_pos; lia).
    cbn [Zval]. rewrite Hz. destruct sx, sy; simpl; auto.
  - pose proof (Zval_finite_range _ _ Vy). cbn [Zval] in *. lia.
  - change (sub (S754_finite false mx ex) (S754_zero sy)) with (S754_finite false mx ex).
    change (Zval (S754_zero sy)) with 0. rewrite Z.sub_0_r.
    rewrite Zmin_RNE_fin by assumption. auto.
  - pose proof (finite_valid _ _ _ Vx) as Hx. pose proof (finite_valid _ _ _ Vy) as Hy.
    unfold sub, SFsub. cbn [cond_Zopp Zval] in *.
    set (ez := Z.min ex ey) in *.
    rewrite <- (aligned_val mx ex ez), <- (aligned_val my ey ez) in * by lia.
    rewrite <- Z.mul_sub_distr_r.
    pose proof (pow2_pos (ez - emin) ltac:(lia)).
    apply binary_normalize_spec; [nia|lia].
Qed.

(** The remainder is exact: no rounding takes place. *)
Lemma rem_spec (x y : number) (my : positive) (ey : Z) :
  valid x -> fin_nonneg x -> y = S754_finite false my ey -> valid y ->
  valid (rem x y) /\ fin_nonneg (rem x y) /\
  Zval (rem x y) = Zval x mod Zval y.
Proof.
  intros Vx Fx -> Vy.
  destruct x as [sx|[|]| |[|] mx ex]; try contradiction.
  - cbn [rem Zval]. rewrite Zmod_0_l. auto.
  - pose proof (finite_valid _ _ _ Vx) as Hx. pose proof (finite_valid _ _ _ Vy) as Hy.
    unfold rem. cbn [cond_Zopp Zval].
    set (ez := Z.min ex ey).
    set (N := Z.pos (fst (shl_align mx ex ez))).
    set (D := Z.pos (fst (shl_align my ey ez))).
    pose proof (aligned_val mx ex ez ltac:(lia)) as HN. fold N in HN.
    pose proof (aligned_val my ey ez ltac:(lia)) as HD. fold D in HD.
    assert (HN0 : 0 < N) by (unfold N; lia).
    assert (HD0 : 0 < D) by (unfold D; lia).
    rewrite Z.rem_mod_nonneg by lia.
    pose proof (Z.mod_pos_bound N D HD0) as [Hr0 Hr1].
    assert (Hr2 : N mod D <= N) by (apply Z.mod_le; lia).
    assert (Hsmall : N mod D < 2 ^ 53).
    { destruct (Z.min_spec ex ey) as [[_ He]|[_ He]]; fold ez in He.
      - assert (N = Z.pos mx).
        { unfold N. rewrite He, shl_align_id by lia. reflexivity. }
        lia.
      - assert (D = Z.pos my).
        { unfold D. rewrite He, shl_align_id by lia. reflexivity. }
        lia. }
    destruct (binary_normalize_spec (N mod D) ez ltac:(lia) ltac:(lia)) as (V & Nn & Hv).
    rewrite RNE_exact in Hv by lia.
    pose proof (scaled_lt_top (N mod D) ez ltac:(lia) ltac:(lia)) as Hlt.
    rewrite Z.min_l in Hv by lia.
    split; [exact V|]. split.
    + apply nonneg_below_top; [exact Nn|]. rewrite Hv. exact Hlt.
    + rewrite Hv, <- HN, <- HD.
      rewrite Z.mul_mod_distr_r; [reflexivity|lia|].
      pose proof (pow2_pos (ez - emin) ltac:(lia)). lia.
Qed.


Lemma Zdigits2_div (a b : Z) :
  0 < a -> 0 < b -> Zdigits2 a - Zdigits2 b <= Zdigits2 (a / b).
Proof.
  intros Ha Hb.
  destruct (Zdigits2_bounds a ltac:(lia)) as (Ha0 & Ha1 & Ha2).
  destruct (Zdigits2_bounds b ltac:(lia)) as (Hb0 & Hb1 & Hb2).
  assert (Hq : 0 <= a / b) by (apply Z.div_pos; lia).
  destruct (Zdigits2_bounds (a / b) Hq) as (Hq0 & Hq1 & Hq2).
  set (da := Zdigits2 a) in *. set (db := Zdigits2 b) in *.
  destruct (Z.le_gt_cases da db) as [Hle|Hgt]; [lia|].
  assert (Hlow : 2 ^ (da - 1 - db) <= a / b).
  { apply Z.div_le_lower_bound; [lia|].
    specialize (Ha2 Ha).
    assert (Hs : 2 ^ (da - 1) = 2 ^ (da - 1 - db) * 2 ^ db).
    { rewrite <- Z.pow_add_r by lia. f_equal. lia. }
    pose proof (pow2_pos (da - 1 - db) ltac:(lia)). nia. }
  destruct (Z.le_gt_cases (da - db) (Zdigits2 (a / b))) as [|Hc]; [assumption|].
  pose proof (pow2_le (Zdigits2 (a / b)) (da - 1 - db) ltac:(lia)). lia.
Qed.

(** The quotient handed to the rounding step has enough digits. *)
Lemma div_core_spec (m1 m2 : positive) (e1 e2 : Z) :
  let '(q, e', _) := SFdiv_core_binary prec emax (Z.pos m1) e1 (Z.pos m2) e2 in
  0 <= q /\ e' <= fexp (Zdigits2 q + e').
Proof.
  unfold SFdiv_core_binary. rewrite fexp_eq.
  set (d1 := Zdigits2 (Z.pos m1)). set (d2 := Zdigits2 (Z.pos m2)).
  set (e' := Z.min (fexp (d1 + e1 - (d2 + e2))) (e1 - e2)).
  set (s := e1 - e2 - e').
  assert (Hs : 0 <= s) by (unfold s, e'; lia).
  set (m' := match s with
             | 0 => Z.pos m1
             | Z.pos _ => Z.shiftl (Z.pos m1) s
             | Z.neg _ => 0
             end).
  assert (Hm' : m' = Z.pos m1 * 2 ^ s).
  { unfold m'. destruct s as [|p|p] eqn:Es; try lia.
    now rewrite Z.shiftl_mul_pow2 by lia. }
  destruct (Z.div_eucl m' (Z.pos m2)) as [q r] eqn:Hqr.
  assert (Hq : q = m' / Z.pos m2) by (unfold Z.div; now rewrite Hqr).
  pose proof (pow2_pos s Hs) as HP.
  assert (Hm0 : 0 < m') by nia.
  split; [subst q; apply Z.div_pos; lia|].
  pose proof (Zdigits2_div m' (Z.pos m2) Hm0 ltac:(lia)) as Hd.
  rewrite <- Hq in Hd. fold d2 in Hd.
  assert (Hdm : Zdigits2 m' = d1 + s).
  { rewrite Hm', Zdigits2_log2, log2_scaled by lia.
    unfold d1. rewrite Zdigits2_log2 by lia. lia. }
  rewrite Hdm in Hd.
  unfold e', fexp in *. lia.
Qed.

Lemma div_spec (x y : number) (my : positive) (ey : Z) :
  valid x -> fin_nonneg x -> y = S754_finite false my ey ->
  valid (div x y) /\ nonneg (div x y).
Proof.
  intros Vx Fx ->.
  destruct x as [sx|[|]| |[|] mx ex]; try contradiction.
  - simpl. split; [reflexivity|exact I].
  - unfold div, SFdiv. pose proof (div_core_spec mx my ex ey) as Hc.
    destruct (SFdiv_core_binary prec emax (Z.pos mx) ex (Z.pos my) ey)
      as [[q e'] l].
    destruct Hc as [Hq He].
    destruct (binary_round_aux_pack (xorb false false) q e' l Hq He)
      as (-> & _ & Hb1 & Hb2 & Hb3).
    split; [apply pack_valid; assumption | apply pack_nonneg].
Qed.

(** [Math.round] of a finite non-negative double is a non-negative
    integer. *)
Lemma round_spec (x : number) :
  valid x -> fin_nonneg x ->
  valid (round x) /\ fin_nonneg (round x) /\
  exists k, 0 <= k /\ Zval (round x) = k * 2 ^ 1074.
Proof.
  intros Vx Fx.
  destruct x as [sx|[|]| |[|] m e]; try contradiction.
  - simpl round. repeat split; auto. exists 0. simpl. lia.
  - pose proof (finite_valid _ _ _ Vx) as Hx. unfold round.
    destruct (Z.leb_spec 0 e) as [He|He].
    + repeat split; auto. exists (Z.pos m * 2 ^ e).
      split; [pose proof (pow2_pos e He); nia|].
      cbn [Zval cond_Zopp]. unfold emin.
      replace (e - -1074) with (e + 1074) by lia.
      rewrite Z.pow_add_r by lia. lia.
    + cbn [cond_Zopp].
      set (k := (2 * Z.pos m + 2 ^ (- e)) / 2 ^ (1 - e)).
      pose proof (pow2_pos (- e) ltac:(lia)) as HP.
      assert (H2 : 2 ^ (1 - e) = 2 * 2 ^ (- e)).
      { replace (1 - e) with (1 + - e) by lia.
        rewrite Z.pow_add_r by lia. reflexivity. }
      assert (Hk0 : 0 <= k) by (apply Z.div_pos; lia).
      assert (Hk1 : k < 2 ^ 53).
      { apply Z.div_lt_upper_bound; [lia|]. rewrite H2.
        pose proof (pow2_le 1 (- e) ltac:(lia)) as H1.
        rewrite Z.pow_1_r in H1. nia. }
      destruct (binary_normalize_spec k 0 Hk0 ltac:(unfold emin; lia))
        as (V & Nn & Hv).
      rewrite RNE_exact in Hv by (unfold emin; lia).
      pose proof (scaled_lt_top k 0 ltac:(lia) ltac:(unfold emin; lia)) as Hlt.
      rewrite Z.min_l in Hv by lia.
      split; [exact V|]. split.
      * apply nonneg_below_top; [exact Nn|]. rewrite Hv. exact Hlt.
      * exists k. split; [exact Hk0|]. exact Hv.
Qed.

Lemma of_Z_spec (j : Z) :
  0 <= j < 2 ^ 53 ->
  valid (of_Z j) /\ nonneg (of_Z j) /\ Zval (of_Z j) = j * 2 ^ 1074.
Proof.
  intros Hj. unfold of_Z.
  destruct (binary_normalize_spec j 0 ltac:(lia) ltac:(unfold emin; lia))
    as (V & Nn & Hv).
  rewrite RNE_exact in Hv by (unfold emin; lia).
  pose proof (scaled_lt_top j 0 ltac:(lia) ltac:(unfold emin; lia)) as Hlt.
  rewrite Z.min_l in Hv by lia. auto.
Qed.

Lemma rem_16_grid_step (x : number) (k : Z) :
  valid x -> fin_nonneg x -> 0 <= k -> Zval x = k * 2 ^ 1074 ->
  is_grid_step (rem x (of_Z 16)).
Proof.
  intros Vx Fx Hk Hv.
  assert (H16 : of_Z 16 = S754_finite false (2 ^ 52) (-48)) by reflexivity.
  assert (V16 : valid (of_Z 16)) by reflexivity.
  destruct (rem_spec x (of_Z 16) _ _ Vx Fx H16 V16) as (Vr & Fr & Hr).
  destruct (of_Z_spec 16 ltac:(lia)) as (_ & _ & Hz16).
  rewrite Hv, Hz16 in Hr.
  pose proof (pow2_pos 1074 ltac:(lia)) as HP.
  rewrite Z.mul_mod_distr_r in Hr by lia.
  pose proof (Z.mod_pos_bound k 16 ltac:(lia)) as Hj.
  exists (k mod 16). split; [lia|].
  destruct (of_Z_spec (k mod 16) ltac:(lia)) as (Vj & Nj & Hzj).
  apply eqb_spec; auto using fin_nonneg_nonneg. congruence.
Qed.


End Float64Facts.

(** * Part 4: the engine *)

(** The [number] of the engine is [Float64.number]: the tactic makes the
    two names one where a term mixes them. *)
Ltac plain_numbers := unfold number in *.

Import Float64 Float64Facts.

(** ** Quantisation *)

Section Quantiser.
Local Open Scope Z_scope.

Variables now subdivision : number.
Hypothesis now_valid : valid now.
Hypothesis now_fin : fin_nonneg now.
Hypothesis sub_valid : valid subdivision.
Hypothesis sub_pos : fin_pos subdivision.

Lemma subdivision_grid : 0 < Zval subdivision < top.
Proof.
  destruct subdivision as [|[|]| |[|] m e]; try contradiction.
  now apply Zval_finite_range.
Qed.

Lemma subdivision_fin : fin_nonneg subdivision.
Proof. destruct subdivision as [|[|]| |[|] m e]; try contradiction. exact I. Qed.

Lemma rem_now_spec :
  valid (rem now subdivision) /\ fin_nonneg (rem now subdivision) /\
  Zval (rem now subdivision) = Zval now mod Zval subdivision.
Proof.
  destruct subdivision as [|[|]| |[|] m e] eqn:E; try contradiction.
  now apply (rem_spec now _ m e).
Qed.

Lemma on_boundary_iff :
  eqb (rem now subdivision) zero = true <-> Zval now mod Zval subdivision = 0.
Proof.
  destruct rem_now_spec as (V & F & Hv).
  unfold eqb. rewrite eqb_spec; auto using fin_nonneg_nonneg.
  - rewrite Hv. reflexivity.
  - reflexivity.
  - exact I.
Qed.

Lemma add_now_sub_spec :
  valid (add now subdivision) /\ nonneg (add now subdivision) /\
  Zval (add now subdivision) = Z.min (RNE (Zval now + Zval subdivision)) top.
Proof. apply add_spec; auto using subdivision_fin. Qed.

(** The aligned time on the grid: where it lies, and what it is. *)
Lemma nextTickSeconds_spec :
  let a := nextTickSeconds now subdivision in
  valid a /\ nonneg a /\
  Zval now <= Zval a <= Zval (add now subdivision) /\
  (Zval now mod Zval subdivision = 0 -> a = now) /\
  (Zval now mod Zval subdivision <> 0 ->
   Zval a =
   Z.min (RNE (Zval now + RNE (Zval subdivision - Zval now mod Zval subdivision))) top).
Proof.
  pose proof subdivision_grid as Hs. pose proof subdivision_fin as Fs.
  destruct rem_now_spec as (Vr & Fr & Hr).
  destruct add_now_sub_spec as (Vns & Nns & Hns).
  pose proof (Zval_fin_range now now_valid now_fin) as Hn.
  pose proof (RNE_Zval now now_valid now_fin) as Rn.
  pose proof (RNE_Zval subdivision sub_valid Fs) as Rs.
  pose proof (Z.mod_pos_bound (Zval now) (Zval subdivision) ltac:(lia)) as Hm.
  assert (Hup : Zval now <= Z.min (RNE (Zval now + Zval subdivision)) top).
  { pose proof (RNE_mono (Zval now) (Zval now + Zval subdivision) ltac:(lia)). lia. }
  unfold nextTickSeconds.
  destruct (eqb (rem now subdivision) zero) eqn:Eb.
  - apply on_boundary_iff in Eb.
    repeat split; auto using fin_nonneg_nonneg; try lia.
  - assert (Hnz : Zval now mod Zval subdivision <> 0).
    { intros H0. apply on_boundary_iff in H0. congruence. }
    set (r := rem now subdivision) in *.
    destruct (sub_spec subdivision r sub_valid Vr Fs Fr ltac:(lia)) as (Vd & Nd & Hd).
    assert (Hd1 : RNE (Zval subdivision - Zval r) <= Zval subdivision).
    { rewrite <- Rs at 2. apply RNE_mono. lia. }
    rewrite Z.min_l in Hd by lia.
    assert (Fd : fin_nonneg (sub subdivision r))
      by (apply nonneg_below_top; [exact Nd | lia]).
    destruct (add_spec now (sub subdivision r) now_valid Vd now_fin Fd) as (Va & Na & Ha).
    pose proof (RNE_nonneg (Zval subdivision - Zval r) ltac:(lia)) as Hd0.
    rewrite <- Hd in Hd0, Hd1.
    pose proof (RNE_mono (Zval now) (Zval now + Zval (sub subdivision r)) ltac:(lia)).
    pose proof (RNE_mono (Zval now + Zval (sub subdivision r))
                  (Zval now + Zval subdivision) ltac:(lia)).
    repeat split; auto; try lia.
    intros _. rewrite Ha, Hd, Hr. reflexivity.
Qed.

(** The grid step is one of 0..15 as soon as the quotient is finite. *)
Lemma tickOf_spec (a : number) :
  valid a -> nonneg a -> fin_nonneg (div a subdivision) ->
  is_grid_step (tickOf a subdivision).
Proof.
  intros Va Na Fq. unfold tickOf.
  destruct subdivision as [|[|]| |[|] m e] eqn:E; try contradiction.
  assert (Fa : fin_nonneg a).
  { destruct a as [|[|]| |[|]]; try contradiction; exact I. }
  destruct (div_spec a _ m e Va Fa eq_refl) as (Vq & _).
  destruct (round_spec _ Vq Fq) as (Vr & Fr & k & Hk & Hv).
  exact (rem_16_grid_step _ k Vr Fr Hk Hv).
Qed.

Lemma quantise_zero :
  nextTickSeconds zero subdivision = zero /\ tickOf zero subdivision = zero.
Proof.
  destruct subdivision as [|[|]| |[|] m e]; try contradiction.
  split; reflexivity.
Qed.

End Quantiser.

(** ** Running methods *)

Lemma bind_return {A B} (m : M A) (k : A -> M B) (s s' : State) (a : A) :
  m s = (Return a, s') -> bind m k s = k a s'.
Proof. intros H. unfold bind. now rewrite H. Qed.

Lemma bind_throw {A B} (m : M A) (k : A -> M B) (s s' : State) (e : Error) :
  m s = (Throw e, s') -> bind m k s = (Throw e, s').
Proof. intros H. unfold bind. now rewrite H. Qed.

Lemma state_eta (s : State) : mkState (this s) (tone s) (clips s) (arrays s) = s.
Proof. now destruct s. Qed.

Lemma world_eta (w : Tone.World) :
  Tone.mkWorld (Tone.nodes w) (Tone.parts w) (Tone.transport w) (Tone.triggers w)
    (Tone.toSeconds w) (Tone.unlockable w) = w.
Proof. now destruct w. Qed.

Lemma ensureReady_ready (s : State) :
  AudioEngine.initialized (this s) = true -> ensureReady s = (Return tt, s).
Proof. intros H. unfold ensureReady, bind, get. now rewrite H. Qed.

Lemma ensureReady_not_ready (s : State) :
  AudioEngine.initialized (this s) = false -> ensureReady s = (Throw EngineNotReady, s).
Proof. intros H. unfold ensureReady, bind, get. now rewrite H. Qed.

Lemma guarded_not_ready {A} (k : unit -> M A) (s : State) :
  AudioEngine.initialized (this s) = false ->
  bind ensureReady k s = (Throw EngineNotReady, s).
Proof. intros H. apply bind_throw. now apply ensureReady_not_ready. Qed.

Lemma guarded_ready {A} (k : unit -> M A) (s : State) :
  AudioEngine.initialized (this s) = true -> bind ensureReady k s = k tt s.
Proof. intros H. apply bind_return. now apply ensureReady_ready. Qed.

(** Each guarded method, called on an engine whose flag is clear. *)
Lemma setBpm_not_ready (b : number) (s : State) :
  AudioEngine.initialized (this s) = false -> setBpm b s = (Throw EngineNotReady, s).
Proof. apply guarded_not_ready. Qed.

Lemma setFilterFrequency_not_ready (v : number) (s : State) :
  AudioEngine.initialized (this s) = false ->
  setFilterFrequency v s = (Throw EngineNotReady, s).
Proof. apply guarded_not_ready. Qed.

Lemma setReverbWet_not_ready (v : number) (s : State) :
  AudioEngine.initialized (this s) = false ->
  setReverbWet v s = (Throw EngineNotReady, s).
Proof. apply guarded_not_ready. Qed.

Lemma triggerPad_not_ready (p : PadId.t) (v : option number) (s : State) :
  AudioEngine.initialized (this s) = false ->
  triggerPad p v s = (Throw EngineNotReady, s).
Proof. apply guarded_not_ready. Qed.

Lemma createClip_not_ready (c : loc) (s : State) :
  AudioEngine.initialized (this s) = false ->
  createClip c s = (Throw EngineNotReady, s).
Proof. apply guarded_not_ready. Qed.

(** ** Disposal *)

Lemma dispose_each_spec (l : list (option NodeId)) (s : State) :
  dispose_each l s =
  (Return tt,
   mkState (this s) (Tone.with_nodes (released l) (tone s)) (clips s) (arrays s)).
Proof.
  revert s. induction l as [|o l IH]; intros s.
  - cbn. unfold ret, Tone.with_nodes, released. cbn.
    now rewrite world_eta, state_eta.
  - cbn [dispose_each]. unfold bind.
    destruct o as [n|]; cbn [dispose_opt].
    + unfold node_dispose, modify_tone, modify. rewrite IH. reflexivity.
    + unfold ret. rewrite IH. reflexivity.
Qed.

Lemma dispose_spec (s : State) :
  dispose s =
  (Return tt,
   mkState (clear_initialized (this s))
     (Tone.with_nodes (released (owned (this s))) (tone s)) (clips s) (arrays s)).
Proof.
  unfold dispose, bind, get. rewrite dispose_each_spec. reflexivity.
Qed.

Lemma released_lookup (l : list (option NodeId)) (m : gmap NodeId Tone.Node)
    (n : NodeId) (nd : Tone.Node) :
  m !! n = Some nd ->
  exists nd',
    released l m !! n = Some nd' /\
    Tone.disposals nd' = (Tone.disposals nd + occurrences n l)%nat /\
    Tone.kind nd' = Tone.kind nd /\ Tone.output nd' = Tone.output nd /\
    Tone.ramp nd' = Tone.ramp nd.
Proof.
  revert m nd. induction l as [|o l IH]; intros m nd Hm.
  - exists nd. cbn. rewrite Nat.add_0_r. auto.
  - unfold released. cbn [fold_left occurrences]. fold (released l).
    destruct o as [n'|]; [|now apply IH].
    destruct (Nat.eqb_spec n n') as [->|Hne].
    + destruct (IH (alter Tone.dispose_node n' m) (Tone.dispose_node nd)) as (nd' & H1 & H2 & H3).
      { rewrite lookup_alter_eq, Hm. reflexivity. }
      exists nd'. split; [exact H1|]. cbn in H2, H3. split; [lia|exact H3].
    + destruct (IH (alter Tone.dispose_node n' m) nd) as (nd' & H1 & H2 & H3).
      { rewrite lookup_alter_ne by congruence. exact Hm. }
      exists nd'. split; [exact H1|]. split; [lia|exact H3].
Qed.

Lemma occurrences_In (n : NodeId) (l : list (option NodeId)) :
  In (Some n) l -> (1 <= occurrences n l)%nat.
Proof.
  induction l as [|o l IH]; cbn; [tauto|].
  intros [->|H].
  - rewrite Nat.eqb_refl. lia.
  - specialize (IH H). destruct o; lia.
Qed.

Lemma dispose_this (s : State) :
  this (snd (dispose s)) = clear_initialized (this s).
Proof. now rewrite dispose_spec. Qed.

Lemma dispose_clears_flag (s : State) :
  AudioEngine.initialized (this (snd (dispose s))) = false.
Proof. now rewrite dispose_spec. Qed.

(** ** Clips *)

Lemma stopClip_spec (s : State) (a : loc) (c : ActiveClip.t) :
  clips s !! a = Some c ->
  stopClip a s =
  match ActiveClip.part c with
  | Some p =>
      (Return tt,
       mkState (this s)
         (Tone.with_parts (fun m => alter Tone.dispose_part p (alter Tone.stop_part p m))
            (tone s))
         (clips s) (arrays s))
  | None => (Return tt, s)
  end.
Proof.
  intros Ha. cbv [stopClip bind read_clip get]. rewrite Ha. cbv [ret].
  destruct (ActiveClip.part c); reflexivity.
Qed.

Lemma stopClip_frame (s : State) (a : loc) :
  this (snd (stopClip a s)) = this s /\
  clips (snd (stopClip a s)) = clips s /\
  arrays (snd (stopClip a s)) = arrays s /\
  Tone.nodes (tone (snd (stopClip a s))) = Tone.nodes (tone s) /\
  Tone.transport (tone (snd (stopClip a s))) = Tone.transport (tone s).
Proof.
  destruct (clips s !! a) as [c|] eqn:Ha.
  - rewrite (stopClip_spec s a c Ha). destruct (ActiveClip.part c); cbn; auto.
  - cbv [stopClip bind read_clip get]. rewrite Ha. cbn. auto.
Qed.

Lemma createClip_spec (s : State) (source : loc) (src : ActiveClip.t)
    (evts : list LoopEvent.t) :
  AudioEngine.initialized (this s) = true ->
  clips s !! source = Some src ->
  arrays s !! LoopClip.events (ActiveClip.clip src) = Some evts ->
  let p := fresh (dom (Tone.parts (tone s))) in
  let l := fresh (dom (clips s)) in
  let scheduled :=
    map (fun evt => (offsetOf (Tone.toSeconds (tone s) "1m") evt, evt)) evts in
  createClip source s =
  (Return l,
   mkState (this s)
     (Tone.with_parts
        (insert p (Tone.mkPart scheduled true (Some "1m")
                     (Some (decimal 1 100)) (Some zero) 0 0))
        (tone s))
     (<[l := ActiveClip.mk (ActiveClip.clip src) (Some p)]> (clips s))
     (arrays s)).
Proof.
  intros Hr Hs He p l scheduled. unfold createClip.
  rewrite guarded_ready by assumption.
  cbv [bind Time_toSeconds read_clip read_array get ret].
  rewrite Hs. cbv [ret]. rewrite He. reflexivity.
Qed.

(** Whatever happens in [createClip] (it may throw), the objects and the
    arrays that exist stay as they are. *)
Lemma createClip_frame (s : State) (source : loc) :
  (forall l c, clips s !! l = Some c -> clips (snd (createClip source s)) !! l = Some c) /\
  arrays (snd (createClip source s)) = arrays s.
Proof.
  destruct (AudioEngine.initialized (this s)) eqn:Hr;
    [|rewrite createClip_not_ready by assumption; auto].
  destruct (clips s !! source) as [src|] eqn:Hs.
  - destruct (arrays s !! LoopClip.events (ActiveClip.clip src)) as [evts|] eqn:He.
    + rewrite (createClip_spec s source src evts Hr Hs He). cbn [snd clips arrays].
      split; [|reflexivity]. intros l c Hl.
      assert (Hfresh : clips s !! fresh (dom (clips s)) = None)
        by (apply not_elem_of_dom, is_fresh).
      unfold loc in *. rewrite lookup_insert_ne; [exact Hl|].
      intros <-. congruence.
    + unfold createClip. rewrite guarded_ready by assumption.
      cbv [bind Time_toSeconds read_clip read_array get ret].
      rewrite Hs. cbv [ret]. rewrite He. cbn. auto.
  - unfold createClip. rewrite guarded_ready by assumption.
    cbv [bind Time_toSeconds read_clip read_array get ret].
    rewrite Hs. cbn. auto.
Qed.

(** ** [triggerPad] *)

Lemma triggerPad_spec (s : State) (padId : PadId.t) (velocity : option number) :
  AudioEngine.initialized (this s) = true ->
  let now := Tone.seconds (Tone.transport (tone s)) in
  let subdivision := Tone.toSeconds (tone s) "16n" in
  let next := nextTickSeconds now subdivision in
  exists s',
    triggerPad padId velocity s =
    (Return (QuantizedTrigger.mk (tickOf next subdivision) next), s') /\
    Tone.once (Tone.transport (tone s')) =
    Tone.once (Tone.transport (tone s)) ++
    [(next, Tone.mkCallback padId (default (of_Z 1) velocity))].
Proof.
  intros Hr now subdivision next. unfold triggerPad. cbv zeta.
  rewrite guarded_ready by assumption.
  eexists. split; reflexivity.
Qed.

(** C1 (amended).  On a ready engine, at a finite transport time [now >= 0]
    and a finite sixteenth-note length [subdivision > 0], [triggerPad]
    returns; the time it schedules is never before [now], never after the
    double sum [now + subdivision], and equal to [now] whenever [now] is an
    exact multiple of [subdivision].  Off a boundary it is the double
    nearest to [now + d], where [d] is the double nearest to the exact
    distance [subdivision - now mod subdivision] to the next boundary. *)
Theorem triggerPad_aligned_time (s : State) (padId : PadId.t) (velocity : option number) :
  let now := Tone.seconds (Tone.transport (tone s)) in
  let subdivision := Tone.toSeconds (tone s) "16n" in
  AudioEngine.initialized (this s) = true ->
  valid now -> fin_nonneg now -> valid subdivision -> fin_pos subdivision ->
  exists q s',
    triggerPad padId velocity s = (Return q, s') /\
    let a := QuantizedTrigger.scheduledAt q in
    leb now a = true /\
    leb a (add now subdivision) = true /\
    ((Zval now mod Zval subdivision = 0)%Z -> a = now) /\
    ((Zval now mod Zval subdivision <> 0)%Z ->
     Zval a =
     Z.min (RNE (Zval now + RNE (Zval subdivision - Zval now mod Zval subdivision)%Z)) top).
Proof.
  intros now subdivision Hr Vn Fn Vs Ps.
  destruct (triggerPad_spec s padId velocity Hr) as (s' & Ht & _).
  fold now subdivision in Ht.
  eexists _, s'. split; [exact Ht|]. cbn [QuantizedTrigger.scheduledAt].
  destruct (nextTickSeconds_spec now subdivision Vn Fn Vs Ps) as (Va & Na & Hb & Hon & Hoff).
  destruct (add_now_sub_spec now subdivision Vn Fn Vs Ps) as (Vns & Nns & _).
  split; [|split; [|split]].
  - apply leb_spec; auto using fin_nonneg_nonneg. lia.
  - apply leb_spec; auto. lia.
  - exact Hon.
  - exact Hoff.
Qed.

Lemma triggerPad_aligned_time_witness :
  exists q s',
    triggerPad PadId.kick None (ready_at (of_Z 100) (decimal 9 10)) = (Return q, s') /\
    leb (decimal 9 10) (QuantizedTrigger.scheduledAt q) = true /\
    leb (QuantizedTrigger.scheduledAt q) (add (decimal 9 10) (decimal 15 100)) = true.
Proof.
  destruct (triggerPad_aligned_time (ready_at (of_Z 100) (decimal 9 10)) PadId.kick None)
    as (q & s' & Ht & Hle & Hup & _).
  - vm_compute. reflexivity.
  - vm_compute. reflexivity.
  - vm_compute. exact I.
  - vm_compute. reflexivity.
  - vm_compute. exact I.
  - exists q, s'. split; [exact Ht|]. split; [exact Hle | exact Hup].
Defined.

(** C1 as stated fails on the code.  At 104 bpm and transport time
    0.721153846153846 the pad is scheduled at [now] although [now] is not a
    multiple of the subdivision.  At 100 bpm (subdivision 0.15) and
    transport time 0.9 the pad is scheduled at 1.05, and the doubles 1.05
    and 0.9 are at least the double 0.15 apart. *)
Lemma aligned_as_specified_fails :
  ~ aligned_as_specified just_below_5 (seconds_at DEFAULT_BPM "16n") /\
  ~ aligned_as_specified (decimal 9 10) (seconds_at (of_Z 100) "16n") /\
  (exists q s',
     triggerPad PadId.kick None (sample_ready just_below_5) = (Return q, s') /\
     QuantizedTrigger.scheduledAt q = just_below_5 /\
     (Zval just_below_5 mod Zval (seconds_at DEFAULT_BPM "16n") <> 0)%Z) /\
  (exists q s',
     triggerPad PadId.kick None (ready_at (of_Z 100) (decimal 9 10)) = (Return q, s') /\
     seconds_at (of_Z 100) "16n" = decimal 15 100 /\
     QuantizedTrigger.scheduledAt q = decimal 105 100 /\
     (Zval (decimal 15 100) <= Zval (decimal 105 100) - Zval (decimal 9 10))%Z).
Proof.
  split; [|split; [|split]].
  - intros (_ & _ & H). destruct H as [H _].
    assert (E : nextTickSeconds just_below_5 (seconds_at DEFAULT_BPM "16n") = just_below_5)
      by (vm_compute; reflexivity).
    specialize (H E). vm_compute in H. discriminate H.
  - intros (_ & H & _). vm_compute in H. discriminate H.
  - eexists _, _. split; [vm_compute; reflexivity|].
    split; [reflexivity|]. vm_compute. discriminate.
  - eexists _, _. split; [vm_compute; reflexivity|].
    repeat split; try (vm_compute; reflexivity).
    vm_compute. discriminate.
Qed.

(** C2.  On a ready engine, at a finite transport time [now >= 0] and a
    finite [subdivision > 0], the step [triggerPad] returns is one of
    0..15 whenever the quotient of the aligned time by the subdivision is
    finite, as it is at every time a Transport reports; and at transport
    time 0 the result is [{tick: 0, scheduledAt: 0}]. *)
Theorem triggerPad_tick (s : State) (padId : PadId.t) (velocity : option number) :
  let now := Tone.seconds (Tone.transport (tone s)) in
  let subdivision := Tone.toSeconds (tone s) "16n" in
  AudioEngine.initialized (this s) = true ->
  valid now -> fin_nonneg now -> valid subdivision -> fin_pos subdivision ->
  exists q s',
    triggerPad padId velocity s = (Return q, s') /\
    (fin_nonneg (div (QuantizedTrigger.scheduledAt q) subdivision) ->
     is_grid_step (QuantizedTrigger.tick q)) /\
    (now = zero -> q = QuantizedTrigger.mk zero zero).
Proof.
  intros now subdivision Hr Vn Fn Vs Ps.
  destruct (triggerPad_spec s padId velocity Hr) as (s' & Ht & _).
  fold now subdivision in Ht.
  eexists _, s'. split; [exact Ht|].
  cbn [QuantizedTrigger.scheduledAt QuantizedTrigger.tick].
  destruct (nextTickSeconds_spec now subdivision Vn Fn Vs Ps) as (Va & Na & _).
  split.
  - intros Fq. now apply tickOf_spec.
  - intros ->. destruct (quantise_zero subdivision Vs Ps) as [-> ->]. reflexivity.
Qed.

Lemma triggerPad_tick_witness :
  exists s',
    triggerPad PadId.kick (Some (of_Z 1)) (sample_ready zero) =
    (Return (QuantizedTrigger.mk zero zero), s').
Proof.
  destruct (triggerPad_tick (sample_ready zero) PadId.kick (Some (of_Z 1)))
    as (q & s' & Ht & _ & Hz).
  - vm_compute. reflexivity.
  - vm_compute. reflexivity.
  - vm_compute. exact I.
  - vm_compute. reflexivity.
  - vm_compute. exact I.
  - exists s'. rewrite <- (Hz eq_refl). exact Ht.
Defined.

(** The hypothesis on the quotient leaves out times like the largest
    finite double, which no Transport reports: there the quotient
    overflows to Infinity and the step is NaN. *)
Lemma tick_is_NaN_at_max_number :
  exists q s',
    triggerPad PadId.kick None (sample_ready max_number) = (Return q, s') /\
    QuantizedTrigger.tick q = S754_nan /\
    ~ is_grid_step (QuantizedTrigger.tick q).
Proof.
  eexists _, _. split; [vm_compute; reflexivity|].
  split; [reflexivity|].
  intros (j & _ & H). cbn in H. discriminate H.
Qed.

(** ** The readiness guard *)

(** C3.  While the engine is not ready, each of [setBpm],
    [setFilterFrequency], [setReverbWet], [triggerPad] and [createClip]
    throws the not-initialised error; and the engine is not ready when it
    is new and after every [dispose]. *)
Theorem not_ready_operations_throw (s : State) :
  AudioEngine.initialized (this s) = false ->
  (forall b, fst (setBpm b s) = Throw EngineNotReady) /\
  (forall v, fst (setFilterFrequency v s) = Throw EngineNotReady) /\
  (forall v, fst (setReverbWet v s) = Throw EngineNotReady) /\
  (forall p v, fst (triggerPad p v s) = Throw EngineNotReady) /\
  (forall c, fst (createClip c s) = Throw EngineNotReady) /\
  AudioEngine.initialized new_AudioEngine = false /\
  (forall s0, AudioEngine.initialized (this (snd (dispose s0))) = false).
Proof.
  intros H. repeat split; intros.
  - now rewrite setBpm_not_ready.
  - now rewrite setFilterFrequency_not_ready.
  - now rewrite setReverbWet_not_ready.
  - now rewrite triggerPad_not_ready.
  - now rewrite createClip_not_ready.
  - apply dispose_clears_flag.
Qed.

Lemma not_ready_operations_throw_witness :
  fst (triggerPad PadId.kick None (snd (dispose (sample_ready zero)))) =
  Throw EngineNotReady.
Proof.
  destruct (not_ready_operations_throw (snd (dispose (sample_ready zero))))
    as (_ & _ & _ & H & _).
  - vm_compute. reflexivity.
  - apply H.
Defined.

(** C10.  A guarded method that throws because the engine is not ready
    leaves the whole state as it was: the engine object, every Tone.js
    node and part, the Transport with its pending events, and the heap. *)
Theorem not_ready_failure_is_atomic (s : State) :
  AudioEngine.initialized (this s) = false ->
  (forall b, setBpm b s = (Throw EngineNotReady, s)) /\
  (forall v, setFilterFrequency v s = (Throw EngineNotReady, s)) /\
  (forall v, setReverbWet v s = (Throw EngineNotReady, s)) /\
  (forall p v, triggerPad p v s = (Throw EngineNotReady, s)) /\
  (forall c, createClip c s = (Throw EngineNotReady, s)).
Proof.
  intros H. repeat split; intros.
  - now apply setBpm_not_ready.
  - now apply setFilterFrequency_not_ready.
  - now apply setReverbWet_not_ready.
  - now apply triggerPad_not_ready.
  - now apply createClip_not_ready.
Qed.

Lemma not_ready_failure_is_atomic_witness :
  setBpm (of_Z 120) (sample_fresh zero) = (Throw EngineNotReady, sample_fresh zero).
Proof.
  destruct (not_ready_failure_is_atomic (sample_fresh zero)) as (H & _).
  - vm_compute. reflexivity.
  - apply H.
Defined.

(** ** The life cycle *)

Lemma bind_new_node {B} (kind : Tone.NodeKind) (k : NodeId -> M B) (s : State)
    (Q : Outcome B * State -> Prop) :
  (forall n, Tone.nodes (tone s) !! n = None ->
     Q (k n (mkState (this s)
               (Tone.with_nodes (insert n (Tone.mkNode kind None None 0)) (tone s))
               (clips s) (arrays s)))) ->
  Q (bind (new_node kind) k s).
Proof.
  intros H.
  exact (H (fresh (dom (Tone.nodes (tone s)))) ltac:(apply not_elem_of_dom, is_fresh)).
Qed.

Lemma bind_connect {B} (n : NodeId) (o : Tone.Output) (k : unit -> M B) (s : State) :
  bind (connect n o) k s =
  k tt (mkState (this s)
          (Tone.with_nodes (alter (Tone.connect_node o) n) (tone s))
          (clips s) (arrays s)).
Proof. reflexivity. Qed.

Lemma bind_set_field {B} (fld : AudioEngine.field) (n : NodeId) (k : unit -> M B)
    (s : State) :
  bind (set_field fld n) k s =
  k tt (mkState (AudioEngine.assign fld n (this s)) (tone s) (clips s) (arrays s)).
Proof. reflexivity. Qed.

Ltac tidy_state :=
  cbn [this tone clips arrays Tone.nodes Tone.parts Tone.transport Tone.triggers
       Tone.toSeconds Tone.unlockable Tone.with_nodes] in *.

Ltac fresh_facts :=
  repeat match goal with
  | H : <[_ := _]> _ !! _ = None |- _ =>
      apply lookup_insert_None in H; destruct H
  | H : alter _ _ _ !! _ = None |- _ => rewrite lookup_alter_None in H
  end.

Ltac find_node :=
  repeat first
    [ rewrite lookup_alter_eq
    | rewrite lookup_insert_eq
    | rewrite lookup_alter_ne by congruence
    | rewrite lookup_insert_ne by congruence ].

Lemma init_resume_run (s : State) :
  Tone.unlockable (tone s) = true ->
  exists s' k, init_resume s = (Return tt, s') /\ built s s' k.
Proof.
  intros Hu. unfold init_resume.
  unfold bind at 1. unfold Tone_start at 1. unfold bind at 1. cbv [get].
  rewrite Hu. cbv [ret].
  set (Q := fun r : Outcome unit * State =>
              exists s' k, r = (Return tt, s') /\ built s s' k).
  match goal with |- exists s' k, ?X = _ /\ _ => change (Q X) end.
  unfold NodeId in *.
  apply bind_new_node; intros f Hf; rewrite bind_set_field; tidy_state.
  apply bind_new_node; intros r Hr; rewrite bind_set_field; tidy_state.
  apply bind_new_node; intros d Hd; rewrite bind_set_field; tidy_state.
  apply bind_new_node; intros l Hl; rewrite bind_set_field; tidy_state.
  rewrite !bind_connect; tidy_state.
  apply bind_new_node; intros k Hk; rewrite bind_connect, bind_set_field; tidy_state.
  apply bind_new_node; intros sn Hsn; rewrite bind_connect, bind_set_field; tidy_state.
  apply bind_new_node; intros h Hh; rewrite bind_connect, bind_set_field; tidy_state.
  apply bind_new_node; intros b Hb; rewrite bind_connect, bind_set_field; tidy_state.
  apply bind_new_node; intros le Hle; rewrite bind_connect, bind_set_field; tidy_state.
  apply bind_new_node; intros x Hx; rewrite bind_connect, bind_set_field; tidy_state.
  fresh_facts.
  subst Q. cbv beta.
  eexists _, (mkRack f r d l k sn h b le x). split; [reflexivity|].
  unfold built, wired, rack_nodes, engine_of, looping_transport, patched.
  cbn [this tone clips arrays Tone.nodes Tone.parts Tone.transport Tone.triggers
       Tone.toSeconds Tone.unlockable Tone.with_nodes Tone.with_transport
       rack_nodes rack_filter rack_reverb rack_distortion rack_limiter rack_kick
       rack_snare rack_hat rack_bass rack_lead rack_fx].
  split; [reflexivity|].
  split.
  { repeat (apply NoDup_cons_2;
      [intros Hin; rewrite ?elem_of_cons, elem_of_nil in Hin; decompose [or] Hin;
       solve [congruence | contradiction]|]).
    apply NoDup_nil_2. }
  split.
  { cbn [In]. intros n Hn. intuition (subst; assumption). }
  split.
  { repeat split; find_node; cbn; rewrite ?Hf, ?Hr; reflexivity. }
  split.
  { cbn [In]. intros n Hn.
    assert (n <> f /\ n <> r /\ n <> d /\ n <> l /\ n <> k /\ n <> sn /\ n <> h /\
            n <> b /\ n <> le /\ n <> x) as (?&?&?&?&?&?&?&?&?&?)
      by (repeat split; intros ->; apply Hn; tauto).
    find_node. reflexivity. }
  repeat split.
Qed.

Lemma init_resume_refused (s : State) :
  Tone.unlockable (tone s) = false -> init_resume s = (Throw Rejected, s).
Proof. intros Hu. cbv [init_resume bind get Tone_start]. now rewrite Hu. Qed.

Lemma init_not_ready (s : State) :
  AudioEngine.initialized (this s) = false -> init s = init_resume s.
Proof. intros Hi. unfold init. unfold bind at 1. cbv [get]. now rewrite Hi. Qed.

Lemma init_run (s : State) :
  AudioEngine.initialized (this s) = false ->
  Tone.unlockable (tone s) = true ->
  exists s' k, init s = (Return tt, s') /\ built s s' k.
Proof.
  intros Hi Hu. rewrite init_not_ready by exact Hi. now apply init_resume_run.
Qed.

Lemma init_already_ready (s : State) :
  AudioEngine.initialized (this s) = true -> init s = (Return tt, s).
Proof. intros Hi. cbv [init bind get]. now rewrite Hi. Qed.


Lemma run_keeps_flag_clear (o : Op) (s : State) :
  o <> OInit ->
  AudioEngine.initialized (this s) = false ->
  AudioEngine.initialized (this (run o s)) = false.
Proof.
  intros Ho Hi. destruct o; cbn [run]; try congruence.
  - apply dispose_clears_flag.
  - now rewrite setBpm_not_ready.
  - now rewrite setFilterFrequency_not_ready.
  - now rewrite setReverbWet_not_ready.
  - now rewrite triggerPad_not_ready.
  - now rewrite createClip_not_ready.
  - destruct (stopClip_frame s activeClip) as [-> _]. exact Hi.
Qed.

(** A call of [init] followed at once by its resumption is [run OInit]. *)
Lemma call_then_resume (s : State) :
  turns [Call OInit; Resume] (s, 0%nat) = (run OInit s, 0%nat).
Proof.
  cbn [turns fold_left turn fst snd run].
  destruct (AudioEngine.initialized (this s)) eqn:Hi.
  - cbn [snd]. now rewrite init_already_ready.
  - cbn [fst snd]. now rewrite init_not_ready.
Qed.

Lemma turn_keeps_flag_clear (t : Turn) (c : State * nat) :
  t <> Resume ->
  AudioEngine.initialized (this (fst c)) = false ->
  AudioEngine.initialized (this (fst (turn t c))) = false.
Proof.
  intros Ht Hi. destruct t as [o|]; [|congruence].
  destruct o; cbn [turn fst];
    [now rewrite Hi | apply run_keeps_flag_clear; [discriminate | exact Hi] ..].
Qed.

Lemma turns_keep_flag_clear (ts : list Turn) (c : State * nat) :
  ~ In Resume ts ->
  AudioEngine.initialized (this (fst c)) = false ->
  AudioEngine.initialized (this (fst (turns ts c))) = false.
Proof.
  revert c. induction ts as [|t ts IH]; intros c Hn Hi; [exact Hi|].
  cbn [turns fold_left]. apply IH.
  - intros H. apply Hn. now right.
  - apply turn_keeps_flag_clear; [|exact Hi].
    intros ->. apply Hn. now left.
Qed.

(** C4 (amended).  [dispose] puts the engine back in the not-initialised
    state, and there it stays, whatever is called, as long as no
    continuation of [init] runs.  When one runs where the audio output
    can be unlocked, be it of a call made after [dispose] or of a call
    that was suspended at its [await] when [dispose] ran, it builds the
    audio graph again, from ten new nodes wired like the first ten, puts
    them in the fields and makes the same instance ready. *)
Theorem dispose_then_init_is_ready_again (s : State) :
  let d := snd (dispose s) in
  AudioEngine.initialized (this d) = false /\
  (forall ts n, ~ In Resume ts ->
     AudioEngine.initialized (this (fst (turns ts (d, n)))) = false) /\
  (Tone.unlockable (tone s) = true ->
   exists s' k,
     init d = (Return tt, s') /\
     (forall n, turn Resume (d, S n) = (s', n)) /\
     this s' = engine_of k true (AudioEngine.bpm (this s)) /\
     NoDup (rack_nodes k) /\
     (forall n, In n (rack_nodes k) -> Tone.nodes (tone d) !! n = None) /\
     wired (Tone.nodes (tone s')) k /\
     (forall n, ~ In n (rack_nodes k) ->
        Tone.nodes (tone s') !! n = Tone.nodes (tone d) !! n)).
Proof.
  intros d.
  assert (Hd : AudioEngine.initialized (this d) = false) by apply dispose_clears_flag.
  split; [exact Hd|]. split.
  - intros ts n Hn. now apply turns_keep_flag_clear.
  - intros Hu.
    assert (Hu' : Tone.unlockable (tone d) = true)
      by (subst d; rewrite dispose_spec; exact Hu).
    destruct (init_resume_run d Hu') as (s' & k & E & B).
    exists s', k. split; [now rewrite init_not_ready|].
    split; [intros n; cbn [turn fst snd]; now rewrite E|].
    destruct B as (B1 & B2 & B3 & B4 & B5 & _).
    split; [rewrite B1; subst d; now rewrite dispose_spec|].
    repeat (split; [assumption|]). assumption.
Qed.

Lemma dispose_then_init_is_ready_again_witness :
  exists s',
    turns [Call OInit; Call ODispose; Resume] (sample_fresh zero, 0%nat) = (s', 0%nat) /\
    AudioEngine.initialized (this s') = true.
Proof.
  destruct (dispose_then_init_is_ready_again (sample_fresh zero)) as (_ & _ & H).
  destruct H as (s' & k & _ & Hr & He & _); [vm_compute; reflexivity|].
  exists s'. split; [exact (Hr 0%nat)|]. rewrite He. reflexivity.
Defined.

(** C4 as stated fails on the code: [init], [dispose], [init] on one
    instance ends ready. *)
Lemma dispose_is_not_terminal :
  AudioEngine.initialized
    (this (run_all [OInit; ODispose; OInit] (sample_fresh zero))) = true /\
  ~ dispose_is_terminal.
Proof.
  split; [vm_compute; reflexivity|].
  intros H. specialize (H (sample_ready zero) [OInit]).
  vm_compute in H. discriminate H.
Qed.

(** C5 (amended).  [dispose] never throws.  It calls [dispose()] on each
    node the engine holds, once per field that holds it, and clears the
    flag.  It leaves the Transport, with every pending one-shot event, and
    every part untouched, and the engine keeps its references to the
    disposed nodes. *)
Theorem dispose_releases_nodes_only (s : State) :
  exists s',
    dispose s = (Return tt, s') /\
    Tone.transport (tone s') = Tone.transport (tone s) /\
    Tone.parts (tone s') = Tone.parts (tone s) /\
    Tone.triggers (tone s') = Tone.triggers (tone s) /\
    clips s' = clips s /\ arrays s' = arrays s /\
    this s' = clear_initialized (this s) /\
    owned (this s') = owned (this s) /\
    forall n nd,
      In (Some n) (owned (this s)) ->
      Tone.nodes (tone s) !! n = Some nd ->
      exists nd',
        Tone.nodes (tone s') !! n = Some nd' /\
        Tone.disposals nd' = (Tone.disposals nd + occurrences n (owned (this s)))%nat /\
        (1 <= occurrences n (owned (this s)))%nat.
Proof.
  eexists. split; [apply dispose_spec|].
  cbn [this tone clips arrays]. repeat split.
  intros n nd Hin Hn.
  destruct (released_lookup (owned (this s)) _ n nd Hn) as (nd' & H1 & H2 & _).
  exists nd'. split; [exact H1|]. split; [exact H2|].
  now apply occurrences_In.
Qed.

Lemma dispose_releases_nodes_only_witness :
  exists s',
    dispose (sample_ready zero) = (Return tt, s') /\
    Tone.disposals <$> Tone.nodes (tone s') !! 4%nat = Some 1%nat.
Proof.
  destruct (dispose_releases_nodes_only (sample_ready zero))
    as (s' & Hd & _ & _ & _ & _ & _ & _ & _ & Hn).
  exists s'. split; [exact Hd|].
  destruct (Hn 4%nat (Tone.mkNode Tone.MembraneSynth (Some (Tone.ToNode 0%nat)) None 0))
    as (nd' & Hl & Hdis & _).
  - vm_compute. auto.
  - vm_compute. reflexivity.
  - unfold NodeId in *. rewrite Hl. cbn [fmap option_fmap option_map].
    rewrite Hdis. vm_compute. reflexivity.
Defined.

(** C5 as stated fails on the code: a pad triggered before [dispose] is
    still on the timeline afterwards, and when the Transport fires it the
    callback calls [triggerAttackRelease] on the disposed kick; a part
    that was started is still started, and its callback makes its calls
    as well. *)
Lemma dispose_cancels_nothing :
  let s := snd (triggerPad PadId.kick None sample_playing) in
  ~ dispose_cancels_everything /\
  length (Tone.once (Tone.transport (tone (snd (dispose s))))) = 1%nat /\
  (forall t,
     length (Tone.triggers (tone (snd (fire_once 0 t (snd (dispose s)))))) = 1%nat) /\
  (forall t1 t2 t3,
     length (Tone.triggers (tone (snd (play_period 0%nat [(t1, 0); (t2, 1); (t3, 2)]%nat
                                         (snd (dispose s)))))) = 3%nat).
Proof.
  intros s. split; [|repeat split; intros; vm_compute; reflexivity].
  intros H. destruct (H s) as [H1 _]. vm_compute in H1. discriminate H1.
Qed.

(** ** Clips *)

Lemma playInstrument_spec (s : State) (k : Rack) (p : PadId.t) (time velocity : number) :
  fields (this s) = fields (engine_of k true zero) ->
  playInstrument p time velocity s =
  (Return tt,
   mkState (this s)
     (Tone.with_triggers (fun l => l ++ [sound k p time velocity]) (tone s))
     (clips s) (arrays s)).
Proof.
  intros Hf. unfold fields in Hf. cbn in Hf.
  injection Hf as Hfi Hre Hdi Hli Hki Hsn Hha Hba Hle Hfx.
  cbv [playInstrument bind get].
  destruct p; rewrite ?Hki, ?Hsn, ?Hha, ?Hba, ?Hle, ?Hfx; reflexivity.
Qed.

Lemma part_callback_spec (s : State) (k : Rack) (values : list (number * LoopEvent.t))
    (c : number * nat) :
  fields (this s) = fields (engine_of k true zero) ->
  part_callback (fst c) (snd <$> values !! snd c) s =
  (Return tt,
   mkState (this s)
     (Tone.with_triggers (fun l => l ++ fired k values c) (tone s))
     (clips s) (arrays s)).
Proof.
  intros Hf. destruct c as [t i]. unfold fired. cbn [fst snd]. plain_numbers.
  destruct (values !! i) as [[o e]|] eqn:E;
    cbn [fmap option_fmap option_map snd part_callback].
  - now apply playInstrument_spec.
  - unfold ret, Tone.with_triggers. now rewrite app_nil_r, world_eta, state_eta.
Qed.

Lemma play_calls_spec (k : Rack) (values : list (number * LoopEvent.t))
    (calls : list (number * nat)) (s : State) :
  fields (this s) = fields (engine_of k true zero) ->
  play_calls values calls s =
  (Return tt,
   mkState (this s)
     (Tone.with_triggers (fun tr => tr ++ flat_map (fired k values) calls) (tone s))
     (clips s) (arrays s)).
Proof.
  revert s. induction calls as [|[time i] calls IH]; intros s Hf.
  - cbn. unfold ret, Tone.with_triggers. now rewrite app_nil_r, world_eta, state_eta.
  - cbn [play_calls flat_map].
    erewrite bind_return by (apply (part_callback_spec s k values (time, i)); exact Hf).
    rewrite IH by exact Hf.
    unfold Tone.with_triggers.
    cbn [this tone clips arrays Tone.nodes Tone.parts Tone.transport Tone.triggers
         Tone.toSeconds Tone.unlockable].
    now rewrite <- app_assoc.
Qed.

Lemma play_period_spec (k : Rack) (p : PartId) (part : Tone.Part)
    (calls : list (number * nat)) (s : State) :
  fields (this s) = fields (engine_of k true zero) ->
  Tone.parts (tone s) !! p = Some part ->
  playing part = true ->
  play_period p calls s =
  (Return tt,
   mkState (this s)
     (Tone.with_triggers
        (fun tr => tr ++ flat_map (fired k (Tone.part_events part)) calls) (tone s))
     (clips s) (arrays s)).
Proof.
  intros Hf Hp Hpl. cbv [play_period bind get]. rewrite Hp, Hpl.
  now apply play_calls_spec.
Qed.


Lemma fired_in_range (k : Rack) (values : list (number * LoopEvent.t)) (t : number)
    (i : nat) (o : number) (e : LoopEvent.t) :
  values !! i = Some (o, e) ->
  fired k values (t, i) = [sound k (LoopEvent.padId e) t (LoopEvent.velocity e)].
Proof. intros H. unfold fired. cbn [fst snd]. plain_numbers. now rewrite H. Qed.






(** C7: the code at an event whose tick is -1, at 104 bpm.  The remainder
    keeps the sign of the tick, so the offset is minus one sixteenth of
    the measure: it is negative, not in [0, measureSeconds). *)
Theorem offsetOf_negative_tick :
  let m := seconds_at DEFAULT_BPM "1m" in
  rem (LoopEvent.tick event_before_grid) GRID_RESOLUTION = of_Z (-1) /\
  (16 * Zval (offsetOf m event_before_grid) = - Zval m)%Z /\
  ltb (offsetOf m event_before_grid) zero = true /\
  ~ offset_in_measure m event_before_grid.
Proof.
  repeat split; try (vm_compute; reflexivity).
  intros [H _]. vm_compute in H. discriminate H.
Qed.

Lemma released_released (l : list (option NodeId)) (m : gmap NodeId Tone.Node)
    (n : NodeId) (nd : Tone.Node) :
  m !! n = Some nd ->
  exists nd2,
    released l (released l m) !! n = Some nd2 /\
    Tone.disposals nd2 = (Tone.disposals nd + 2 * occurrences n l)%nat.
Proof.
  intros Hm.
  destruct (released_lookup l m n nd Hm) as (nd1 & H1 & D1 & _).
  destruct (released_lookup l _ n nd1 H1) as (nd2 & H2 & D2 & _).
  exists nd2. split; [exact H2|]. lia.
Qed.

(** C8 (amended).  Neither [dispose] nor [stopClip] checks readiness:
    [dispose] always returns, and [stopClip] returns for every clip object,
    whatever the state of the engine.  [stopClip] on a handle without a
    part does nothing.  But neither remembers what it released: a second
    [stopClip] calls [stop()] and [dispose()] on the same part again, and
    a second [dispose] calls [dispose()] on the same nodes again. *)
Theorem stopClip_and_dispose_repeat :
  (forall s, fst (dispose s) = Return tt) /\
  (forall s a c, clips s !! a = Some c -> fst (stopClip a s) = Return tt) /\
  (forall s a c,
     clips s !! a = Some c -> ActiveClip.part c = None ->
     stopClip a s = (Return tt, s)) /\
  (forall s a c p part,
     clips s !! a = Some c -> ActiveClip.part c = Some p ->
     Tone.parts (tone s) !! p = Some part ->
     exists part2,
       Tone.parts (tone (snd (stopClip a (snd (stopClip a s))))) !! p = Some part2 /\
       Tone.part_stops part2 = (Tone.part_stops part + 2)%nat /\
       Tone.part_disposals part2 = (Tone.part_disposals part + 2)%nat) /\
  (forall s n nd,
     In (Some n) (owned (this s)) ->
     Tone.nodes (tone s) !! n = Some nd ->
     exists nd2,
       Tone.nodes (tone (snd (dispose (snd (dispose s))))) !! n = Some nd2 /\
       Tone.disposals nd2 = (Tone.disposals nd + 2 * occurrences n (owned (this s)))%nat /\
       (1 <= occurrences n (owned (this s)))%nat).
Proof.
  split; [|split; [|split; [|split]]].
  - intros s. now rewrite dispose_spec.
  - intros s a c Ha. rewrite (stopClip_spec s a c Ha).
    destruct (ActiveClip.part c); reflexivity.
  - intros s a c Ha Hp. rewrite (stopClip_spec s a c Ha), Hp. reflexivity.
  - intros s a c p part Ha Hp Hl.
    rewrite (stopClip_spec s a c Ha), Hp. cbn [snd].
    erewrite stopClip_spec by (cbn [clips]; exact Ha).
    rewrite Hp. cbn [snd tone Tone.parts Tone.with_parts].
    unfold PartId in *.
    rewrite !lookup_alter_eq, Hl. cbn [fmap option_fmap option_map].
    eexists. split; [reflexivity|]. cbn. split; lia.
  - intros s n nd Hin Hn.
    rewrite !dispose_spec. cbn [snd this tone Tone.nodes Tone.with_nodes].
    change (owned (clear_initialized (this s))) with (owned (this s)).
    destruct (released_released (owned (this s)) _ n nd Hn) as (nd2 & H2 & D2).
    exists nd2. split; [exact H2|]. split; [exact D2|].
    now apply occurrences_In.
Qed.

Lemma stopClip_and_dispose_repeat_witness :
  exists part2,
    Tone.parts (tone (snd (stopClip 1%nat (snd (stopClip 1%nat sample_playing)))))
      !! 0%nat = Some part2 /\
    Tone.part_disposals part2 = 2%nat.
Proof.
  destruct stopClip_and_dispose_repeat as (_ & _ & _ & H & _).
  destruct (H sample_playing 1%nat (ActiveClip.mk sample_clip (Some 0%nat)) 0%nat
              (Tone.mkPart
                 (map (fun evt => (offsetOf (seconds_at DEFAULT_BPM "1m") evt, evt))
                    sample_events)
                 true (Some "1m") (Some (decimal 1 100)) (Some zero) 0 0))
    as (part2 & Hl & _ & Hd).
  - vm_compute. reflexivity.
  - reflexivity.
  - vm_compute. reflexivity.
  - exists part2. split; [exact Hl | exact Hd].
Defined.

(** C8 as stated fails on the code: the second [stopClip] on one handle
    disposes the part a second time, and the second [dispose] disposes the
    kick a second time. *)
Lemma second_stopClip_disposes_again :
  let s1 := snd (stopClip 1%nat sample_playing) in
  let s2 := snd (stopClip 1%nat s1) in
  let d1 := snd (dispose sample_playing) in
  let d2 := snd (dispose d1) in
  Tone.part_disposals <$> Tone.parts (tone s1) !! 0%nat = Some 1%nat /\
  Tone.part_disposals <$> Tone.parts (tone s2) !! 0%nat = Some 2%nat /\
  Tone.disposals <$> Tone.nodes (tone d1) !! 4%nat = Some 1%nat /\
  Tone.disposals <$> Tone.nodes (tone d2) !! 4%nat = Some 2%nat /\
  ~ stopClip_releases_once.
Proof.
  intros s1 s2 d1 d2.
  repeat split; try (vm_compute; reflexivity).
  intros H.
  destruct (Tone.parts (tone s1) !! 0%nat) as [part|] eqn:E1;
    [|vm_compute in E1; discriminate E1].
  destruct (Tone.parts (tone s2) !! 0%nat) as [part2|] eqn:E2;
    [|vm_compute in E2; discriminate E2].
  assert (Hc : clips sample_playing !! 1%nat = Some (ActiveClip.mk sample_clip (Some 0%nat)))
    by (vm_compute; reflexivity).
  pose proof (H sample_playing 1%nat _ 0%nat part part2 Hc eq_refl E1 E2) as Hd.
  vm_compute in E1. vm_compute in E2.
  injection E1 as <-. injection E2 as <-.
  vm_compute in Hd. discriminate Hd.
Qed.

(** C9.  Neither [createClip] nor [stopClip] changes a clip object or an
    event array that exists when it is called, whether the call returns or
    throws.  When [createClip] returns, it has added one object, the active
    clip, at an address that was free, and that object agrees with the
    source clip on [id], [title], [author], [bpm], [color], [createdAt],
    [events], [likes] and [remixes]. *)
Theorem clips_are_never_mutated :
  (forall (s : State) (source : loc),
     (forall l c, clips s !! l = Some c ->
                  clips (snd (createClip source s)) !! l = Some c) /\
     arrays (snd (createClip source s)) = arrays s) /\
  (forall (s : State) (a : loc),
     clips (snd (stopClip a s)) = clips s /\
     arrays (snd (stopClip a s)) = arrays s) /\
  (forall (s : State) (source : loc) (src : ActiveClip.t) (evts : list LoopEvent.t),
     AudioEngine.initialized (this s) = true ->
     clips s !! source = Some src ->
     arrays s !! LoopClip.events (ActiveClip.clip src) = Some evts ->
     exists handle active s',
       createClip source s = (Return handle, s') /\
       clips s !! handle = None /\
       clips s' !! handle = Some active /\
       clips s' !! source = Some src /\
       same_fields (ActiveClip.clip active) (ActiveClip.clip src)).
Proof.
  split; [exact createClip_frame|]. split.
  - intros s a. destruct (stopClip_frame s a) as (_ & Hc & Ha & _). auto.
  - intros s source src evts Hr Hs He.
    pose proof (createClip_frame s source) as [Hkeep _].
    pose proof (createClip_spec s source src evts Hr Hs He) as Hc. cbv zeta in Hc.
    rewrite Hc in Hkeep. cbn [snd] in Hkeep.
    eexists _, _, _. split; [exact Hc|].
    assert (Hfresh : clips s !! fresh (dom (clips s)) = None)
      by (apply not_elem_of_dom, is_fresh).
    cbn [clips]. unfold loc in *. split; [exact Hfresh|].
    split; [apply lookup_insert_eq|]. split; [now apply Hkeep|].
    cbn. repeat split.
Qed.

Lemma clips_are_never_mutated_witness :
  exists handle s',
    createClip 0%nat (with_sample_clip (sample_ready zero)) = (Return handle, s') /\
    clips s' !! 0%nat = Some (ActiveClip.mk sample_clip None).
Proof.
  destruct (proj2 (proj2 clips_are_never_mutated)
              (with_sample_clip (sample_ready zero)) 0%nat
              (ActiveClip.mk sample_clip None) sample_events)
    as (handle & active & s' & Hc & _ & _ & Hkeep & _).
  - vm_compute. reflexivity.
  - vm_compute. reflexivity.
  - vm_compute. reflexivity.
  - exists handle, s'. split; [exact Hc | exact Hkeep].
Defined.
(** * Part 5: more of the engine *)

(** ** What [init] builds *)


(** X1.  On an engine that is not initialised, in a world where the audio
    output can be unlocked, [init] returns and has built ten new nodes,
    pairwise distinct and none of them in use before: the chain
    filter -> reverb -> distortion -> limiter -> output and the six
    voices, each connected to the filter.  Every field holds its node, the
    flag is set, the Transport loops over one measure at the tempo of the
    engine, and the nodes that existed before, the parts, the clips and
    the arrays are as they were. *)
Theorem init_builds_the_graph (s : State) :
  AudioEngine.initialized (this s) = false ->
  Tone.unlockable (tone s) = true ->
  exists s' k,
    init s = (Return tt, s') /\
    this s' = engine_of k true (AudioEngine.bpm (this s)) /\
    NoDup (rack_nodes k) /\
    (forall n, In n (rack_nodes k) -> Tone.nodes (tone s) !! n = None) /\
    wired (Tone.nodes (tone s')) k /\
    (forall n, ~ In n (rack_nodes k) ->
       Tone.nodes (tone s') !! n = Tone.nodes (tone s) !! n) /\
    Tone.transport (tone s') =
      looping_transport (AudioEngine.bpm (this s)) (Tone.transport (tone s)) /\
    Tone.parts (tone s') = Tone.parts (tone s) /\
    Tone.triggers (tone s') = Tone.triggers (tone s) /\
    clips s' = clips s /\ arrays s' = arrays s.
Proof.
  intros Hi Hu. destruct (init_run s Hi Hu) as (s' & k & E & B).
  exists s', k. split; [exact E|].
  destruct B as (B1 & B2 & B3 & B4 & B5 & B6 & B7 & B8 & _ & _ & B9 & B10).
  repeat (split; [assumption|]). assumption.
Qed.

Lemma init_builds_the_graph_witness :
  exists s' k,
    init (sample_fresh zero) = (Return tt, s') /\
    this s' = engine_of k true DEFAULT_BPM /\
    wired (Tone.nodes (tone s')) k.
Proof.
  destruct (init_builds_the_graph (sample_fresh zero))
    as (s' & k & E & Ht & _ & _ & Hw & _).
  - vm_compute. reflexivity.
  - vm_compute. reflexivity.
  - exists s', k. split; [exact E|]. split; [exact Ht | exact Hw].
Defined.

(** ** What touches the graph *)

Lemma keeps_graph_refl (s : State) : keeps_graph s s.
Proof. intros n nd H. exists nd. auto. Qed.

Lemma keeps_graph_trans (s1 s2 s3 : State) :
  keeps_graph s1 s2 -> keeps_graph s2 s3 -> keeps_graph s1 s3.
Proof.
  intros H12 H23 n nd H.
  destruct (H12 n nd H) as (nd2 & H2 & K2 & O2).
  destruct (H23 n nd2 H2) as (nd3 & H3 & K3 & O3).
  exists nd3. split; [exact H3|]. split; congruence.
Qed.

Lemma keeps_graph_same_nodes (s s' : State) :
  Tone.nodes (tone s') = Tone.nodes (tone s) -> keeps_graph s s'.
Proof. intros E n nd H. exists nd. rewrite E. auto. Qed.

Lemma keeps_graph_alter (g : Tone.Node -> Tone.Node) (i : NodeId) (s s' : State) :
  (forall nd, Tone.kind (g nd) = Tone.kind nd /\ Tone.output (g nd) = Tone.output nd) ->
  Tone.nodes (tone s') = alter g i (Tone.nodes (tone s)) ->
  keeps_graph s s'.
Proof.
  intros Hg E n nd H. rewrite E. unfold NodeId in *.
  destruct (decide (i = n)) as [->|Hne].
  - exists (g nd). rewrite lookup_alter_eq, H. split; [reflexivity|]. apply Hg.
  - exists nd. rewrite lookup_alter_ne by exact Hne. auto.
Qed.

Lemma setBpm_spec (b : number) (s : State) :
  AudioEngine.initialized (this s) = true ->
  setBpm b s =
  (Return tt,
   mkState
     (AudioEngine.mk true (AudioEngine.filter (this s)) (AudioEngine.reverb (this s))
        (AudioEngine.distortion (this s)) (AudioEngine.limiter (this s))
        (AudioEngine.kick (this s)) (AudioEngine.snare (this s))
        (AudioEngine.hat (this s)) (AudioEngine.bass (this s))
        (AudioEngine.lead (this s)) (AudioEngine.fx (this s)) b)
     (Tone.with_transport (fun t =>
        Tone.mkTransport (Tone.seconds t) (Tone.bpm t) (Some (b, decimal 2 10))
          (Tone.loop t) (Tone.loopStart t) (Tone.loopEnd t) (Tone.start t) (Tone.once t))
        (tone s))
     (clips s) (arrays s)).
Proof.
  intros Hr. unfold setBpm. rewrite guarded_ready by exact Hr.
  cbv [bind set_bpm Transport_bpm_rampTo modify_this modify_tone modify].
  cbn [this tone clips arrays]. rewrite Hr. reflexivity.
Qed.

Lemma rampTo_field_spec (o : option NodeId) (value : number) (s : State) :
  match o with
  | Some f => node_rampTo f value (decimal 4 10)
  | None => ret tt
  end s =
  (Return tt,
   match o with
   | Some f =>
       mkState (this s)
         (Tone.with_nodes (alter (Tone.ramp_node value (decimal 4 10)) f) (tone s))
         (clips s) (arrays s)
   | None => s
   end).
Proof. destruct o; reflexivity. Qed.

Lemma setFilterFrequency_spec (value : number) (s : State) :
  AudioEngine.initialized (this s) = true ->
  setFilterFrequency value s =
  (Return tt,
   match AudioEngine.filter (this s) with
   | Some f =>
       mkState (this s)
         (Tone.with_nodes (alter (Tone.ramp_node value (decimal 4 10)) f) (tone s))
         (clips s) (arrays s)
   | None => s
   end).
Proof.
  intros Hr. unfold setFilterFrequency. rewrite guarded_ready by exact Hr.
  unfold bind at 1. cbv [get]. apply rampTo_field_spec.
Qed.

Lemma setReverbWet_spec (value : number) (s : State) :
  AudioEngine.initialized (this s) = true ->
  setReverbWet value s =
  (Return tt,
   match AudioEngine.reverb (this s) with
   | Some r =>
       mkState (this s)
         (Tone.with_nodes (alter (Tone.ramp_node value (decimal 4 10)) r) (tone s))
         (clips s) (arrays s)
   | None => s
   end).
Proof.
  intros Hr. unfold setReverbWet. rewrite guarded_ready by exact Hr.
  unfold bind at 1. cbv [get]. apply rampTo_field_spec.
Qed.

Lemma triggerPad_run (s : State) (padId : PadId.t) (velocity : option number) :
  AudioEngine.initialized (this s) = true ->
  let now := Tone.seconds (Tone.transport (tone s)) in
  let subdivision := Tone.toSeconds (tone s) "16n" in
  let next := nextTickSeconds now subdivision in
  triggerPad padId velocity s =
  (Return (QuantizedTrigger.mk (tickOf next subdivision) next),
   mkState (this s)
     (Tone.with_transport (fun t =>
        Tone.mkTransport (Tone.seconds t) (Tone.bpm t) (Tone.bpm_ramp t)
          (Tone.loop t) (Tone.loopStart t) (Tone.loopEnd t) (Tone.start t)
          (Tone.once t ++ [(next, Tone.mkCallback padId (default (of_Z 1) velocity))]))
        (tone s))
     (clips s) (arrays s)).
Proof.
  intros Hr now subdivision next. unfold triggerPad. cbv zeta.
  rewrite guarded_ready by assumption. reflexivity.
Qed.

(** Whatever [createClip] does, it touches neither the engine object nor
    a node nor the Transport. *)
Lemma createClip_engine_frame (s : State) (source : loc) :
  this (snd (createClip source s)) = this s /\
  Tone.nodes (tone (snd (createClip source s))) = Tone.nodes (tone s) /\
  Tone.transport (tone (snd (createClip source s))) = Tone.transport (tone s).
Proof.
  destruct (AudioEngine.initialized (this s)) eqn:Hr;
    [|rewrite createClip_not_ready by assumption; auto].
  destruct (clips s !! source) as [src|] eqn:Hs.
  - destruct (arrays s !! LoopClip.events (ActiveClip.clip src)) as [evts|] eqn:He.
    + rewrite (createClip_spec s source src evts Hr Hs He). cbn. auto.
    + unfold createClip. rewrite guarded_ready by assumption.
      cbv [bind Time_toSeconds read_clip read_array get ret].
      rewrite Hs. cbv [ret]. rewrite He. cbn. auto.
  - unfold createClip. rewrite guarded_ready by assumption.
    cbv [bind Time_toSeconds read_clip read_array get ret].
    rewrite Hs. cbn. auto.
Qed.

Lemma init_resume_keeps_graph (s : State) : keeps_graph s (snd (init_resume s)).
Proof.
  destruct (Tone.unlockable (tone s)) eqn:Hu.
  - destruct (init_resume_run s Hu) as (s' & k & -> & B).
    destruct B as (_ & _ & Hnew & _ & Hold & _). cbn [snd].
    intros n nd H. exists nd. rewrite Hold; [auto|].
    intros Hin. rewrite (Hnew n Hin) in H. discriminate H.
  - rewrite init_resume_refused by assumption. apply keeps_graph_refl.
Qed.

Lemma run_keeps_graph (o : Op) (s : State) :
  o <> ODispose -> keeps_graph s (run o s).
Proof.
  intros Ho. destruct o; cbn [run]; [|congruence|..].
  - destruct (AudioEngine.initialized (this s)) eqn:Hi.
    + rewrite init_already_ready by exact Hi. apply keeps_graph_refl.
    + rewrite init_not_ready by exact Hi. apply init_resume_keeps_graph.
  - destruct (AudioEngine.initialized (this s)) eqn:Hr.
    + rewrite setBpm_spec by exact Hr. now apply keeps_graph_same_nodes.
    + rewrite setBpm_not_ready by exact Hr. apply keeps_graph_refl.
  - destruct (AudioEngine.initialized (this s)) eqn:Hr.
    + rewrite setFilterFrequency_spec by exact Hr. cbn [snd].
      destruct (AudioEngine.filter (this s)); [|apply keeps_graph_refl].
      eapply keeps_graph_alter; [|reflexivity]. intros nd. now split.
    + rewrite setFilterFrequency_not_ready by exact Hr. apply keeps_graph_refl.
  - destruct (AudioEngine.initialized (this s)) eqn:Hr.
    + rewrite setReverbWet_spec by exact Hr. cbn [snd].
      destruct (AudioEngine.reverb (this s)); [|apply keeps_graph_refl].
      eapply keeps_graph_alter; [|reflexivity]. intros nd. now split.
    + rewrite setReverbWet_not_ready by exact Hr. apply keeps_graph_refl.
  - destruct (AudioEngine.initialized (this s)) eqn:Hr.
    + rewrite triggerPad_run by exact Hr. now apply keeps_graph_same_nodes.
    + rewrite triggerPad_not_ready by exact Hr. apply keeps_graph_refl.
  - apply keeps_graph_same_nodes. apply createClip_engine_frame.
  - apply keeps_graph_same_nodes. apply stopClip_frame.
Qed.

Lemma run_keeps_fields (o : Op) (s : State) :
  o <> OInit \/ AudioEngine.initialized (this s) = true ->
  fields (this (run o s)) = fields (this s).
Proof.
  intros Ho. destruct o; cbn [run].
  - destruct Ho as [Ho|Hi]; [congruence|]. now rewrite init_already_ready.
  - now rewrite dispose_spec.
  - destruct (AudioEngine.initialized (this s)) eqn:Hr.
    + now rewrite setBpm_spec.
    + now rewrite setBpm_not_ready.
  - destruct (AudioEngine.initialized (this s)) eqn:Hr.
    + rewrite setFilterFrequency_spec by exact Hr.
      now destruct (AudioEngine.filter (this s)).
    + now rewrite setFilterFrequency_not_ready.
  - destruct (AudioEngine.initialized (this s)) eqn:Hr.
    + rewrite setReverbWet_spec by exact Hr.
      now destruct (AudioEngine.reverb (this s)).
    + now rewrite setReverbWet_not_ready.
  - destruct (AudioEngine.initialized (this s)) eqn:Hr.
    + now rewrite triggerPad_run.
    + now rewrite triggerPad_not_ready.
  - destruct (createClip_engine_frame s source) as [-> _]. reflexivity.
  - destruct (stopClip_frame s activeClip) as [-> _]. reflexivity.
Qed.

Lemma run_stays_ready (o : Op) (s : State) :
  o <> ODispose -> AudioEngine.initialized (this s) = true ->
  AudioEngine.initialized (this (run o s)) = true.
Proof.
  intros Ho Hr. destruct o; cbn [run]; try congruence.
  - now rewrite init_already_ready.
  - now rewrite setBpm_spec.
  - rewrite setFilterFrequency_spec by exact Hr.
    now destruct (AudioEngine.filter (this s)).
  - rewrite setReverbWet_spec by exact Hr.
    now destruct (AudioEngine.reverb (this s)).
  - now rewrite triggerPad_run.
  - destruct (createClip_engine_frame s source) as [-> _]. exact Hr.
  - destruct (stopClip_frame s activeClip) as [-> _]. exact Hr.
Qed.

Lemma init_resume_stays_ready (s : State) :
  AudioEngine.initialized (this s) = true ->
  AudioEngine.initialized (this (snd (init_resume s))) = true.
Proof.
  intros Hr. destruct (Tone.unlockable (tone s)) eqn:Hu.
  - destruct (init_resume_run s Hu) as (s' & k & -> & B). cbn [snd].
    destruct B as [-> _]. reflexivity.
  - now rewrite init_resume_refused.
Qed.

Lemma turn_keeps_graph (t : Turn) (c : State * nat) :
  t <> Call ODispose -> keeps_graph (fst c) (fst (turn t c)).
Proof.
  intros Ht. destruct t as [o|].
  - destruct o; cbn [turn fst];
      [destruct (AudioEngine.initialized (this (fst c))); apply keeps_graph_refl
      | congruence
      | apply run_keeps_graph; discriminate ..].
  - cbn [turn]. destruct (snd c); [apply keeps_graph_refl|].
    cbn [fst]. apply init_resume_keeps_graph.
Qed.

Lemma turn_keeps_fields (t : Turn) (c : State * nat) :
  t <> Resume -> fields (this (fst (turn t c))) = fields (this (fst c)).
Proof.
  intros Ht. destruct t as [o|]; [|congruence].
  destruct o; cbn [turn fst];
    [now destruct (AudioEngine.initialized (this (fst c)))
    | apply run_keeps_fields; left; discriminate ..].
Qed.

Lemma turn_stays_ready (t : Turn) (c : State * nat) :
  t <> Call ODispose -> AudioEngine.initialized (this (fst c)) = true ->
  AudioEngine.initialized (this (fst (turn t c))) = true.
Proof.
  intros Ht Hr. destruct t as [o|].
  - destruct o; cbn [turn fst];
      [now rewrite Hr
      | congruence
      | apply run_stays_ready; [discriminate | exact Hr] ..].
  - cbn [turn]. destruct (snd c); [exact Hr|].
    cbn [fst]. now apply init_resume_stays_ready.
Qed.

(** X3.  Only [dispose] and the continuation of [init] touch the graph.
    Over every sequence of turns of the event loop, from every state:
    as long as [dispose] is not called, each node that exists stays in
    place, of the same kind and connected to the same output, also when a
    continuation of [init] adds its ten nodes; as long as no continuation
    of [init] runs, the ten fields of the engine keep pointing at the
    same nodes, whatever is called, [init] and [dispose] included; and a
    ready engine on which [dispose] is not called stays ready. *)
Theorem only_init_and_dispose_touch_the_graph (ts : list Turn) (s : State) (n : nat) :
  (~ In (Call ODispose) ts -> keeps_graph s (fst (turns ts (s, n)))) /\
  (~ In Resume ts -> fields (this (fst (turns ts (s, n)))) = fields (this s)) /\
  (AudioEngine.initialized (this s) = true -> ~ In (Call ODispose) ts ->
   AudioEngine.initialized (this (fst (turns ts (s, n)))) = true).
Proof.
  revert s n. induction ts as [|t ts IH]; intros s n.
  - cbn. split; [intros _; apply keeps_graph_refl|]. auto.
  - cbn [turns fold_left]. fold (turns ts (turn t (s, n))).
    destruct (turn t (s, n)) as [s1 n1] eqn:E.
    assert (E1 : s1 = fst (turn t (s, n))) by now rewrite E.
    destruct (IH s1 n1) as (IH1 & IH2 & IH3).
    split; [|split].
    + intros Hn. apply (keeps_graph_trans _ s1).
      * rewrite E1. apply (turn_keeps_graph t (s, n)). intros ->. apply Hn. now left.
      * apply IH1. intros H. apply Hn. now right.
    + intros Hn. rewrite IH2 by (intros H; apply Hn; now right).
      rewrite E1. apply (turn_keeps_fields t (s, n)). intros ->. apply Hn. now left.
    + intros Hr Hn. apply IH3; [|intros H; apply Hn; now right].
      rewrite E1. apply (turn_stays_ready t (s, n)); [|exact Hr].
      intros ->. apply Hn. now left.
Qed.

Lemma only_init_and_dispose_touch_the_graph_witness :
  fields (this (fst (turns [Call (OSetFilterFrequency (of_Z 2000)); Call OInit;
                            Call ODispose; Call (OTriggerPad PadId.hat None)]
                       (sample_ready zero, 0%nat)))) =
  fields (this (sample_ready zero)).
Proof.
  destruct (only_init_and_dispose_touch_the_graph
              [Call (OSetFilterFrequency (of_Z 2000)); Call OInit;
               Call ODispose; Call (OTriggerPad PadId.hat None)]
              (sample_ready zero) 0%nat) as (_ & H & _).
  apply H. cbn [In]. intros [H0|[H0|[H0|[H0|H0]]]]; solve [discriminate H0 | contradiction].
Defined.

(** ** Tempo and the two effect controls *)

(** X4.  On a ready engine [setBpm] stores the tempo in the engine and
    asks the Transport to ramp to it over 0.2 s; it does not set the
    tempo of the Transport itself, and what Tone.js answers for a note
    length is unchanged by the call.  A second request replaces the
    first.  The stored tempo is the one a later [init], after [dispose],
    gives to the Transport. *)
Theorem setBpm_requests_a_ramp (s : State) (b : number) :
  AudioEngine.initialized (this s) = true ->
  exists s',
    setBpm b s = (Return tt, s') /\
    AudioEngine.bpm (this s') = b /\
    Tone.bpm_ramp (Tone.transport (tone s')) = Some (b, decimal 2 10) /\
    Tone.bpm (Tone.transport (tone s')) = Tone.bpm (Tone.transport (tone s)) /\
    Tone.toSeconds (tone s') = Tone.toSeconds (tone s) /\
    Tone.once (Tone.transport (tone s')) = Tone.once (Tone.transport (tone s)) /\
    Tone.nodes (tone s') = Tone.nodes (tone s) /\
    Tone.parts (tone s') = Tone.parts (tone s) /\
    (forall b2, setBpm b2 s' = setBpm b2 s) /\
    (Tone.unlockable (tone s) = true ->
     Tone.bpm (Tone.transport (tone (snd (init (snd (dispose s')))))) = b).
Proof.
  intros Hr. eexists. split; [apply setBpm_spec; exact Hr|].
  cbn [this tone AudioEngine.bpm Tone.with_transport Tone.transport Tone.bpm_ramp
       Tone.bpm Tone.toSeconds Tone.once Tone.nodes Tone.parts].
  repeat split.
  - intros b2. rewrite !setBpm_spec by (exact Hr || reflexivity). reflexivity.
  - intros Hu.
    match goal with |- context [dispose ?x] => set (s1 := x) end.
    destruct (init_run (snd (dispose s1))) as (s3 & k & E & B).
    + apply dispose_clears_flag.
    + rewrite dispose_spec. exact Hu.
    + rewrite E. cbn [snd]. destruct B as (_ & _ & _ & _ & _ & -> & _).
      rewrite dispose_spec. reflexivity.
Qed.

Lemma setBpm_requests_a_ramp_witness :
  Tone.bpm (Tone.transport (tone (snd (init (snd (dispose
    (snd (setBpm (of_Z 120) (sample_ready zero))))))))) = of_Z 120.
Proof.
  destruct (setBpm_requests_a_ramp (sample_ready zero) (of_Z 120))
    as (s' & E & _ & _ & _ & _ & _ & _ & _ & _ & H).
  - vm_compute. reflexivity.
  - rewrite E. apply H. vm_compute. reflexivity.
Defined.

(** X5.  On a ready engine whose filter and reverb are two different
    nodes (as they are after [init]), [setFilterFrequency] requests a ramp
    of 0.4 s on the filter and [setReverbWet] one on the reverb.  Each
    leaves the other node, every other node, the engine object, the
    Transport and the parts alone, and the order of the two calls does not
    matter. *)
Theorem filter_and_reverb_are_independent (s : State) (f r : NodeId)
    (nf nr : Tone.Node) (v w : number) :
  AudioEngine.initialized (this s) = true ->
  AudioEngine.filter (this s) = Some f ->
  AudioEngine.reverb (this s) = Some r ->
  f <> r ->
  Tone.nodes (tone s) !! f = Some nf ->
  Tone.nodes (tone s) !! r = Some nr ->
  exists s1 s2,
    setFilterFrequency v s = (Return tt, s1) /\
    setReverbWet w s1 = (Return tt, s2) /\
    Tone.nodes (tone s1) !! f = Some (Tone.ramp_node v (decimal 4 10) nf) /\
    Tone.nodes (tone s1) !! r = Some nr /\
    Tone.nodes (tone s2) !! f = Some (Tone.ramp_node v (decimal 4 10) nf) /\
    Tone.nodes (tone s2) !! r = Some (Tone.ramp_node w (decimal 4 10) nr) /\
    (forall n, n <> f -> n <> r -> Tone.nodes (tone s2) !! n = Tone.nodes (tone s) !! n) /\
    this s2 = this s /\
    Tone.transport (tone s2) = Tone.transport (tone s) /\
    Tone.parts (tone s2) = Tone.parts (tone s) /\
    setFilterFrequency v (snd (setReverbWet w s)) = (Return tt, s2).
Proof.
  intros Hr Hf Hrv Hne Hnf Hnr.
  eexists _, _.
  split; [rewrite setFilterFrequency_spec by exact Hr; rewrite Hf; reflexivity|].
  split; [rewrite setReverbWet_spec by exact Hr; cbn [this]; rewrite Hrv; reflexivity|].
  cbn [this tone Tone.nodes Tone.with_nodes Tone.transport Tone.parts].
  unfold NodeId in *.
  split; [now rewrite lookup_alter_eq, Hnf|].
  split; [now rewrite lookup_alter_ne, Hnr by exact Hne|].
  split; [now rewrite lookup_alter_ne, lookup_alter_eq, Hnf by congruence|].
  split; [now rewrite lookup_alter_eq, lookup_alter_ne, Hnr by exact Hne|].
  split; [intros n H1 H2; now rewrite !lookup_alter_ne by congruence|].
  repeat split.
  rewrite setReverbWet_spec by exact Hr. rewrite Hrv. cbn [snd].
  rewrite setFilterFrequency_spec by exact Hr. cbn [this]. rewrite Hf.
  unfold Tone.with_nodes.
  cbn [tone Tone.nodes Tone.parts Tone.transport Tone.triggers
       Tone.toSeconds Tone.unlockable clips arrays].
  now rewrite alter_alter_ne by exact Hne.
Qed.

Lemma filter_and_reverb_are_independent_witness :
  exists s1 s2,
    setFilterFrequency (of_Z 2000) (sample_ready zero) = (Return tt, s1) /\
    setReverbWet (decimal 7 10) s1 = (Return tt, s2) /\
    Tone.ramp <$> Tone.nodes (tone s2) !! 0%nat = Some (Some (of_Z 2000, decimal 4 10)) /\
    Tone.ramp <$> Tone.nodes (tone s2) !! 1%nat = Some (Some (decimal 7 10, decimal 4 10)).
Proof.
  destruct (filter_and_reverb_are_independent (sample_ready zero) 0%nat 1%nat
              (patched Tone.Filter (Tone.ToNode 1%nat))
              (patched Tone.Reverb (Tone.ToNode 2%nat))
              (of_Z 2000) (decimal 7 10))
    as (s1 & s2 & E1 & E2 & _ & _ & Hf & Hr & _).
  - vm_compute. reflexivity.
  - vm_compute. reflexivity.
  - vm_compute. reflexivity.
  - discriminate.
  - vm_compute. reflexivity.
  - vm_compute. reflexivity.
  - exists s1, s2. split; [exact E1|]. split; [exact E2|].
    unfold NodeId in *. rewrite Hf, Hr. split; reflexivity.
Defined.

(** ** From a pad to a sound *)

(** X6.  On a ready engine that holds the nodes of [k], [triggerPad]
    itself makes no sound: it puts one event at the end of the timeline,
    at the time it returns as [scheduledAt].  When Tone.js fires that
    event, the engine calls [triggerAttackRelease] exactly once, on the
    voice of the pad, with the velocity given (1 if none was given), which
    bass, lead and fx scale by 0.9, 0.8 and 0.6, and at the time Tone.js
    passes to the callback: the callback forwards its argument and does
    not look at [scheduledAt] again.  After that the timeline is what it
    was before the tap.  The engine object, the nodes, the parts and the
    heap are untouched throughout. *)
Theorem pad_sounds_when_its_event_fires (s : State) (k : Rack) (p : PadId.t)
    (v : option number) (time : number) :
  this s = engine_of k true (AudioEngine.bpm (this s)) ->
  exists q s1 s2,
    triggerPad p v s = (Return q, s1) /\
    Tone.triggers (tone s1) = Tone.triggers (tone s) /\
    Tone.once (Tone.transport (tone s1)) =
    Tone.once (Tone.transport (tone s)) ++
    [(QuantizedTrigger.scheduledAt q, Tone.mkCallback p (default (of_Z 1) v))] /\
    fire_once (length (Tone.once (Tone.transport (tone s)))) time s1 = (Return tt, s2) /\
    Tone.triggers (tone s2) =
    Tone.triggers (tone s) ++ [sound k p time (default (of_Z 1) v)] /\
    Tone.once (Tone.transport (tone s2)) = Tone.once (Tone.transport (tone s)) /\
    this s2 = this s /\
    Tone.nodes (tone s2) = Tone.nodes (tone s) /\
    Tone.parts (tone s2) = Tone.parts (tone s) /\
    clips s2 = clips s /\ arrays s2 = arrays s.
Proof.
  intros He.
  assert (Hr : AudioEngine.initialized (this s) = true) by (rewrite He; reflexivity).
  assert (Hf : fields (this s) = fields (engine_of k true zero))
    by (rewrite He; reflexivity).
  pose proof (triggerPad_run s p v Hr) as Ht. cbv zeta in Ht.
  eexists _, _, _. split; [exact Ht|].
  cbn [tone Tone.triggers Tone.with_transport Tone.transport Tone.once
       QuantizedTrigger.scheduledAt].
  split; [reflexivity|]. split; [reflexivity|].
  split.
  { cbv [fire_once bind get].
    cbn [tone Tone.with_transport Tone.transport Tone.once].
    rewrite list_lookup_middle by reflexivity.
    cbv [modify_tone modify once_callback]. cbn [Tone.cb_padId Tone.cb_velocity].
    rewrite (playInstrument_spec _ k) by exact Hf. reflexivity. }
  cbn [tone Tone.triggers Tone.with_triggers Tone.with_transport Tone.transport
       Tone.once Tone.nodes Tone.parts this clips arrays].
  split; [reflexivity|].
  split.
  { rewrite (delete_middle (Tone.once (Tone.transport (tone s))) []).
    apply app_nil_r. }
  repeat split.
Qed.

Lemma pad_sounds_when_its_event_fires_witness :
  exists q s1 s2,
    triggerPad PadId.bass None (sample_ready zero) = (Return q, s1) /\
    fire_once 0 (decimal 1 10) s1 = (Return tt, s2) /\
    Tone.triggers (tone s2) =
    [Tone.mkTrigger 7%nat (Some "C2") "8n" (decimal 1 10) (mul (of_Z 1) (decimal 9 10))].
Proof.
  destruct (pad_sounds_when_its_event_fires (sample_ready zero) sample_rack PadId.bass None
              (decimal 1 10))
    as (q & s1 & s2 & E1 & _ & _ & E2 & Ht & _).
  - vm_compute. reflexivity.
  - exists q, s1, s2. split; [exact E1|]. split; [exact E2|].
    rewrite Ht. reflexivity.
Defined.

(** ** Several clips, and the release of the nodes *)

(** X7.  Two calls of [createClip] on the same clip give two different
    handles with two different parts, each holding the same timed values.
    Stopping one handle stops and disposes its own part, once, and leaves
    the part of the other handle exactly as it was; the source clip is
    never given a part. *)
Theorem clips_play_independently (s : State) (source : loc) (src : ActiveClip.t)
    (evts : list LoopEvent.t) :
  AudioEngine.initialized (this s) = true ->
  clips s !! source = Some src ->
  arrays s !! LoopClip.events (ActiveClip.clip src) = Some evts ->
  exists h1 h2 p1 p2 part s1 s2 s3,
    createClip source s = (Return h1, s1) /\
    createClip source s1 = (Return h2, s2) /\
    h1 <> h2 /\ p1 <> p2 /\
    clips s2 !! h1 = Some (ActiveClip.mk (ActiveClip.clip src) (Some p1)) /\
    clips s2 !! h2 = Some (ActiveClip.mk (ActiveClip.clip src) (Some p2)) /\
    clips s2 !! source = Some src /\
    Tone.parts (tone s2) !! p1 = Some part /\
    Tone.parts (tone s2) !! p2 = Some part /\
    map snd (Tone.part_events part) = evts /\
    stopClip h1 s2 = (Return tt, s3) /\
    Tone.parts (tone s3) !! p1 = Some (Tone.dispose_part (Tone.stop_part part)) /\
    Tone.parts (tone s3) !! p2 = Some part.
Proof.
  intros Hr Hs He.
  pose proof (createClip_spec s source src evts Hr Hs He) as H1. cbv zeta in H1.
  set (p1 := fresh (dom (Tone.parts (tone s)))) in *.
  set (h1 := fresh (dom (clips s))) in *.
  set (part := Tone.mkPart _ _ _ _ _ _ _) in *.
  match type of H1 with _ = (_, ?x) => set (s1 := x) in * end.
  assert (Hh1 : clips s !! h1 = None) by (apply not_elem_of_dom, is_fresh).
  assert (Hp1 : Tone.parts (tone s) !! p1 = None) by (apply not_elem_of_dom, is_fresh).
  assert (Hsh : source <> h1) by (intros ->; congruence).
  assert (Hs1 : clips s1 !! source = Some src).
  { subst s1. cbn [clips]. unfold loc in *. now rewrite lookup_insert_ne by congruence. }
  pose proof (createClip_spec s1 source src evts Hr Hs1 He) as H2. cbv zeta in H2.
  set (p2 := fresh (dom (Tone.parts (tone s1)))) in *.
  set (h2 := fresh (dom (clips s1))) in *.
  match type of H2 with _ = (_, ?x) => set (s2 := x) in * end.
  assert (Hh2 : clips s1 !! h2 = None) by (apply not_elem_of_dom, is_fresh).
  assert (Hp2 : Tone.parts (tone s1) !! p2 = None) by (apply not_elem_of_dom, is_fresh).
  subst s1. cbn [clips tone Tone.parts Tone.with_parts] in Hh2, Hp2.
  unfold loc, PartId in *.
  apply lookup_insert_None in Hh2. destruct Hh2 as [Hh2 Hne_h].
  apply lookup_insert_None in Hp2. destruct Hp2 as [Hp2 Hne_p].
  assert (Hc1 : clips s2 !! h1 = Some (ActiveClip.mk (ActiveClip.clip src) (Some p1))).
  { subst s2. cbn [clips]. rewrite lookup_insert_ne by congruence.
    apply lookup_insert_eq. }
  exists h1, h2, p1, p2, part. eexists _, s2, _.
  split; [exact H1|]. split; [exact H2|].
  split; [exact Hne_h|]. split; [exact Hne_p|].
  split; [exact Hc1|].
  split; [subst s2; cbn [clips]; apply lookup_insert_eq|].
  split; [subst s2; cbn [clips]; now rewrite !lookup_insert_ne by congruence|].
  split.
  { subst s2. cbn [tone Tone.parts Tone.with_parts].
    rewrite lookup_insert_ne by congruence. apply lookup_insert_eq. }
  split.
  { subst s2. cbn [tone Tone.parts Tone.with_parts Tone.toSeconds].
    apply lookup_insert_eq. }
  split.
  { subst part. cbn [Tone.part_events]. rewrite map_map. cbn [snd]. apply map_id. }
  split; [exact (stopClip_spec s2 h1 _ Hc1)|].
  cbn [ActiveClip.part tone Tone.parts Tone.with_parts].
  split.
  - rewrite !lookup_alter_eq. subst s2. cbn [tone Tone.parts Tone.with_parts].
    rewrite lookup_insert_ne by congruence. rewrite lookup_insert_eq. reflexivity.
  - rewrite !lookup_alter_ne by congruence. subst s2.
    cbn [tone Tone.parts Tone.with_parts Tone.toSeconds]. apply lookup_insert_eq.
Qed.

Lemma clips_play_independently_witness :
  exists h1 h2 p1 p2 part s1 s2 s3,
    createClip 0%nat (with_sample_clip (sample_ready zero)) = (Return h1, s1) /\
    createClip 0%nat s1 = (Return h2, s2) /\
    h1 <> h2 /\ p1 <> p2 /\
    stopClip h1 s2 = (Return tt, s3) /\
    Tone.parts (tone s3) !! p2 = Some part /\
    length (Tone.part_events part) = 3%nat.
Proof.
  destruct (clips_play_independently (with_sample_clip (sample_ready zero)) 0%nat
              (ActiveClip.mk sample_clip None) sample_events)
    as (h1 & h2 & p1 & p2 & part & s1 & s2 & s3 & E1 & E2 & Hh & Hp & _ & _ & _ & _ & _
        & Hev & E3 & _ & Hp2).
  - vm_compute. reflexivity.
  - vm_compute. reflexivity.
  - vm_compute. reflexivity.
  - exists h1, h2, p1, p2, part, s1, s2, s3.
    repeat (split; [assumption|]).
    rewrite <- (length_map snd), Hev. reflexivity.
Defined.

Lemma occurrences_NoDup (l : list NodeId) (n : NodeId) :
  NoDup l ->
  (In n l -> occurrences n (map Some l) = 1%nat) /\
  (~ In n l -> occurrences n (map Some l) = 0%nat).
Proof.
  induction l as [|a l IH]; intros Hnd.
  - split; [intros []|reflexivity].
  - apply NoDup_cons in Hnd. destruct Hnd as [Ha Hnd].
    destruct (IH Hnd) as [IH1 IH0].
    cbn [map occurrences In]. destruct (Nat.eqb_spec n a) as [->|Hne].
    + split; [|tauto]. intros _. rewrite IH0; [reflexivity|].
      intros Hin. apply Ha. now apply list_elem_of_In.
    + split.
      * intros [->|Hin]; [congruence|]. now rewrite IH1.
      * intros Hin. rewrite IH0; [reflexivity|tauto].
Qed.

(** [dispose] walks the voices first and the effects after them. *)
Lemma owned_engine_of (k : Rack) (i : bool) (b : number) :
  owned (engine_of k i b) = map Some (drop 4 (rack_nodes k) ++ take 4 (rack_nodes k)).
Proof. reflexivity. Qed.

Lemma occurrences_rack (k : Rack) (i : bool) (b : number) (n : NodeId) :
  NoDup (rack_nodes k) ->
  (In n (rack_nodes k) -> occurrences n (owned (engine_of k i b)) = 1%nat) /\
  (~ In n (rack_nodes k) -> occurrences n (owned (engine_of k i b)) = 0%nat).
Proof.
  intros Hnd. rewrite owned_engine_of.
  assert (Hp : drop 4 (rack_nodes k) ++ take 4 (rack_nodes k) ≡ₚ rack_nodes k).
  { rewrite Permutation_app_comm. now rewrite take_drop. }
  assert (Hin : In n (drop 4 (rack_nodes k) ++ take 4 (rack_nodes k)) <->
                In n (rack_nodes k)).
  { rewrite <- !list_elem_of_In. now rewrite Hp. }
  rewrite <- Hin. apply occurrences_NoDup. now rewrite Hp.
Qed.

(** X8.  On an engine that holds ten different nodes, [dispose] calls
    [dispose()] exactly once on each of them and on no other node: a node
    of the rack has one disposal more than before, every other node is
    what it was, and no node changes its kind, its output or its pending
    ramp. *)
Theorem dispose_releases_each_node_once (s : State) (k : Rack) (n : NodeId)
    (nd : Tone.Node) :
  this s = engine_of k (AudioEngine.initialized (this s)) (AudioEngine.bpm (this s)) ->
  NoDup (rack_nodes k) ->
  Tone.nodes (tone s) !! n = Some nd ->
  (In n (rack_nodes k) ->
   Tone.nodes (tone (snd (dispose s))) !! n = Some (Tone.dispose_node nd)) /\
  (~ In n (rack_nodes k) ->
   Tone.nodes (tone (snd (dispose s))) !! n = Some nd).
Proof.
  intros He Hnd Hn. rewrite dispose_spec. cbn [snd tone Tone.nodes Tone.with_nodes].
  destruct (released_lookup (owned (this s)) _ n nd Hn) as (nd' & H1 & D & K & O & R).
  rewrite H1. rewrite He in D.
  destruct (occurrences_rack k (AudioEngine.initialized (this s))
              (AudioEngine.bpm (this s)) n Hnd) as [Hin Hout].
  split; intros H; [rewrite (Hin H) in D | rewrite (Hout H) in D];
    destruct nd as [k0 o0 r0 d0], nd' as [k' o' r' d'];
    cbn [Tone.kind Tone.output Tone.ramp Tone.disposals] in D, K, O, R; subst;
    unfold Tone.dispose_node; cbn [Tone.kind Tone.output Tone.ramp Tone.disposals];
    do 2 f_equal; lia.
Qed.

Lemma dispose_releases_each_node_once_witness :
  Tone.nodes (tone (snd (dispose (sample_ready zero)))) !! 0%nat =
  Some (Tone.mkNode Tone.Filter (Some (Tone.ToNode 1%nat)) None 1).
Proof.
  destruct (dispose_releases_each_node_once (sample_ready zero) sample_rack 0%nat
              (patched Tone.Filter (Tone.ToNode 1%nat))) as [H _].
  - vm_compute. reflexivity.
  - apply NoDup_ListNoDup. vm_compute.
    repeat (constructor; [cbn [In]; lia|]). constructor.
  - vm_compute. reflexivity.
  - apply H. vm_compute. tauto.
Defined.

(** ** Calls of [init] that overlap *)

Lemma wired_elsewhere (m m' : gmap NodeId Tone.Node) (k : Rack) :
  wired m k ->
  (forall n, In n (rack_nodes k) -> m' !! n = m !! n) ->
  wired m' k.
Proof.
  intros W H. unfold wired in *. unfold NodeId in *.
  rewrite !H by (cbn [rack_nodes In]; tauto). exact W.
Qed.

Lemma wired_present (m : gmap NodeId Tone.Node) (k : Rack) (n : NodeId) :
  wired m k -> In n (rack_nodes k) -> m !! n <> None.
Proof.
  intros W Hin. unfold wired in W. cbn [rack_nodes In] in Hin.
  destruct W as (W1 & W2 & W3 & W4 & W5 & W6 & W7 & W8 & W9 & W10).
  decompose [or] Hin; subst; congruence || contradiction.
Qed.

Lemma released_absent (l : list (option NodeId)) (m : gmap NodeId Tone.Node)
    (n : NodeId) :
  m !! n = None -> released l m !! n = None.
Proof.
  revert m. induction l as [|o l IH]; intros m Hm; [exact Hm|].
  unfold released. cbn [fold_left]. fold (released l).
  destruct o as [n'|]; [|now apply IH].
  apply IH. unfold NodeId in *. now rewrite lookup_alter_None.
Qed.

Lemma dispose_spares_other_nodes (s : State) (k : Rack) (n : NodeId) :
  this s = engine_of k (AudioEngine.initialized (this s)) (AudioEngine.bpm (this s)) ->
  NoDup (rack_nodes k) ->
  ~ In n (rack_nodes k) ->
  Tone.nodes (tone (snd (dispose s))) !! n = Tone.nodes (tone s) !! n.
Proof.
  intros He Hnd Hout. rewrite dispose_spec. cbn [snd tone Tone.nodes Tone.with_nodes].
  destruct (Tone.nodes (tone s) !! n) as [nd|] eqn:Hn.
  - destruct (released_lookup (owned (this s)) _ n nd Hn) as (nd' & H1 & D & K & O & R).
    rewrite H1. rewrite He in D.
    destruct (occurrences_rack k (AudioEngine.initialized (this s))
                (AudioEngine.bpm (this s)) n Hnd) as [_ H0].
    rewrite (H0 Hout) in D.
    destruct nd as [k0 o0 r0 d0], nd' as [k' o' r' d'].
    cbn [Tone.kind Tone.output Tone.ramp Tone.disposals] in D, K, O, R. subst.
    do 2 f_equal. lia.
  - apply released_absent. exact Hn.
Qed.

(** X2.  [init] does its work once only if its calls do not overlap.  On a
    ready engine a call returns at once and changes nothing.  Where
    [Tone.start()] is refused, the continuation throws that rejection
    before it has built anything.  But the flag is checked before the
    [await] and set after it: two calls made on an engine that is not
    initialised both suspend, and where the audio output can be unlocked
    each continuation builds ten nodes of its own.  The engine is ready
    after the first, the second builds all the same, and the fields then
    hold the second ten.  The first ten stay wired to the output and no
    field holds them, so that [dispose] does not reach them. *)
Theorem overlapping_init_builds_twice (s : State) :
  (AudioEngine.initialized (this s) = true ->
   init s = (Return tt, s) /\ forall n, turn (Call OInit) (s, n) = (s, n)) /\
  (Tone.unlockable (tone s) = false ->
   init_resume s = (Throw Rejected, s) /\ forall n, turn Resume (s, S n) = (s, n)) /\
  (AudioEngine.initialized (this s) = false ->
   Tone.unlockable (tone s) = true ->
   exists s1 s2 k1 k2,
     turns [Call OInit; Call OInit; Resume] (s, 0%nat) = (s1, 1%nat) /\
     turn Resume (s1, 1%nat) = (s2, 0%nat) /\
     this s1 = engine_of k1 true (AudioEngine.bpm (this s)) /\
     this s2 = engine_of k2 true (AudioEngine.bpm (this s)) /\
     NoDup (rack_nodes k1 ++ rack_nodes k2) /\
     (forall n, In n (rack_nodes k1 ++ rack_nodes k2) -> Tone.nodes (tone s) !! n = None) /\
     wired (Tone.nodes (tone s2)) k1 /\
     wired (Tone.nodes (tone s2)) k2 /\
     (forall n, In n (rack_nodes k1) ->
        Tone.nodes (tone (snd (dispose s2))) !! n = Tone.nodes (tone s2) !! n)).
Proof.
  split; [|split].
  - intros Hi. split; [now apply init_already_ready|].
    intros n. cbn [turn fst]. now rewrite Hi.
  - intros Hu. split; [now apply init_resume_refused|].
    intros n. cbn [turn fst snd]. now rewrite init_resume_refused.
  - intros Hi Hu.
    destruct (init_resume_run s Hu) as (s1 & k1 & E1 & B1).
    destruct B1 as (T1 & N1 & F1 & W1 & O1 & _ & _ & _ & _ & U1 & _).
    assert (Hu1 : Tone.unlockable (tone s1) = true) by congruence.
    destruct (init_resume_run s1 Hu1) as (s2 & k2 & E2 & B2).
    destruct B2 as (T2 & N2 & F2 & W2 & O2 & _).
    assert (Hdis : forall n, In n (rack_nodes k1) -> ~ In n (rack_nodes k2)).
    { intros n H1 H2. apply (wired_present _ k1 n W1 H1). now apply F2. }
    exists s1, s2, k1, k2.
    split.
    { cbn [turns fold_left turn fst snd].
      repeat (rewrite Hi; cbn [turn fst snd]). now rewrite E1. }
    split; [cbn [turn fst snd]; now rewrite E2|].
    split; [exact T1|].
    split; [rewrite T2, T1; reflexivity|].
    split.
    { apply NoDup_app. split; [exact N1|]. split; [|exact N2].
      intros n H1 H2. apply (Hdis n); now apply list_elem_of_In. }
    split.
    { intros n Hin. apply in_app_or in Hin. destruct Hin as [H1|H2].
      - now apply F1.
      - rewrite <- O1; [now apply F2|].
        intros H1. exact (Hdis n H1 H2). }
    split.
    { apply (wired_elsewhere (Tone.nodes (tone s1))); [exact W1|].
      intros n H1. apply O2. now apply Hdis. }
    split; [exact W2|].
    intros n H1. apply (dispose_spares_other_nodes s2 k2).
    + rewrite T2. reflexivity.
    + exact N2.
    + now apply Hdis.
Qed.

Lemma overlapping_init_builds_twice_witness :
  exists s1 s2 k1 k2,
    turns [Call OInit; Call OInit; Resume] (sample_fresh zero, 0%nat) = (s1, 1%nat) /\
    turn Resume (s1, 1%nat) = (s2, 0%nat) /\
    this s2 = engine_of k2 true DEFAULT_BPM /\
    wired (Tone.nodes (tone s2)) k1 /\
    NoDup (rack_nodes k1 ++ rack_nodes k2).
Proof.
  destruct (overlapping_init_builds_twice (sample_fresh zero)) as (_ & _ & H).
  destruct H as (s1 & s2 & k1 & k2 & E1 & E2 & _ & T2 & N & _ & W1 & _);
    [reflexivity | reflexivity |].
  exists s1, s2, k1, k2. repeat (split; [assumption|]). assumption.
Defined.

(** ** Offsets of events on the grid *)

Section Offsets.
Local Open Scope Z_scope.

(** Two normalisations of the same grid value give the same number. *)
Lemma binary_normalize_grid (M1 e1 M2 e2 : Z) :
  0 <= M1 -> 0 <= M2 -> emin <= e1 -> emin <= e2 ->
  M1 * 2 ^ (e1 - emin) = M2 * 2 ^ (e2 - emin) ->
  binary_normalize prec emax M1 e1 false = binary_normalize prec emax M2 e2 false.
Proof.
  intros H1 H2 He1 He2 E.
  pose proof (pow2_pos (e1 - emin) ltac:(lia)).
  pose proof (pow2_pos (e2 - emin) ltac:(lia)).
  destruct M1 as [|p1|p1], M2 as [|p2|p2]; try lia; try reflexivity; try nia.
  unfold binary_normalize.
  destruct (binary_round_spec false p1 e1 He1) as (B1 & _).
  destruct (binary_round_spec false p2 e2 He2) as (B2 & _).
  cbv zeta in B1, B2. rewrite B1, B2, E. reflexivity.
Qed.

Lemma of_Z_finite (k : Z) :
  0 < k < 2 ^ 53 -> exists m e, of_Z k = S754_finite false m e.
Proof.
  intros Hk. destruct (of_Z_spec k ltac:(lia)) as (V & N & Hv).
  pose proof (scaled_lt_top k 0 ltac:(lia) ltac:(unfold emin; lia)) as Hlt.
  change (0 - emin) with 1074 in Hlt.
  pose proof (pow2_pos 1074 ltac:(lia)) as HP.
  destruct (of_Z k) as [s|[|]| |[|] m e]; try contradiction; cbn [Zval cond_Zopp] in Hv.
  - nia.
  - lia.
  - eauto.
Qed.

Lemma GRID_RESOLUTION_eq : GRID_RESOLUTION = S754_finite false (2 ^ 52) (-48).
Proof. reflexivity. Qed.

(** [k % 16] on integers that a number holds exactly. *)
Lemma rem_of_Z (k : Z) :
  0 <= k < 2 ^ 53 -> rem (of_Z k) GRID_RESOLUTION = of_Z (k mod 16).
Proof.
  intros Hk. destruct (Z.eq_dec k 0) as [->|Hk0]; [reflexivity|].
  destruct (of_Z_finite k ltac:(lia)) as (mx & ex & E).
  destruct (of_Z_spec k Hk) as (V & _ & Hv). rewrite E in V, Hv.
  pose proof (finite_valid _ _ _ V) as Hx.
  assert (Hemin : emin = -1074) by reflexivity.
  rewrite E, GRID_RESOLUTION_eq. unfold rem. cbn [cond_Zopp Zval] in *.
  set (ez := Z.min ex (-48)).
  set (N := Z.pos (fst (shl_align mx ex ez))).
  set (D := Z.pos (fst (shl_align (2 ^ 52) (-48) ez))).
  pose proof (aligned_val mx ex ez ltac:(lia)) as HN. fold N in HN.
  pose proof (aligned_val (2 ^ 52) (-48) ez ltac:(lia)) as HD.
  fold D in HD.
  assert (HN0 : 0 < N) by (unfold N; lia).
  assert (HD0 : 0 < D) by (unfold D; lia).
  rewrite Z.rem_mod_nonneg by lia.
  pose proof (Z.mod_pos_bound N D HD0) as [Hr0 Hr1].
  pose proof (Z.mod_pos_bound k 16 ltac:(lia)) as Hj.
  pose proof (pow2_pos (ez - emin) ltac:(lia)) as HP.
  unfold of_Z. apply binary_normalize_grid; try lia.
  rewrite <- Z.mul_mod_distr_r by lia.
  rewrite HN, HD, Hv.
  change (Z.pos (2 ^ 52) * 2 ^ (-48 - emin)) with (16 * 2 ^ 1074).
  change (0 - emin) with 1074.
  rewrite Z.mul_mod_distr_r by lia. reflexivity.
Qed.

(** The fractions 0/16 ... 15/16: zero, or a normal number of at most
    15/16. *)
Lemma sixteenths (j : Z) :
  0 <= j < 16 ->
  div (of_Z j) GRID_RESOLUTION = zero \/
  exists mx ex,
    div (of_Z j) GRID_RESOLUTION = S754_finite false mx ex /\
    2 ^ 52 <= Z.pos mx < 2 ^ 53 /\ -60 <= ex <= -53 /\
    16 * Z.pos mx <= 15 * 2 ^ (- ex).
Proof.
  intros Hj.
  assert (C : j = 0 \/ j = 1 \/ j = 2 \/ j = 3 \/ j = 4 \/ j = 5 \/ j = 6 \/ j = 7 \/
              j = 8 \/ j = 9 \/ j = 10 \/ j = 11 \/ j = 12 \/ j = 13 \/ j = 14 \/
              j = 15) by lia.
  decompose [or] C; subst j; [left; reflexivity|..];
    right; eexists _, _; (split; [vm_compute; reflexivity|]);
    repeat split; try (apply Z.leb_le; reflexivity); apply Z.ltb_lt; reflexivity.
Qed.

Lemma ltb_spec (x y : number) :
  valid x -> valid y -> nonneg x -> nonneg y ->
  ltb x y = true <-> Zval x < Zval y.
Proof.
  intros Vx Vy Nx Ny. unfold ltb, SFltb.
  rewrite (compare_spec x y Vx Vy Nx Ny).
  destruct (Z.compare_spec (Zval x) (Zval y)); split; intros; try lia; try discriminate;
    reflexivity.
Qed.

(** Four facts of integer arithmetic used below. *)
Lemma arith_gap (mx my P4 : Z) :
  0 < my -> 16 * mx <= 15 * (16 * P4) -> mx * my + my * P4 <= my * (16 * P4).
Proof. intros H1 H2. nia. Qed.

Lemma arith_small_sub (U A P4 my : Z) :
  0 < U -> 0 < A -> U * A = 16 * P4 -> 16 < my * A -> U < my * P4.
Proof.
  intros HU HA E H.
  assert (16 * U < 16 * (my * P4)); [|lia].
  replace (16 * (my * P4)) with (my * A * U)
    by (rewrite <- Z.mul_assoc, (Z.mul_comm A U), E; ring).
  nia.
Qed.

Lemma arith_small_norm (N D my P4 : Z) :
  0 < N <= 2 * D -> D <= my -> 4 <= P4 -> N < my * P4.
Proof. intros. nia. Qed.

Lemma arith_final (m1 X T A N M my : Z) :
  0 < T -> 0 < A -> 0 <= m1 ->
  X * T = A * N -> m1 * N <= M + N -> N < my * T - M ->
  m1 * X < my * A.
Proof.
  intros HT HA Hm E H1 H2.
  apply Z.mul_lt_mono_pos_r with T; [exact HT|].
  replace (m1 * X * T) with (A * (m1 * N)) by (rewrite <- Z.mul_assoc, E; ring).
  replace (my * A * T) with (A * (my * T)) by ring.
  apply Z.mul_lt_mono_pos_l; [exact HA|]. lia.
Qed.

(** The product of a normal number of at most 15/16 and a number [y]
    that is not among the sixteen smallest is below [y]. *)
Lemma mul_below (mx : positive) (ex : Z) (y : number) :
  2 ^ 52 <= Z.pos mx < 2 ^ 53 -> -1000 <= ex <= -53 ->
  16 * Z.pos mx <= 15 * 2 ^ (- ex) ->
  valid y -> fin_pos y -> 16 < Zval y ->
  let z := mul (S754_finite false mx ex) y in
  valid z /\ nonneg z /\ Zval z < Zval y.
Proof.
  intros Hmx Hex H15 Vy Py Hy.
  destruct y as [|[|]| |[|] my ey]; try contradiction.
  pose proof (finite_valid _ _ _ Vy) as (Hey & Hmy & Hny).
  assert (Hemin : emin = -1074) by reflexivity.
  cbn [Zval cond_Zopp] in Hy |- *.
  unfold mul, SFmul. cbn [xorb].
  set (M := Z.pos (mx * my)). set (e' := ex + ey).
  assert (He' : e' = ex + ey) by reflexivity.
  assert (HM : M = Z.pos mx * Z.pos my) by (unfold M; lia).
  assert (HM52 : 2 ^ 52 <= M).
  { rewrite HM. apply Z.le_trans with (Z.pos mx * 1); [lia|].
    apply Z.mul_le_mono_nonneg_l; lia. }
  assert (HM0 : 0 < M) by lia.
  destruct (Zdigits2_bounds M ltac:(lia)) as (Hd0 & Hd1 & Hd2).
  specialize (Hd2 HM0).
  set (dg := Zdigits2 M) in *.
  assert (Hdg : 53 <= dg).
  { destruct (Z.lt_ge_cases dg 53) as [Hlt|]; [|assumption].
    pose proof (pow2_le dg 52 ltac:(lia)). lia. }
  assert (Hpre : e' <= fexp (dg + e')) by (unfold fexp; lia).
  destruct (binary_round_aux_pack false M e' loc_Exact ltac:(lia) Hpre)
    as (Hpk & Hm1 & Hb1 & Hb2 & Hb3).
  cbv zeta in Hpk, Hm1, Hb1, Hb2, Hb3. fold dg in Hpk, Hm1, Hb1, Hb2, Hb3.
  set (n := fexp (dg + e') - e') in *.
  assert (Hn : n = Z.max (dg + e' - 53) emin - e') by reflexivity.
  set (m1 := round_nearest_even _ _) in *.
  cbv zeta. rewrite Hpk.
  split; [apply pack_valid; lia|]. split; [apply pack_nonneg|].
  rewrite pack_Zval by lia.
  apply Z.le_lt_trans with (m1 * 2 ^ (e' + n - emin)); [apply Z.le_min_l|].
  (* everything in units of 2^(ex + emin) *)
  set (t := - ex). set (a := ey - emin).
  assert (Ht : t = - ex) by reflexivity.
  assert (Ha : a = ey - emin) by reflexivity.
  fold t in H15. fold a in Hy.
  assert (Hn0 : 0 <= n) by lia.
  replace (e' + n - emin) with (a + n - t) by lia.
  assert (Hpn : 0 < 2 ^ n) by (apply pow2_pos; lia).
  assert (Hpa : 0 < 2 ^ a) by (apply pow2_pos; lia).
  assert (Hpt : 0 < 2 ^ t) by (apply pow2_pos; lia).
  assert (Hsplit : 2 ^ (a + n - t) * 2 ^ t = 2 ^ a * 2 ^ n).
  { rewrite <- !Z.pow_add_r by lia. f_equal. lia. }
  assert (Hfloor : m1 * 2 ^ n <= M + 2 ^ n).
  { apply Z.le_trans with ((M / 2 ^ n + 1) * 2 ^ n).
    - apply Z.mul_le_mono_nonneg_r; lia.
    - pose proof (Z.mul_div_le M (2 ^ n) Hpn). lia. }
  assert (Ht4 : 2 ^ t = 16 * 2 ^ (t - 4)).
  { replace t with (4 + (t - 4)) at 1 by lia.
    rewrite Z.pow_add_r by lia. reflexivity. }
  assert (Hp4 : 4 <= 2 ^ (t - 4)).
  { change 4 with (2 ^ 2). apply pow2_le. lia. }
  assert (Hgap : Z.pos mx * Z.pos my + Z.pos my * 2 ^ (t - 4) <= Z.pos my * 2 ^ t).
  { rewrite Ht4. apply arith_gap; [lia|]. rewrite <- Ht4. exact H15. }
  assert (Hsmall : 2 ^ n < Z.pos my * 2 ^ (t - 4)).
  { destruct (Z.max_spec (dg + e' - 53) emin) as [[Hc Hmax]|[Hc Hmax]].
    - (* the result is subnormal: the shift is t - a *)
      assert (Hna : n = t - a) by lia. rewrite Hna.
      apply (arith_small_sub _ (2 ^ a)); try assumption.
      + apply pow2_pos. lia.
      + rewrite <- Z.pow_add_r, <- Ht4 by lia. f_equal. lia.
    - (* the result is normal: the shift is the number of digits above 53 *)
      assert (Hnd : n = dg - 53) by lia. rewrite Hnd.
      destruct (Zdigits2_bounds (Z.pos my) ltac:(lia)) as (Hdy0 & Hdy1 & Hdy).
      specialize (Hdy ltac:(lia)).
      set (dy := Zdigits2 (Z.pos my)) in *.
      assert (Hdy2 : 1 <= dy).
      { destruct (Z.eq_dec dy 0) as [E0|]; [|lia].
        rewrite E0 in Hdy1. cbn in Hdy1. lia. }
      assert (Hdgy : dg - 53 <= dy).
      { destruct (Z.lt_ge_cases dy (dg - 53)) as [Hlt|]; [|lia].
        pose proof (pow2_le (dy + 53) (dg - 1) ltac:(lia)) as Hle.
        rewrite Z.pow_add_r in Hle by lia.
        assert (Z.pos mx * Z.pos my < 2 ^ 53 * 2 ^ dy); [|lia].
        apply Z.mul_lt_mono_nonneg; lia. }
      apply (arith_small_norm _ (2 ^ (dy - 1))); [|exact Hdy|exact Hp4].
      split; [apply pow2_pos; lia|].
      replace (2 * 2 ^ (dy - 1)) with (2 ^ dy).
      + apply pow2_le. lia.
      + replace dy with (1 + (dy - 1)) at 1 by lia.
        rewrite Z.pow_add_r by lia. reflexivity. }
  apply (arith_final m1 _ (2 ^ t) _ (2 ^ n) M); try assumption; lia.
Qed.

Lemma nonneg_Zval (x : number) : nonneg x -> 0 <= Zval x.
Proof.
  destruct x as [|[|]| |[|] m e]; try contradiction; intros _; cbn [Zval cond_Zopp].
  - lia.
  - pose proof top_pos. lia.
  - pose proof (Z.pow_nonneg 2 (e - emin) ltac:(lia)). lia.
Qed.

Lemma offsetOf_of_Z (m : number) (k : Z) (p : PadId.t) (v : number) :
  0 <= k < 2 ^ 53 ->
  offsetOf m (LoopEvent.mk (of_Z k) p v) =
  mul (div (of_Z (k mod 16)) GRID_RESOLUTION) m.
Proof. intros Hk. unfold offsetOf. cbn [LoopEvent.tick]. now rewrite rem_of_Z. Qed.

Lemma offsetOf_of_Z_range (m : number) (k : Z) (p : PadId.t) (v : number) :
  valid m -> fin_pos m -> 16 < Zval m -> 0 <= k < 2 ^ 53 ->
  offset_in_measure m (LoopEvent.mk (of_Z k) p v).
Proof.
  intros Vm Pm Hm Hk.
  pose proof (Z.mod_pos_bound k 16 ltac:(lia)) as Hj.
  unfold offset_in_measure. rewrite offsetOf_of_Z by exact Hk.
  destruct (sixteenths (k mod 16) Hj) as [E|(mx & ex & E & Hmx & Hex & H15)];
    rewrite E.
  - destruct m as [|[|]| |[|] my ey]; try contradiction. split; reflexivity.
  - destruct (mul_below mx ex m Hmx ltac:(lia) H15 Vm Pm Hm) as (Vz & Nz & Hlt).
    assert (Nm : nonneg m) by (destruct m as [|[|]| |[|]]; try contradiction; exact I).
    split.
    + apply leb_spec; [reflexivity|exact Vz|exact I|exact Nz|].
      apply (nonneg_Zval _ Nz).
    + apply ltb_spec; assumption.
Qed.

(** X9.  For an event whose tick is a whole number [k >= 0] (below 2^53,
    so that the number holds it exactly) and a measure whose length is a
    finite number above 16 * 2^-1074, the offset [createClip] computes
    lies in [0, measureSeconds), and it is the offset of the step
    [k mod 16]: events a whole number of bars apart get the same offset. *)
Theorem offsetOf_whole_tick (m : number) (k : Z) (p : PadId.t) (v : number) :
  valid m -> fin_pos m -> 16 < Zval m -> 0 <= k < 2 ^ 53 ->
  offset_in_measure m (LoopEvent.mk (of_Z k) p v) /\
  offsetOf m (LoopEvent.mk (of_Z k) p v) =
  offsetOf m (LoopEvent.mk (of_Z (k mod 16)) p v).
Proof.
  intros Vm Pm Hm Hk.
  pose proof (Z.mod_pos_bound k 16 ltac:(lia)) as Hj.
  split; [now apply offsetOf_of_Z_range|].
  rewrite !offsetOf_of_Z by lia. now rewrite Z.mod_mod by lia.
Qed.

Lemma offsetOf_whole_tick_witness :
  offset_in_measure (seconds_at DEFAULT_BPM "1m")
    (LoopEvent.mk (of_Z 23) PadId.kick (of_Z 1)) /\
  offsetOf (seconds_at DEFAULT_BPM "1m") (LoopEvent.mk (of_Z 23) PadId.kick (of_Z 1)) =
  offsetOf (seconds_at DEFAULT_BPM "1m") (LoopEvent.mk (of_Z 7) PadId.kick (of_Z 1)).
Proof.
  apply (offsetOf_whole_tick (seconds_at DEFAULT_BPM "1m") 23 PadId.kick (of_Z 1)).
  - vm_compute. reflexivity.
  - vm_compute. exact I.
  - vm_compute. reflexivity.
  - split; [lia | reflexivity].
Defined.

End Offsets.

(** ** Tempos at which quantisation is exact *)

Section BinarySubdivision.
Local Open Scope Z_scope.

(** Rounding moves a grid value by at most half of the last place. *)
Lemma RNE_error (y : Z) : 0 < y -> 2 * Z.abs (RNE y - y) <= 2 ^ lost_bits y.
Proof.
  intros Hy. unfold RNE, rne_shift.
  assert (Hs : 0 <= lost_bits y) by (unfold lost_bits; lia).
  set (P := 2 ^ lost_bits y).
  assert (HP : 0 < P) by (apply pow2_pos; exact Hs).
  pose proof (Z.div_mod y P ltac:(lia)) as Hdm.
  pose proof (Z.mod_pos_bound y P HP) as Hr.
  set (q := y / P) in *. set (r := y mod P) in *.
  destruct ((2 * r <? P) || (2 * r =? P) && Z.even q) eqn:Hc.
  - assert (2 * r <= P).
    { apply orb_true_iff in Hc. destruct Hc as [Hc|Hc].
      - apply Z.ltb_lt in Hc. lia.
      - apply andb_true_iff in Hc. destruct Hc as [Hc _]. apply Z.eqb_eq in Hc. lia. }
    lia.
  - apply orb_false_iff in Hc. destruct Hc as [Hc _]. apply Z.ltb_ge in Hc. lia.
Qed.

(** A grid value within a quarter of a last place of [2^j] rounds to
    [2^j]. *)
Lemma RNE_near_pow2 (j z : Z) :
  54 <= j -> 2 ^ j - 2 ^ (j - 54) <= z <= 2 ^ j + 2 ^ (j - 54) -> RNE z = 2 ^ j.
Proof.
  intros Hj Hz.
  set (A := 2 ^ (j - 54)) in *.
  assert (HA : 0 < A) by (apply pow2_pos; lia).
  assert (E54 : 2 ^ j = 2 ^ 54 * A).
  { unfold A. replace j with (54 + (j - 54)) at 1 by lia. now rewrite Z.pow_add_r by lia. }
  assert (E53 : 2 ^ (j - 53) = 2 * A).
  { unfold A. replace (j - 53) with (1 + (j - 54)) by lia.
    now rewrite Z.pow_add_r by lia. }
  assert (E52 : 2 ^ (j - 52) = 4 * A).
  { unfold A. replace (j - 52) with (2 + (j - 54)) by lia.
    now rewrite Z.pow_add_r by lia. }
  assert (E1 : 2 ^ (j - 1) = 2 ^ 53 * A).
  { unfold A. replace (j - 1) with (53 + (j - 54)) by lia. now rewrite Z.pow_add_r by lia. }
  assert (E2 : 2 ^ (j + 1) = 2 ^ 55 * A).
  { unfold A. replace (j + 1) with (55 + (j - 54)) by lia. now rewrite Z.pow_add_r by lia. }
  destruct (Z.lt_ge_cases z (2 ^ j)) as [Hlt|Hge].
  - assert (Hl : Z.log2 z = j - 1).
    { apply Z.log2_unique; [lia|]. replace (Z.succ (j - 1)) with j by lia. lia. }
    unfold RNE, lost_bits. rewrite Hl.
    replace (Z.max (j - 1 + 1 - 53) 0) with (j - 53) by lia.
    unfold rne_shift. rewrite E53.
    assert (Hq : z / (2 * A) = 2 ^ 53 - 1 /\ z mod (2 * A) = z - (2 ^ 53 - 1) * (2 * A)).
    { assert (Hu : z = (2 * A) * (2 ^ 53 - 1) + (z - (2 ^ 53 - 1) * (2 * A))) by ring.
      pose proof (Z.div_mod_unique (2 * A) (z / (2 * A)) (2 ^ 53 - 1)
                    (z mod (2 * A)) (z - (2 ^ 53 - 1) * (2 * A))
                    ltac:(left; apply Z.mod_pos_bound; lia) ltac:(left; lia)) as H.
      rewrite <- Z.div_mod in H by lia. specialize (H Hu). lia. }
    destruct Hq as [-> ->].
    replace (2 * (z - (2 ^ 53 - 1) * (2 * A)) <? 2 * A) with false
      by (symmetry; apply Z.ltb_ge; lia).
    change (Z.even (2 ^ 53 - 1)) with false. rewrite andb_false_r. cbn [orb].
    rewrite E54. ring.
  - assert (Hl : Z.log2 z = j).
    { apply Z.log2_unique; [lia|]. replace (Z.succ j) with (j + 1) by lia. lia. }
    unfold RNE, lost_bits. rewrite Hl.
    replace (Z.max (j + 1 - 53) 0) with (j - 52) by lia.
    unfold rne_shift. rewrite E52.
    assert (Hq : z / (4 * A) = 2 ^ 52 /\ z mod (4 * A) = z - 2 ^ 52 * (4 * A)).
    { assert (Hu : z = (4 * A) * 2 ^ 52 + (z - 2 ^ 52 * (4 * A))) by ring.
      pose proof (Z.div_mod_unique (4 * A) (z / (4 * A)) (2 ^ 52)
                    (z mod (4 * A)) (z - 2 ^ 52 * (4 * A))
                    ltac:(left; apply Z.mod_pos_bound; lia) ltac:(left; lia)) as H.
      rewrite <- Z.div_mod in H by lia. specialize (H Hu). lia. }
    destruct Hq as [-> ->].
    replace (2 * (z - 2 ^ 52 * (4 * A)) <? 4 * A) with true
      by (symmetry; apply Z.ltb_lt; lia).
    cbn [orb]. rewrite E54. ring.
Qed.

(** The two roundings of the quantiser, on a grid of step [2^j]. *)
Lemma quantise_pow2 (j mn t : Z) :
  0 <= j -> 0 <= t -> 0 <= mn < 2 ^ 53 ->
  mn * 2 ^ t < 2 ^ 52 * 2 ^ j ->
  (mn * 2 ^ t) mod 2 ^ j <> 0 ->
  RNE (mn * 2 ^ t + RNE (2 ^ j - (mn * 2 ^ t) mod 2 ^ j)) =
  mn * 2 ^ t - (mn * 2 ^ t) mod 2 ^ j + 2 ^ j.
Proof.
  intros Hj Ht Hmn Hlt Hr.
  set (Zn := mn * 2 ^ t) in *. set (S := 2 ^ j) in *.
  assert (HS : 0 < S) by (apply pow2_pos; exact Hj).
  assert (HT : 0 < 2 ^ t) by (apply pow2_pos; exact Ht).
  pose proof (Z.mod_pos_bound Zn S HS) as Hm.
  destruct (Z.lt_ge_cases Zn S) as [Hsmall|Hbig].
  - (* before the first boundary *)
    assert (Hn0 : 0 <= Zn) by (unfold Zn; lia).
    rewrite (Z.mod_small Zn S) in * by lia.
    replace (Zn - Zn + S) with S by lia.
    destruct (Z.le_gt_cases j 53) as [Hj53|Hj54].
    + assert (HS53 : S <= 2 ^ 53) by (apply pow2_le; lia).
      replace (S - Zn) with ((S - Zn) * 2 ^ 0) by (rewrite Z.pow_0_r; lia).
      rewrite RNE_exact by lia. rewrite Z.pow_0_r, Z.mul_1_r.
      replace (Zn + (S - Zn)) with (1 * 2 ^ j) by (fold S; lia).
      rewrite RNE_exact by lia. fold S. lia.
    + pose proof (RNE_error (S - Zn) ltac:(lia)) as He.
      assert (Hl : lost_bits (S - Zn) <= j - 53).
      { unfold lost_bits.
        assert (Z.log2 (S - Zn) < j) by (apply Z.log2_lt_pow2; fold S; lia). lia. }
      assert (0 <= lost_bits (S - Zn)) by (unfold lost_bits; lia).
      pose proof (pow2_le (lost_bits (S - Zn)) (j - 53) ltac:(lia)) as Hp.
      assert (E53 : 2 ^ (j - 53) = 2 * 2 ^ (j - 54)).
      { replace (j - 53) with (1 + (j - 54)) by lia. now rewrite Z.pow_add_r by lia. }
      apply RNE_near_pow2; [lia|]. fold S. lia.
  - (* at or after the first boundary *)
    assert (Htj : t < j).
    { destruct (Z.lt_ge_cases t j) as [|Hge]; [assumption|]. exfalso. apply Hr.
      unfold Zn, S. replace t with ((t - j) + j) by lia.
      rewrite Z.pow_add_r, Z.mul_assoc by lia. apply Z.mod_mul. lia. }
    assert (Hjt : j - t <= 52).
    { assert (Hp : 2 ^ j < 2 ^ (53 + t)).
      { rewrite Z.pow_add_r by lia. fold S.
        apply Z.le_lt_trans with Zn; [exact Hbig|].
        unfold Zn. apply Z.mul_lt_mono_pos_r; lia. }
      apply Z.pow_lt_mono_r_iff in Hp; lia. }
    assert (ES : S = 2 ^ (j - t) * 2 ^ t).
    { unfold S. rewrite <- Z.pow_add_r by lia. f_equal. lia. }
    assert (HJ : 0 < 2 ^ (j - t)) by (apply pow2_pos; lia).
    assert (Er : Zn mod S = (mn mod 2 ^ (j - t)) * 2 ^ t).
    { unfold Zn. rewrite ES. apply Z.mul_mod_distr_r; lia. }
    pose proof (Z.mod_pos_bound mn (2 ^ (j - t)) HJ) as Hc.
    pose proof (pow2_le (j - t) 52 ltac:(lia)) as H52.
    replace (S - Zn mod S) with ((2 ^ (j - t) - mn mod 2 ^ (j - t)) * 2 ^ t)
      by (rewrite Er, ES; ring).
    rewrite RNE_exact by lia.
    pose proof (Z.div_mod Zn S ltac:(lia)) as Hdm.
    assert (Hq : Zn / S < 2 ^ 52).
    { apply Z.div_lt_upper_bound; [exact HS|]. fold S in Hlt. lia. }
    assert (Hq0 : 0 <= Zn / S) by (apply Z.div_pos; lia).
    replace (Zn + (2 ^ (j - t) - mn mod 2 ^ (j - t)) * 2 ^ t)
      with ((Zn / S + 1) * 2 ^ j).
    + rewrite RNE_exact by lia. fold S. rewrite Er. rewrite Er in Hdm. lia.
    + fold S. rewrite Er in Hdm. rewrite ES at 2. lia.
Qed.


Lemma nextTickSeconds_pow2 (now subdivision : number) (j : Z) :
  valid now -> fin_nonneg now -> valid subdivision -> fin_pos subdivision ->
  Zval subdivision = 2 ^ j ->
  Zval now < 2 ^ 52 * Zval subdivision ->
  Zval now + Zval subdivision < top ->
  let a := nextTickSeconds now subdivision in
  valid a /\ fin_nonneg a /\
  Zval a mod Zval subdivision = 0 /\
  Zval now <= Zval a < Zval now + Zval subdivision /\
  (a = now <-> Zval now mod Zval subdivision = 0).
Proof.
  intros Vn Fn Vs Ps Ej Hlt Htop a.
  destruct (nextTickSeconds_spec now subdivision Vn Fn Vs Ps) as (Va & Na & Hb & Hon & Hoff).
  fold a in Va, Na, Hb, Hon, Hoff.
  pose proof (subdivision_grid subdivision Vs Ps) as Hs.
  pose proof (Zval_fin_range now Vn Fn) as Hn.
  assert (Hj : 0 <= j).
  { destruct (Z.lt_ge_cases j 0) as [Hneg|]; [|assumption].
    rewrite Z.pow_neg_r in Ej by exact Hneg. lia. }
  pose proof (Z.mod_pos_bound (Zval now) (Zval subdivision) ltac:(lia)) as Hm.
  destruct (Z.eq_dec (Zval now mod Zval subdivision) 0) as [Hr|Hr].
  - specialize (Hon Hr). rewrite Hon.
    repeat split; auto; lia.
  - specialize (Hoff Hr).
    assert (HT : RNE (Zval now + RNE (Zval subdivision - Zval now mod Zval subdivision)) =
                 Zval now - Zval now mod Zval subdivision + Zval subdivision).
    { destruct now as [|[|]| |[|] mn en]; try contradiction.
      pose proof (finite_valid _ _ _ Vn) as (He & Hmn & _).
      cbn [Zval cond_Zopp] in *. rewrite Ej in *.
      apply quantise_pow2; try assumption; lia. }
    rewrite HT, Z.min_l in Hoff by lia.
    split; [exact Va|]. split; [apply nonneg_below_top; [exact Na|lia]|].
    split.
    { rewrite Hoff.
      pose proof (Z.div_mod (Zval now) (Zval subdivision) ltac:(lia)) as Hdm.
      replace (Zval now - Zval now mod Zval subdivision + Zval subdivision)
        with ((Zval now / Zval subdivision + 1) * Zval subdivision) by lia.
      apply Z.mod_mul. lia. }
    split; [lia|].
    split; [|intros H0; contradiction].
    intros E. rewrite E in Hoff. lia.
Qed.

(** X10.  Where the sixteenth note is a power of two in seconds (0.125 s
    at 120 bpm, 0.25 s at 60 bpm), the quantiser does not round.  On a
    ready engine, at a transport time [now >= 0] below 2^52 subdivisions
    (and with [now + subdivision] finite), [triggerPad] schedules the pad
    at the least multiple of the subdivision that is not before [now]:
    a multiple, at or after [now], less than one subdivision later, and
    equal to [now] exactly when [now] is a multiple itself. *)
Theorem triggerPad_exact_on_binary_grid (s : State) (padId : PadId.t)
    (velocity : option number) (j : Z) :
  let now := Tone.seconds (Tone.transport (tone s)) in
  let subdivision := Tone.toSeconds (tone s) "16n" in
  AudioEngine.initialized (this s) = true ->
  valid now -> fin_nonneg now -> valid subdivision -> fin_pos subdivision ->
  Zval subdivision = 2 ^ j ->
  Zval now < 2 ^ 52 * Zval subdivision ->
  Zval now + Zval subdivision < top ->
  exists q s',
    triggerPad padId velocity s = (Return q, s') /\
    Zval (QuantizedTrigger.scheduledAt q) mod Zval subdivision = 0 /\
    Zval now <= Zval (QuantizedTrigger.scheduledAt q) < Zval now + Zval subdivision /\
    aligned_as_specified now subdivision.
Proof.
  intros now subdivision Hr Vn Fn Vs Ps Ej Hlt Htop.
  pose proof (triggerPad_run s padId velocity Hr) as Ht. cbv zeta in Ht.
  fold now subdivision in Ht.
  eexists _, _. split; [exact Ht|]. cbn [QuantizedTrigger.scheduledAt].
  destruct (nextTickSeconds_pow2 now subdivision j Vn Fn Vs Ps Ej Hlt Htop)
    as (Va & Fa & Hmul & Hb & Hiff).
  split; [exact Hmul|]. split; [exact Hb|].
  unfold aligned_as_specified. split; [|split].
  - apply leb_spec; auto using fin_nonneg_nonneg. lia.
  - lia.
  - exact Hiff.
Qed.

Lemma triggerPad_exact_on_binary_grid_witness :
  exists q s',
    triggerPad PadId.kick None (ready_at (of_Z 120) (decimal 3 10)) = (Return q, s') /\
    aligned_as_specified (decimal 3 10) (decimal 125 1000).
Proof.
  destruct (triggerPad_exact_on_binary_grid (ready_at (of_Z 120) (decimal 3 10))
              PadId.kick None 1071)
    as (q & s' & Ht & _ & _ & Ha).
  - vm_compute. reflexivity.
  - vm_compute. reflexivity.
  - vm_compute. exact I.
  - vm_compute. reflexivity.
  - vm_compute. exact I.
  - vm_compute. reflexivity.
  - vm_compute. reflexivity.
  - vm_compute. reflexivity.
  - exists q, s'. split; [exact Ht | exact Ha].
Defined.

End BinarySubdivision.

(** ** The step at such a tempo *)

Section BinaryStep.
Local Open Scope Z_scope.

(** Division by a power of two is exact when the quotient is a whole
    number below 2^53. *)
Lemma div_exact (ma : positive) (ea es q0 : Z) :
  valid (S754_finite false ma ea) -> valid (S754_finite false (2 ^ 52) es) ->
  0 < q0 < 2 ^ 53 ->
  Zval (S754_finite false ma ea) = q0 * Zval (S754_finite false (2 ^ 52) es) ->
  div (S754_finite false ma ea) (S754_finite false (2 ^ 52) es) = of_Z q0.
Proof.
  intros Va Vs Hq Hv.
  pose proof (finite_valid _ _ _ Va) as (Hea & Hma & _).
  pose proof (finite_valid _ _ _ Vs) as (Hes & _ & _).
  assert (Hemin : emin = -1074) by reflexivity.
  cbn [Zval cond_Zopp] in Hv.
  set (g := Z.log2 q0).
  assert (Hg : 0 <= g < 53).
  { split; [apply Z.log2_nonneg|]. apply Z.log2_lt_pow2; lia. }
  assert (Hl : 0 <= Z.log2 (Z.pos ma) < 53).
  { split; [apply Z.log2_nonneg|]. apply Z.log2_lt_pow2; lia. }
  assert (Hlog : Z.log2 (Z.pos ma) + ea = g + 52 + es).
  { apply (f_equal Z.log2) in Hv. rewrite log2_scaled in Hv by lia.
    replace (q0 * (Z.pos (2 ^ 52) * 2 ^ (es - emin)))
      with (q0 * 2 ^ (52 + (es - emin))) in Hv
      by (rewrite (Z.pow_add_r 2 52) by lia; reflexivity).
    rewrite log2_scaled in Hv by lia. fold g in Hv. lia. }
  assert (Hrel : Z.pos ma * 2 ^ (ea - es) = q0 * 2 ^ 52).
  { pose proof (pow2_pos (es - emin) ltac:(lia)) as HP.
    apply (Z.mul_cancel_r _ _ (2 ^ (es - emin))); [lia|].
    rewrite <- Z.mul_assoc, <- Z.pow_add_r by lia.
    replace (ea - es + (es - emin)) with (ea - emin) by lia.
    rewrite Hv. change (Z.pos (2 ^ 52)) with (2 ^ 52). ring. }
  (* the two sides have the same mantissa and exponent *)
  assert (HR : of_Z q0 = pack false (q0 * 2 ^ (52 - g)) (g - 52)).
  { unfold of_Z, binary_normalize. destruct q0 as [|p0|p0]; try lia.
    destruct (binary_round_spec false p0 0 ltac:(lia)) as (Hbr & _).
    cbv zeta in Hbr. rewrite Hbr.
    assert (Hlost : lost_bits (Z.pos p0 * 2 ^ (0 - emin)) = g + 1022).
    { unfold lost_bits. rewrite log2_scaled by lia. fold g. lia. }
    rewrite Hlost.
    replace (Z.pos p0 * 2 ^ (0 - emin))
      with (Z.pos p0 * 2 ^ (52 - g) * 2 ^ (g + 1022))
      by (rewrite <- Z.mul_assoc, <- Z.pow_add_r by lia; f_equal; f_equal; lia).
    replace (g + 1022) with (0 + (g + 1022)) at 2 by lia.
    rewrite rne_shift_scale, rne_shift_0 by lia.
    f_equal. lia. }
  rewrite HR.
  unfold div, SFdiv, SFdiv_core_binary. cbn [xorb]. rewrite fexp_eq.
  rewrite (Zdigits2_log2 (Z.pos ma)) by lia.
  change (Zdigits2 (Z.pos (2 ^ 52))) with 53.
  assert (He' : Z.min (fexp (Z.log2 (Z.pos ma) + 1 + ea - (53 + es))) (ea - es) = g - 53)
    by (unfold fexp; lia).
  rewrite He'.
  assert (Hs : ea - es - (g - 53) = ea - es + (53 - g)) by lia.
  rewrite Hs.
  destruct (ea - es + (53 - g)) as [|p|p] eqn:Es; try lia.
  rewrite Z.shiftl_mul_pow2 by lia. rewrite <- Es.
  assert (Hm' : Z.pos ma * 2 ^ (ea - es + (53 - g)) = q0 * 2 ^ (53 - g) * Z.pos (2 ^ 52)).
  { rewrite Z.pow_add_r, Z.mul_assoc, Hrel by lia.
    change (Z.pos (2 ^ 52)) with (2 ^ 52). ring. }
  rewrite Hm'.
  destruct (Z.div_eucl (q0 * 2 ^ (53 - g) * Z.pos (2 ^ 52)) (Z.pos (2 ^ 52)))
    as [q r] eqn:Hqr.
  assert (Hq' : q = q0 * 2 ^ (53 - g)).
  { transitivity (q0 * 2 ^ (53 - g) * Z.pos (2 ^ 52) / Z.pos (2 ^ 52)).
    - unfold Z.div. now rewrite Hqr.
    - apply Z.div_mul. lia. }
  assert (Hr' : r = 0).
  { transitivity (q0 * 2 ^ (53 - g) * Z.pos (2 ^ 52) mod Z.pos (2 ^ 52)).
    - unfold Z.modulo. now rewrite Hqr.
    - apply Z.mod_mul. lia. }
  subst q r. change (new_location (Z.pos (2 ^ 52)) 0) with loc_Exact.
  pose proof (pow2_pos (53 - g) ltac:(lia)) as HP.
  assert (Hdig : Zdigits2 (q0 * 2 ^ (53 - g)) = 54).
  { rewrite Zdigits2_log2, log2_scaled by lia. fold g. lia. }
  assert (Hpre : g - 53 <= fexp (Zdigits2 (q0 * 2 ^ (53 - g)) + (g - 53)))
    by (rewrite Hdig; unfold fexp; lia).
  destruct (binary_round_aux_pack false (q0 * 2 ^ (53 - g)) (g - 53) loc_Exact
              ltac:(lia) Hpre) as (Hpk & _).
  cbv zeta in Hpk. rewrite Hpk.
  rewrite (shr_rne (q0 * 2 ^ (53 - g)) (g - 53)) by (rewrite ?Hdig; unfold fexp; lia).
  rewrite Hdig.
  replace (fexp (54 + (g - 53)) - (g - 53)) with 1 by (unfold fexp; lia).
  replace (q0 * 2 ^ (53 - g)) with (q0 * 2 ^ (52 - g) * 2 ^ 1)
    by (rewrite <- Z.mul_assoc, <- Z.pow_add_r by lia; f_equal; f_equal; lia).
  replace 1 with (0 + 1) at 2 by lia.
  rewrite rne_shift_scale, rne_shift_0 by lia.
  f_equal. lia.
Qed.

(** [Math.round] leaves a whole number as it is. *)
Lemma round_of_Z (k : Z) : 0 <= k < 2 ^ 53 -> round (of_Z k) = of_Z k.
Proof.
  intros Hk. destruct (Z.eq_dec k 0) as [->|Hk0]; [reflexivity|].
  destruct (of_Z_finite k ltac:(lia)) as (m & e & E).
  destruct (of_Z_spec k Hk) as (V & _ & Hv). rewrite E in V, Hv.
  pose proof (finite_valid _ _ _ V) as (He & _).
  assert (Hemin : emin = -1074) by reflexivity.
  cbn [Zval cond_Zopp] in Hv.
  rewrite E. unfold round. destruct (Z.leb_spec 0 e) as [Hpos|Hneg]; [reflexivity|].
  rewrite <- E. unfold of_Z. f_equal. cbn [cond_Zopp].
  pose proof (pow2_pos (- e) ltac:(lia)) as HP.
  assert (Hm : Z.pos m = k * 2 ^ (- e)).
  { pose proof (pow2_pos (e - emin) ltac:(lia)) as HQ.
    apply (Z.mul_cancel_r _ _ (2 ^ (e - emin))); [lia|].
    rewrite Hv, <- Z.mul_assoc, <- Z.pow_add_r by lia.
    f_equal. f_equal. lia. }
  replace (1 - e) with (1 + - e) by lia.
  rewrite Z.pow_add_r, Hm by lia.
  replace (2 * (k * 2 ^ (- e)) + 2 ^ (- e)) with ((2 * k + 1) * 2 ^ (- e)) by ring.
  rewrite Z.pow_1_r, Z.div_mul_cancel_r by lia.
  symmetry. apply (Z.div_unique _ 2 k 1); lia.
Qed.

Lemma eqb_of_Z (k : Z) : 0 <= k < 2 ^ 53 -> eqb (of_Z k) (of_Z k) = true.
Proof.
  intros Hk. destruct (of_Z_spec k Hk) as (V & N & _).
  now apply eqb_spec.
Qed.

(** The step the quantiser reports for a boundary of a binary grid. *)
Lemma tickOf_pow2 (a : number) (es : Z) :
  valid a -> fin_nonneg a -> valid (S754_finite false (2 ^ 52) es) ->
  Zval a mod Zval (S754_finite false (2 ^ 52) es) = 0 ->
  Zval a / Zval (S754_finite false (2 ^ 52) es) < 2 ^ 53 ->
  eqb (tickOf a (S754_finite false (2 ^ 52) es))
    (of_Z ((Zval a / Zval (S754_finite false (2 ^ 52) es)) mod 16)) = true.
Proof.
  intros Va Fa Vs Hmod Hlt.
  set (sub := S754_finite false (2 ^ 52) es) in *.
  assert (Hs : 0 < Zval sub) by (apply Zval_finite_range; exact Vs).
  pose proof (Zval_fin_range a Va Fa) as Hrange.
  pose proof (Z.div_mod (Zval a) (Zval sub) ltac:(lia)) as Hdm.
  rewrite Hmod, Z.add_0_r in Hdm.
  destruct a as [sa|[|]| |[|] ma ea]; try contradiction.
  - destruct sa; reflexivity.
  - set (q0 := Zval (S754_finite false ma ea) / Zval sub) in *.
    assert (Hq0 : 0 < q0).
    { pose proof (Zval_finite_range ma ea Va).
      destruct (Z.lt_ge_cases 0 q0) as [|Hle]; [assumption|]. nia. }
    unfold tickOf, sub.
    rewrite (div_exact ma ea es q0 Va Vs ltac:(lia) ltac:(fold sub; lia)).
    rewrite round_of_Z, rem_of_Z by lia.
    apply eqb_of_Z. pose proof (Z.mod_pos_bound q0 16 ltac:(lia)). lia.
Qed.

(** X16.  At such a tempo the step is exact too.  If the sixteenth note
    is a normal power of two [2^52 * 2^es] in seconds, then on a ready
    engine, at a transport time [now >= 0] below 2^52 subdivisions,
    [triggerPad] returns as [tick] the index of the boundary it schedules
    at, modulo 16: [scheduledAt] is a whole multiple [q] of the
    subdivision and [tick === q mod 16], so the step is one of 0..15. *)
Theorem triggerPad_tick_on_binary_grid (s : State) (padId : PadId.t)
    (velocity : option number) (es : Z) :
  let now := Tone.seconds (Tone.transport (tone s)) in
  let subdivision := Tone.toSeconds (tone s) "16n" in
  AudioEngine.initialized (this s) = true ->
  valid now -> fin_nonneg now -> valid subdivision ->
  subdivision = S754_finite false (2 ^ 52) es ->
  Zval now < 2 ^ 52 * Zval subdivision ->
  Zval now + Zval subdivision < top ->
  exists q s',
    triggerPad padId velocity s = (Return q, s') /\
    Zval (QuantizedTrigger.scheduledAt q) mod Zval subdivision = 0 /\
    eqb (QuantizedTrigger.tick q)
      (of_Z ((Zval (QuantizedTrigger.scheduledAt q) / Zval subdivision) mod 16)) = true /\
    is_grid_step (QuantizedTrigger.tick q).
Proof.
  intros now subdivision Hr Vn Fn Vs Es Hlt Htop.
  pose proof (triggerPad_run s padId velocity Hr) as Ht. cbv zeta in Ht.
  fold now subdivision in Ht.
  eexists _, _. split; [exact Ht|].
  cbn [QuantizedTrigger.scheduledAt QuantizedTrigger.tick].
  assert (Ps : fin_pos subdivision) by (rewrite Es; exact I).
  assert (Ej : Zval subdivision = 2 ^ (52 + (es - emin))).
  { rewrite Es in Vs |- *. pose proof (finite_valid _ _ _ Vs) as (He & _).
    cbn [Zval cond_Zopp]. rewrite Z.pow_add_r by lia. reflexivity. }
  destruct (nextTickSeconds_pow2 now subdivision _ Vn Fn Vs Ps Ej Hlt Htop)
    as (Va & Fa & Hmul & Hb & _).
  pose proof (subdivision_grid subdivision Vs Ps) as Hs.
  assert (Hq : Zval (nextTickSeconds now subdivision) / Zval subdivision < 2 ^ 53).
  { apply Z.div_lt_upper_bound; lia. }
  split; [exact Hmul|].
  assert (Hstep : eqb (tickOf (nextTickSeconds now subdivision) subdivision)
            (of_Z ((Zval (nextTickSeconds now subdivision) / Zval subdivision) mod 16))
          = true).
  { revert Hmul Hq. generalize (nextTickSeconds now subdivision) Va Fa.
    rewrite Es in Vs |- *. intros a Va' Fa' Hmul Hq. now apply tickOf_pow2. }
  split; [exact Hstep|].
  eexists. split; [|exact Hstep]. apply Z.mod_pos_bound. lia.
Qed.

Lemma triggerPad_tick_on_binary_grid_witness :
  exists q s',
    triggerPad PadId.kick None (ready_at (of_Z 120) (decimal 3 10)) = (Return q, s') /\
    is_grid_step (QuantizedTrigger.tick q).
Proof.
  destruct (triggerPad_tick_on_binary_grid (ready_at (of_Z 120) (decimal 3 10))
              PadId.kick None (-55))
    as (q & s' & Ht & _ & _ & Hg).
  - vm_compute. reflexivity.
  - vm_compute. reflexivity.
  - vm_compute. exact I.
  - vm_compute. reflexivity.
  - vm_compute. reflexivity.
  - vm_compute. reflexivity.
  - vm_compute. reflexivity.
  - exists q, s'. split; [exact Ht | exact Hg].
Defined.

End BinaryStep.

(** * Part 6: the component *)

(** ** [Math.abs] and the sign of a difference *)

Section Signs.
Local Open Scope Z_scope.

Lemma abs_binary_round (sx : bool) (m : positive) (e : Z) :
  abs (binary_round prec emax sx m e) = binary_round prec emax false m e.
Proof.
  unfold binary_round, binary_round_aux.
  destruct (shl_align m e _) as [mz ez].
  destruct (shr_fexp prec emax (Z.pos mz) ez loc_Exact) as [mrs' e'].
  destruct (shr_fexp prec emax _ e' loc_Exact) as [mrs'' e''].
  destruct (shr_m mrs'') as [|p|p]; [reflexivity| |reflexivity].
  destruct (e'' <=? emax - prec); reflexivity.
Qed.

Lemma abs_of_Z (k : Z) : abs (of_Z k) = of_Z (Z.abs k).
Proof.
  unfold of_Z, binary_normalize. destruct k as [|p|p]; cbn [Z.abs].
  - reflexivity.
  - apply abs_binary_round.
  - apply abs_binary_round.
Qed.

(** [Math.abs(x % 16)] is [Math.abs(x) % 16]. *)
Lemma abs_rem_16 (x : number) : abs (rem x (of_Z 16)) = rem (abs x) (of_Z 16).
Proof.
  change (of_Z 16) with (S754_finite false (2 ^ 52) (-48)).
  destruct x as [s|s| |s mx ex]; try reflexivity.
  unfold rem. cbn [abs SFabs]. 
  set (e := Z.min ex (-48)).
  set (N := Z.pos (fst (shl_align mx ex e))).
  set (D := Z.pos (fst (shl_align (2 ^ 52) (-48) e))).
  assert (HN : 0 < N) by (unfold N; lia).
  assert (HD : 0 < D) by (unfold D; lia).
  rewrite Z.rem_mod_nonneg by lia.
  pose proof (Z.mod_pos_bound N D HD) as Hr.
  destruct s; cbn [cond_Zopp]; unfold binary_normalize.
  - destruct (N mod D) as [|p|p] eqn:E; try lia; cbn [Z.opp].
    + reflexivity.
    + apply abs_binary_round.
  - destruct (N mod D) as [|p|p] eqn:E; try lia.
    + reflexivity.
    + apply abs_binary_round.
Qed.

Lemma fold_tick_whole (evt : LoopEvent.t) (k : Z) :
  - 2 ^ 53 < k < 2 ^ 53 -> LoopEvent.tick evt = of_Z k ->
  LoopEvent.tick (fold_tick evt) = of_Z (Z.abs k mod 16).
Proof.
  intros Hk E. unfold fold_tick. cbn [LoopEvent.tick].
  rewrite E, abs_rem_16, abs_of_Z.
  apply (rem_of_Z (Z.abs k)). lia.
Qed.

Lemma ltb_zero_pack_true (m1 E : Z) : ltb zero (pack true m1 E) = false.
Proof.
  unfold pack.
  destruct (m1 =? 0); [reflexivity|].
  destruct (m1 =? 2 ^ 53).
  - destruct (E + 1 <=? 971); reflexivity.
  - destruct (E <=? 971); reflexivity.
Qed.

(** The comparator of the sort: [x - y > 0] exactly when [x > y]. *)
Lemma sub_positive (x y : number) :
  valid x -> valid y -> fin_nonneg x -> fin_nonneg y ->
  ltb zero (sub x y) = true <-> Zval y < Zval x.
Proof.
  intros Vx Vy Fx Fy.
  destruct (Z.le_gt_cases (Zval y) (Zval x)) as [Hle|Hgt].
  - destruct (sub_spec x y Vx Vy Fx Fy Hle) as (V & N & Hv).
    rewrite (ltb_spec zero (sub x y) ltac:(reflexivity) V I N).
    cbn [Zval zero]. rewrite Hv.
    pose proof top_pos as Ht.
    destruct (Z.eq_dec (Zval x) (Zval y)) as [E|Hne].
    + rewrite E, Z.sub_diag, RNE_0. lia.
    + pose proof (RNE_below (Zval x - Zval y) ltac:(lia)) as [Hb _].
      pose proof (pow2_pos (Z.log2 (Zval x - Zval y)) (Z.log2_nonneg _)). lia.
  - split; [|lia]. intros H. exfalso.
    assert (Hf : ltb zero (sub x y) = false); [|congruence].
    clear H.
    destruct x as [sx|[|]| |[|] mx ex], y as [sy|[|]| |[|] my ey]; try contradiction;
      cbn [Zval cond_Zopp] in Hgt.
    + lia.
    + reflexivity.
    + pose proof (finite_valid _ _ _ Vx) as (Hex & _).
      pose proof (pow2_pos (ex - emin) ltac:(lia)). lia.
    + pose proof (finite_valid _ _ _ Vx) as (Hex & _).
      pose proof (finite_valid _ _ _ Vy) as (Hey & _).
      unfold sub, SFsub. cbn [cond_Zopp].
      set (ez := Z.min ex ey).
      pose proof (aligned_val mx ex ez ltac:(lia)) as HA.
      pose proof (aligned_val my ey ez ltac:(lia)) as HB.
      set (A := Z.pos (fst (shl_align mx ex ez))) in *.
      set (B := Z.pos (fst (shl_align my ey ez))) in *.
      pose proof (pow2_pos (ez - emin) ltac:(lia)) as HP.
      assert (HAB : A < B).
      { apply (Z.mul_lt_mono_pos_r (2 ^ (ez - emin))); [exact HP|]. lia. }
      unfold binary_normalize.
      destruct (A - B) as [|p|p] eqn:E; try lia.
      destruct (binary_round_spec true p ez ltac:(lia)) as (Hbr & _).
      cbv zeta in Hbr. rewrite Hbr. apply ltb_zero_pack_true.
Qed.

End Signs.

(** ** The sort *)

Lemma insert_by_perm {A} (compare : A -> A -> number) (x : A) (l : list A) :
  insert_by compare x l ≡ₚ x :: l.
Proof.
  induction l as [|y l IH]; cbn [insert_by]; [reflexivity|].
  destruct (ltb zero (compare x y)); [|reflexivity].
  rewrite IH. apply perm_swap.
Qed.

Lemma Array_sort_perm {A} (compare : A -> A -> number) (l : list A) :
  Array_sort compare l ≡ₚ l.
Proof.
  induction l as [|x l IH]; cbn; [reflexivity|].
  fold (Array_sort compare l). now rewrite insert_by_perm, IH.
Qed.

Lemma on_grid_key (evt : LoopEvent.t) :
  on_grid evt ->
  valid (LoopEvent.tick evt) /\ fin_nonneg (LoopEvent.tick evt).
Proof.
  intros (j & Hj & ->). destruct (of_Z_spec j ltac:(lia)) as (V & N & Hv).
  split; [exact V|]. apply nonneg_below_top; [exact N|].
  rewrite Hv. apply (scaled_lt_top j 0); [lia | unfold emin; lia].
Qed.

Lemma tick_le_spec (a b : LoopEvent.t) :
  on_grid a -> on_grid b ->
  tick_le a b <-> (Zval (LoopEvent.tick a) <= Zval (LoopEvent.tick b))%Z.
Proof.
  intros Ha Hb. destruct (on_grid_key a Ha) as [Va Fa], (on_grid_key b Hb) as [Vb Fb].
  apply leb_spec; auto using fin_nonneg_nonneg.
Qed.

Lemma insert_by_sorted (x : LoopEvent.t) (l : list LoopEvent.t) :
  on_grid x -> Forall on_grid l -> StronglySorted tick_le l ->
  StronglySorted tick_le (insert_by by_tick x l).
Proof.
  intros Hx Hl Hs. induction Hs as [|y l Hs IH Hy]; cbn [insert_by].
  - repeat constructor.
  - apply Forall_cons in Hl. destruct Hl as [Hgy Hl].
    destruct (on_grid_key x Hx) as [Vx Fx], (on_grid_key y Hgy) as [Vy Fy].
    pose proof (sub_positive (LoopEvent.tick x) (LoopEvent.tick y) Vx Vy Fx Fy) as Hc.
    unfold by_tick at 1. destruct (ltb zero (sub (LoopEvent.tick x) (LoopEvent.tick y))).
    + constructor; [apply IH; exact Hl|].
      rewrite insert_by_perm. constructor; [|exact Hy].
      apply tick_le_spec; [assumption..|]. apply Z.lt_le_incl, Hc. reflexivity.
    + assert (Hxy : (Zval (LoopEvent.tick x) <= Zval (LoopEvent.tick y))%Z).
      { destruct (Z.le_gt_cases (Zval (LoopEvent.tick x)) (Zval (LoopEvent.tick y)))
          as [|Hgt]; [assumption|]. apply Hc in Hgt. discriminate Hgt. }
      constructor; [constructor; assumption|].
      constructor; [apply tick_le_spec; assumption|].
      rewrite Forall_forall in Hy, Hl |- *. intros z Hz.
      apply tick_le_spec; [exact Hx | apply Hl, Hz |].
      pose proof (proj1 (tick_le_spec y z Hgy (Hl z Hz)) (Hy z Hz)). lia.
Qed.

Lemma Array_sort_sorted (l : list LoopEvent.t) :
  Forall on_grid l -> StronglySorted tick_le (Array_sort by_tick l).
Proof.
  induction l as [|x l IH]; intros Hl; cbn; [constructor|].
  fold (Array_sort by_tick l).
  apply Forall_cons in Hl. destruct Hl as [Hx Hl].
  apply insert_by_sorted; [exact Hx| |apply IH; exact Hl].
  now rewrite Array_sort_perm.
Qed.

Lemma fold_tick_on_grid (evt : LoopEvent.t) : whole_tick evt -> on_grid (fold_tick evt).
Proof.
  intros (k & Hk & E). exists (Z.abs k mod 16)%Z.
  split; [apply Z.mod_pos_bound; lia|]. now apply fold_tick_whole.
Qed.

(** What the saved events are: the recorded ones with their ticks folded
    onto the grid, in ascending order of tick. *)
Lemma normalized_spec (l : list LoopEvent.t) :
  Forall whole_tick l ->
  normalized l ≡ₚ map fold_tick l /\
  Forall on_grid (normalized l) /\
  StronglySorted tick_le (normalized l).
Proof.
  intros Hl.
  assert (Hg : Forall on_grid (map fold_tick l)).
  { apply Forall_map. eapply Forall_impl; [exact Hl|]. apply fold_tick_on_grid. }
  unfold normalized. split; [apply Array_sort_perm|]. split.
  - now rewrite Array_sort_perm.
  - now apply Array_sort_sorted.
Qed.

Lemma on_grid_offset (m : number) (evt : LoopEvent.t) :
  valid m -> fin_pos m -> (16 < Zval m)%Z -> on_grid evt -> offset_in_measure m evt.
Proof.
  intros Vm Pm Hm (j & Hj & E).
  destruct evt as [t p v]. cbn [LoopEvent.tick] in E. subst t.
  apply offsetOf_of_Z_range; try assumption. lia.
Qed.

(** ** Saving a recording *)

Lemma handleSaveClip_run (trim : string -> string) (d : Draw) (ui : Ui.t) (s : State) :
  Ui.currentEvents ui <> [] ->
  let a := fresh (dom (arrays s)) in
  let c := fresh (dom (clips s)) in
  let clipTitle :=
    if String.eqb (trim (Ui.loopTitle ui)) "" then
      "Pulse " +:+ pretty (length (Ui.sharedClips ui) + 1)%nat
    else trim (Ui.loopTitle ui) in
  let clip :=
    LoopClip.mk (draw_uid d) clipTitle "You" (Ui.bpm ui) (draw_color d) (draw_now d) a
      (floor (mul (draw_random d) (of_Z 70))) (of_Z 0) in
  handleSaveClip trim d ui s =
  (Return (Ui.mk (Ui.audioReady ui) (Ui.bpm ui) (Ui.filterValue ui) (Ui.reverbValue ui)
             (add (Ui.points ui) (of_Z 140)) (Ui.streak ui) []
             (c :: Ui.sharedClips ui) (Ui.activeClip ui) ""),
   mkState (this s) (tone s)
     (<[c := ActiveClip.mk clip None]> (clips s))
     (<[a := normalized (Ui.currentEvents ui)]> (arrays s))).
Proof.
  intros Hne. unfold handleSaveClip.
  destruct (Ui.currentEvents ui) as [|e l]; [congruence|]. reflexivity.
Qed.

(** X11.  [handleSaveClip] does nothing when nothing was recorded.
    Otherwise it stores one new clip object and one new array and puts the
    clip in front of the shared clips.  If the recorded ticks are whole
    numbers, of either sign, the stored events are the recorded ones with
    each tick [k] replaced by [|k| mod 16] (so -1 becomes 1, not 15), in
    ascending order of tick: every stored tick is one of 0..15, no event
    is lost or added, and every offset [createClip] computes for the
    stored clip lies in [0, measureSeconds).  On a ready engine
    [createClip] accepts the stored clip and schedules exactly these
    events. *)
Theorem saved_clip_is_on_the_grid (trim : string -> string) (d : Draw) (ui : Ui.t)
    (s : State) :
  (Ui.currentEvents ui = [] -> handleSaveClip trim d ui s = (Return ui, s)) /\
  (Ui.currentEvents ui <> [] ->
   Forall whole_tick (Ui.currentEvents ui) ->
   exists ui' s' c clip evts,
     handleSaveClip trim d ui s = (Return ui', s') /\
     Ui.sharedClips ui' = c :: Ui.sharedClips ui /\
     Ui.currentEvents ui' = [] /\
     clips s !! c = None /\
     clips s' !! c = Some (ActiveClip.mk clip None) /\
     arrays s !! LoopClip.events clip = None /\
     arrays s' !! LoopClip.events clip = Some evts /\
     Permutation evts (map fold_tick (Ui.currentEvents ui)) /\
     (forall evt k,
        (- 2 ^ 53 < k < 2 ^ 53)%Z -> LoopEvent.tick evt = of_Z k ->
        LoopEvent.tick (fold_tick evt) = of_Z (Z.abs k mod 16)) /\
     Forall on_grid evts /\
     StronglySorted tick_le evts /\
     (forall m, valid m -> fin_pos m -> (16 < Zval m)%Z ->
        Forall (offset_in_measure m) evts) /\
     (AudioEngine.initialized (this s) = true ->
      exists handle p s'',
        createClip c s' = (Return handle, s'') /\
        Tone.part_events <$> Tone.parts (tone s'') !! p =
        Some (map (fun evt => (offsetOf (Tone.toSeconds (tone s) "1m") evt, evt)) evts))).
Proof.
  split.
  - intros E. unfold handleSaveClip. now rewrite E.
  - intros Hne Hw.
    pose proof (handleSaveClip_run trim d ui s Hne) as Hrun. cbv zeta in Hrun.
    destruct (normalized_spec _ Hw) as (Hperm & Hgrid & Hsorted).
    eexists _, _, _, _, _. split; [exact Hrun|].
    cbn [Ui.sharedClips Ui.currentEvents clips arrays LoopClip.events].
    unfold loc in *.
    split; [reflexivity|]. split; [reflexivity|].
    split; [apply not_elem_of_dom, is_fresh|].
    split; [apply lookup_insert_eq|].
    split; [apply not_elem_of_dom, is_fresh|].
    split; [apply lookup_insert_eq|].
    split; [exact Hperm|].
    split; [intros evt k Hk E; now apply fold_tick_whole|].
    split; [exact Hgrid|]. split; [exact Hsorted|].
    split.
    { intros m Vm Pm Hm. eapply Forall_impl; [exact Hgrid|].
      intros evt. now apply on_grid_offset. }
    intros Hr.
    match type of Hrun with
    | _ = (_, mkState _ _ (<[?c := ?ac]> _) (<[?a := ?ev]> _)) =>
        pose proof (createClip_spec
                      (mkState (this s) (tone s) (<[c := ac]> (clips s))
                         (<[a := ev]> (arrays s)))
                      c ac ev Hr
                      ltac:(cbn [clips]; apply lookup_insert_eq)
                      ltac:(cbn [arrays ActiveClip.clip LoopClip.events];
                            apply lookup_insert_eq)) as Hc
    end.
    cbv zeta in Hc.
    eexists _, _, _. split; [exact Hc|].
    cbn [tone Tone.parts Tone.with_parts]. unfold PartId in *.
    rewrite lookup_insert_eq. reflexivity.
Qed.

Lemma saved_clip_is_on_the_grid_witness :
  exists ui' s' c clip evts,
    handleSaveClip (fun t => t) sample_draw sample_ui (sample_ready zero) =
    (Return ui', s') /\
    clips s' !! c = Some (ActiveClip.mk clip None) /\
    arrays s' !! LoopClip.events clip = Some evts /\
    Forall on_grid evts /\ StronglySorted tick_le evts.
Proof.
  destruct (saved_clip_is_on_the_grid (fun t => t) sample_draw sample_ui (sample_ready zero))
    as [_ H].
  destruct H as (ui' & s' & c & clip & evts & E & _ & _ & _ & Hc & _ & Ha & _ & _ & Hg & Hs & _).
  - discriminate.
  - repeat constructor; eexists; (split; [|reflexivity]); split; reflexivity.
  - exists ui', s', c, clip, evts. auto.
Defined.

(** ** Skins *)

Section Score.
Local Open Scope Z_scope.

Lemma skin_thresholds :
  Forall (fun skin => valid (Skin.threshold skin) /\ nonneg (Skin.threshold skin))
    skinUnlocks.
Proof. repeat constructor. Qed.

Lemma unlocked_iff (points : number) (skin : Skin.t) :
  valid points -> nonneg points ->
  In skin (unlockedSkins points) <->
  In skin skinUnlocks /\ Zval (Skin.threshold skin) <= Zval points.
Proof.
  intros Vp Np. unfold unlockedSkins. rewrite filter_In.
  split; intros [Hin H]; (split; [exact Hin|]).
  - pose proof skin_thresholds as Ht. rewrite Forall_forall in Ht.
    destruct (Ht skin ltac:(now apply list_elem_of_In)) as [Vt Nt].
    now apply (leb_spec _ _ Vt Vp Nt Np).
  - pose proof skin_thresholds as Ht. rewrite Forall_forall in Ht.
    destruct (Ht skin ltac:(now apply list_elem_of_In)) as [Vt Nt].
    now apply (leb_spec _ _ Vt Vp Nt Np).
Qed.

Lemma add_not_below (x y : number) :
  valid x -> valid y -> fin_nonneg x -> fin_nonneg y ->
  valid (add x y) /\ nonneg (add x y) /\ Zval x <= Zval (add x y).
Proof.
  intros Vx Vy Fx Fy. destruct (add_spec x y Vx Vy Fx Fy) as (V & N & Hv).
  split; [exact V|]. split; [exact N|]. rewrite Hv.
  pose proof (Zval_fin_range x Vx Fx). pose proof (Zval_fin_range y Vy Fy).
  pose proof (RNE_mono (Zval x) (Zval x + Zval y) ltac:(lia)) as Hm.
  rewrite (RNE_Zval x Vx Fx) in Hm. lia.
Qed.

(** X12.  The skins a score unlocks are a prefix of the list of skins;
    "aurora", the skin the component starts with, is unlocked at every
    score that is not negative; a higher score never locks a skin again;
    and the score after saving a clip (140 more), which is never lower
    than before, keeps every skin unlocked. *)
Theorem skins_stay_unlocked (points points' : number) :
  valid points -> nonneg points -> valid points' -> nonneg points' ->
  leb points points' = true ->
  (exists n, unlockedSkins points = take n skinUnlocks) /\
  (exists rest, unlockedSkins points = Skin.mk "aurora" "Aurora Bloom" (of_Z 0) :: rest) /\
  (forall skin, In skin (unlockedSkins points) -> In skin (unlockedSkins points')) /\
  (fin_nonneg points ->
   forall skin, In skin (unlockedSkins points) ->
                In skin (unlockedSkins (add points (of_Z 140)))).
Proof.
  intros Vp Np Vp' Np' Hle.
  apply (leb_spec _ _ Vp Vp' Np Np') in Hle.
  assert (Hmono : forall q, valid q -> nonneg q -> Zval points <= Zval q ->
            forall skin, In skin (unlockedSkins points) -> In skin (unlockedSkins q)).
  { intros q Vq Nq Hq skin Hin.
    apply (unlocked_iff points skin Vp Np) in Hin. destruct Hin as [Hin Ht].
    apply (unlocked_iff q skin Vq Nq). split; [exact Hin|lia]. }
  split; [|split; [|split]].
  - unfold unlockedSkins, skinUnlocks. cbn [List.filter Skin.threshold].
    pose proof (fun t Vt Nt => leb_spec t points Vt Vp Nt Np) as L.
    pose proof (L (of_Z 0) ltac:(reflexivity) I) as L0.
    pose proof (L (of_Z 400) ltac:(reflexivity) I) as L1.
    pose proof (L (of_Z 800) ltac:(reflexivity) I) as L2.
    pose proof (L (of_Z 1500) ltac:(reflexivity) I) as L3.
    assert (H01 : Zval (of_Z 0) <= Zval (of_Z 400)) by (vm_compute; discriminate).
    assert (H12 : Zval (of_Z 400) <= Zval (of_Z 800)) by (vm_compute; discriminate).
    assert (H23 : Zval (of_Z 800) <= Zval (of_Z 1500)) by (vm_compute; discriminate).
    unfold leb in *.
    destruct (SFleb (of_Z 0) points) eqn:E0, (SFleb (of_Z 400) points) eqn:E1,
      (SFleb (of_Z 800) points) eqn:E2, (SFleb (of_Z 1500) points) eqn:E3;
      try (exfalso;
           repeat match goal with
           | H : true = true <-> _ |- _ => pose proof (proj1 H eq_refl); clear H
           | H : false = true <-> _ |- _ =>
               assert (~ _) by (intros X; apply H in X; discriminate X); clear H
           end; lia).
    + now exists 4%nat.
    + now exists 3%nat.
    + now exists 2%nat.
    + now exists 1%nat.
    + now exists 0%nat.
  - unfold unlockedSkins, skinUnlocks. cbn [List.filter Skin.threshold].
    assert (H0 : leb (of_Z 0) points = true).
    { apply leb_spec; [reflexivity|exact Vp|exact I|exact Np|].
      apply (nonneg_Zval _ Np). }
    rewrite H0. eauto.
  - apply Hmono; assumption.
  - intros Fp.
    destruct (add_not_below points (of_Z 140) Vp ltac:(reflexivity) Fp I) as (V & N & H).
    apply Hmono; assumption.
Qed.

Lemma skins_stay_unlocked_witness :
  In (Skin.mk "nova" "Nova Prism" (of_Z 800))
    (unlockedSkins (add (of_Z 820) (of_Z 140))).
Proof.
  destruct (skins_stay_unlocked (of_Z 820) (of_Z 2000)) as (_ & _ & _ & H).
  - vm_compute. reflexivity.
  - vm_compute. exact I.
  - vm_compute. reflexivity.
  - vm_compute. exact I.
  - vm_compute. reflexivity.
  - apply H; [vm_compute; exact I|].
    vm_compute. right. right. left. reflexivity.
Defined.

(** ** The age of a clip *)

Lemma not_positive_pack (m1 E : Z) : not_positive (pack true m1 E).
Proof.
  unfold pack.
  destruct (m1 =? 0); [exact I|].
  destruct (m1 =? 2 ^ 53).
  - destruct (E + 1 <=? 971); exact I.
  - destruct (E <=? 971); exact I.
Qed.

(** [now - ts] when [ts] is not before [now]. *)
Lemma sub_not_positive (x y : number) :
  valid x -> valid y -> fin_nonneg x -> fin_nonneg y -> Zval x <= Zval y ->
  not_positive (sub x y).
Proof.
  intros Vx Vy Fx Fy Hle.
  destruct x as [sx|[|]| |[|] mx ex], y as [sy|[|]| |[|] my ey]; try contradiction;
    cbn [Zval cond_Zopp] in Hle.
  - destruct sx, sy; exact I.
  - exact I.
  - pose proof (finite_valid _ _ _ Vx) as (Hex & _).
    pose proof (pow2_pos (ex - emin) ltac:(lia)). lia.
  - pose proof (finite_valid _ _ _ Vx) as (Hex & _).
    pose proof (finite_valid _ _ _ Vy) as (Hey & _).
    unfold sub, SFsub. cbn [cond_Zopp].
    set (ez := Z.min ex ey).
    pose proof (aligned_val mx ex ez ltac:(lia)) as HA.
    pose proof (aligned_val my ey ez ltac:(lia)) as HB.
    set (A := Z.pos (fst (shl_align mx ex ez))) in *.
    set (B := Z.pos (fst (shl_align my ey ez))) in *.
    pose proof (pow2_pos (ez - emin) ltac:(lia)) as HP.
    assert (HAB : A <= B).
    { apply (Z.mul_le_mono_pos_r _ _ (2 ^ (ez - emin))); [exact HP|]. lia. }
    unfold binary_normalize.
    destruct (A - B) as [|p|p] eqn:E; try lia; [exact I|].
    destruct (binary_round_spec true p ez ltac:(lia)) as (Hbr & _).
    cbv zeta in Hbr. rewrite Hbr. apply not_positive_pack.
Qed.

(** Dividing by a positive number and rounding down keep a number that
    is not positive that way. *)
Lemma div_not_positive (x y : number) (my : positive) (ey : Z) :
  not_positive x -> y = S754_finite false my ey -> not_positive (div x y).
Proof.
  intros Hx ->. destruct x as [sx|[|]| |[|] mx ex]; try contradiction; try exact I.
  unfold div, SFdiv. pose proof (div_core_spec mx my ex ey) as Hc.
  destruct (SFdiv_core_binary prec emax (Z.pos mx) ex (Z.pos my) ey) as [[q e'] l].
  destruct Hc as [Hq He].
  destruct (binary_round_aux_pack (xorb true false) q e' l Hq He) as (-> & _).
  apply not_positive_pack.
Qed.

Lemma floor_not_positive (x : number) : not_positive x -> not_positive (floor x).
Proof.
  intros Hx. destruct x as [sx|[|]| |[|] m e]; try contradiction; try exact I.
  unfold floor. destruct (Z.leb_spec 0 e) as [He|He]; [exact I|].
  cbn [cond_Zopp].
  pose proof (pow2_pos (- e) ltac:(lia)) as HP.
  assert (Hk : - Z.pos m / 2 ^ (- e) < 0).
  { apply Z.div_lt_upper_bound; [exact HP|]. lia. }
  unfold binary_normalize.
  destruct (- Z.pos m / 2 ^ (- e)) as [|p|p] eqn:E; try lia.
  destruct (binary_round_spec true p 0 ltac:(unfold emin; lia)) as (Hbr & _).
  cbv zeta in Hbr. rewrite Hbr. apply not_positive_pack.
Qed.

Lemma not_positive_below_one (x : number) :
  not_positive x -> ltb x (of_Z 1) = true /\ max (of_Z 1) x = of_Z 1.
Proof.
  intros Hx. destruct x as [sx|[|]| |[|] m e]; try contradiction; split; reflexivity.
Qed.

(** X13.  A clip whose timestamp is not before the current time (a clip
    saved this instant, or one from a clock that runs ahead) is shown as
    one minute old: [formatRelative] never shows zero or a negative
    number of minutes for it. *)
Theorem formatRelative_future (show : number -> string) (now ts : number) :
  valid now -> valid ts -> fin_nonneg now -> fin_nonneg ts ->
  leb now ts = true ->
  formatRelative show now ts = show (of_Z 1) +:+ "m ago".
Proof.
  intros Vn Vt Fn Ft Hle.
  apply (leb_spec _ _ Vn Vt (fin_nonneg_nonneg _ Fn) (fin_nonneg_nonneg _ Ft)) in Hle.
  pose proof (sub_not_positive now ts Vn Vt Fn Ft Hle) as Hd.
  unfold formatRelative. cbv zeta.
  set (delta := sub now ts) in *.
  assert (Hh : not_positive (floor (div delta (of_Z (1000 * 60 * 60))))).
  { apply floor_not_positive. eapply div_not_positive; [exact Hd|reflexivity]. }
  assert (Hm : not_positive (floor (div delta (of_Z (1000 * 60))))).
  { apply floor_not_positive. eapply div_not_positive; [exact Hd|reflexivity]. }
  destruct (not_positive_below_one _ Hh) as [-> _].
  destruct (not_positive_below_one _ Hm) as [_ ->].
  reflexivity.
Qed.

Lemma formatRelative_future_witness :
  formatRelative (fun _ => "1") (of_Z 1700000000000) (of_Z 1700000360000) = "1m ago".
Proof.
  apply (formatRelative_future (fun _ => "1") (of_Z 1700000000000) (of_Z 1700000360000)).
  - vm_compute. reflexivity.
  - vm_compute. reflexivity.
  - vm_compute. exact I.
  - vm_compute. exact I.
  - vm_compute. reflexivity.
Defined.

End Score.

(** ** What stays scheduled, and what a part plays *)

Lemma init_resume_transport (s : State) :
  Tone.once (Tone.transport (tone (snd (init_resume s)))) =
  Tone.once (Tone.transport (tone s)) /\
  Tone.parts (tone (snd (init_resume s))) = Tone.parts (tone s).
Proof.
  destruct (Tone.unlockable (tone s)) eqn:Hu.
  - destruct (init_resume_run s Hu) as (s' & k & -> & B).
    destruct B as (_ & _ & _ & _ & _ & Ht & Hp & _). cbn [snd].
    rewrite Ht, Hp. auto.
  - rewrite init_resume_refused by assumption. auto.
Qed.

Lemma init_transport (s : State) :
  Tone.once (Tone.transport (tone (snd (init s)))) = Tone.once (Tone.transport (tone s)) /\
  Tone.parts (tone (snd (init s))) = Tone.parts (tone s).
Proof.
  destruct (AudioEngine.initialized (this s)) eqn:Hi.
  - rewrite init_already_ready by exact Hi. auto.
  - rewrite init_not_ready by exact Hi. apply init_resume_transport.
Qed.

Lemma run_once (o : Op) (s : State) :
  exists more,
    Tone.once (Tone.transport (tone (run o s))) =
    Tone.once (Tone.transport (tone s)) ++ more.
Proof.
  destruct o; cbn [run].
  - exists []. rewrite app_nil_r. apply init_transport.
  - exists []. rewrite app_nil_r. now rewrite dispose_spec.
  - exists []. rewrite app_nil_r. destruct (AudioEngine.initialized (this s)) eqn:Hr.
    + now rewrite setBpm_spec.
    + now rewrite setBpm_not_ready.
  - exists []. rewrite app_nil_r. destruct (AudioEngine.initialized (this s)) eqn:Hr.
    + rewrite setFilterFrequency_spec by exact Hr.
      now destruct (AudioEngine.filter (this s)).
    + now rewrite setFilterFrequency_not_ready.
  - exists []. rewrite app_nil_r. destruct (AudioEngine.initialized (this s)) eqn:Hr.
    + rewrite setReverbWet_spec by exact Hr.
      now destruct (AudioEngine.reverb (this s)).
    + now rewrite setReverbWet_not_ready.
  - destruct (AudioEngine.initialized (this s)) eqn:Hr.
    + rewrite triggerPad_run by exact Hr. eexists. reflexivity.
    + exists []. rewrite app_nil_r. now rewrite triggerPad_not_ready.
  - exists []. rewrite app_nil_r.
    destruct (createClip_engine_frame s source) as (_ & _ & ->). reflexivity.
  - exists []. rewrite app_nil_r.
    destruct (stopClip_frame s activeClip) as (_ & _ & _ & _ & ->). reflexivity.
Qed.

Lemma stopClip_other_parts (s : State) (a : loc) (p : PartId) (part : Tone.Part) :
  Tone.parts (tone s) !! p = Some part ->
  (forall c, clips s !! a = Some c -> ActiveClip.part c <> Some p) ->
  Tone.parts (tone (snd (stopClip a s))) !! p = Some part.
Proof.
  intros Hp Hother. destruct (clips s !! a) as [c|] eqn:Ha.
  - rewrite (stopClip_spec s a c Ha).
    destruct (ActiveClip.part c) as [q|] eqn:Hq;
      cbn [snd tone Tone.parts Tone.with_parts]; [|exact Hp].
    unfold PartId in *. rewrite !lookup_alter_ne; [exact Hp| |];
      intros ->; now apply (Hother c).
  - cbv [stopClip bind read_clip get]. rewrite Ha. exact Hp.
Qed.

Lemma run_keeps_parts (o : Op) (s : State) (p : PartId) (part : Tone.Part) :
  (forall a, o <> OStopClip a) ->
  Tone.parts (tone s) !! p = Some part ->
  Tone.parts (tone (run o s)) !! p = Some part.
Proof.
  intros Ho Hp.
  assert (Same : Tone.parts (tone (run o s)) = Tone.parts (tone s) ->
                 Tone.parts (tone (run o s)) !! p = Some part) by now intros ->.
  destruct o; cbn [run] in *.
  - apply Same. apply init_transport.
  - apply Same. now rewrite dispose_spec.
  - apply Same. destruct (AudioEngine.initialized (this s)) eqn:Hr.
    + now rewrite setBpm_spec.
    + now rewrite setBpm_not_ready.
  - apply Same. destruct (AudioEngine.initialized (this s)) eqn:Hr.
    + rewrite setFilterFrequency_spec by exact Hr.
      now destruct (AudioEngine.filter (this s)).
    + now rewrite setFilterFrequency_not_ready.
  - apply Same. destruct (AudioEngine.initialized (this s)) eqn:Hr.
    + rewrite setReverbWet_spec by exact Hr.
      now destruct (AudioEngine.reverb (this s)).
    + now rewrite setReverbWet_not_ready.
  - apply Same. destruct (AudioEngine.initialized (this s)) eqn:Hr.
    + now rewrite triggerPad_run.
    + now rewrite triggerPad_not_ready.
  - clear Same.
    destruct (AudioEngine.initialized (this s)) eqn:Hr;
      [|now rewrite createClip_not_ready].
    destruct (clips s !! source) as [src|] eqn:Hs.
    + destruct (arrays s !! LoopClip.events (ActiveClip.clip src)) as [evts|] eqn:He.
      * rewrite (createClip_spec s source src evts Hr Hs He).
        cbn [snd tone Tone.parts Tone.with_parts].
        assert (Hfresh : Tone.parts (tone s) !! fresh (dom (Tone.parts (tone s))) = None)
          by (apply not_elem_of_dom, is_fresh).
        unfold PartId in *. rewrite lookup_insert_ne; [exact Hp|].
        intros E. rewrite E in Hfresh. congruence.
      * unfold createClip. rewrite guarded_ready by assumption.
        cbv [bind Time_toSeconds read_clip read_array get ret].
        rewrite Hs. cbv [ret]. rewrite He. exact Hp.
    + unfold createClip. rewrite guarded_ready by assumption.
      cbv [bind Time_toSeconds read_clip read_array get ret].
      rewrite Hs. exact Hp.
  - now destruct (Ho activeClip).
Qed.

Lemma turn_once (t : Turn) (c : State * nat) :
  exists more,
    Tone.once (Tone.transport (tone (fst (turn t c)))) =
    Tone.once (Tone.transport (tone (fst c))) ++ more.
Proof.
  assert (Same : forall s', Tone.once (Tone.transport (tone s')) =
                            Tone.once (Tone.transport (tone (fst c))) ->
                 exists more, Tone.once (Tone.transport (tone s')) =
                              Tone.once (Tone.transport (tone (fst c))) ++ more).
  { intros s' ->. exists []. now rewrite app_nil_r. }
  destruct t as [o|].
  - destruct o; cbn [turn fst];
      [destruct (AudioEngine.initialized (this (fst c))); now apply Same
      | apply run_once ..].
  - cbn [turn]. destruct (snd c); [now apply Same|].
    cbn [fst]. apply Same. apply init_resume_transport.
Qed.

Lemma turn_keeps_parts (t : Turn) (c : State * nat) (p : PartId) (part : Tone.Part) :
  (forall a, t <> Call (OStopClip a)) ->
  Tone.parts (tone (fst c)) !! p = Some part ->
  Tone.parts (tone (fst (turn t c))) !! p = Some part.
Proof.
  intros Ht Hp. destruct t as [o|].
  - assert (Ho : forall a, o <> OStopClip a) by (intros a ->; now apply (Ht a)).
    destruct o; cbn [turn fst];
      [now destruct (AudioEngine.initialized (this (fst c)))
      | now apply run_keeps_parts ..].
  - cbn [turn]. destruct (snd c); [exact Hp|].
    cbn [fst]. destruct (init_resume_transport (fst c)) as [_ ->]. exact Hp.
Qed.

(** X14.  No method takes a one-shot event off the timeline, and only
    [stopClip] touches a part.  Over every sequence of turns of the event
    loop, the one-shot events that are on the timeline stay on it, in
    place, and new ones are only added behind them.  As long as [stopClip]
    is not called, every part that exists is left exactly as it was; and
    a call of [stopClip] leaves alone every part but the one of the handle
    it is given. *)
Theorem only_stopClip_touches_a_part (ts : list Turn) (s : State) (n : nat) :
  (exists more,
     Tone.once (Tone.transport (tone (fst (turns ts (s, n))))) =
     Tone.once (Tone.transport (tone s)) ++ more) /\
  ((forall a, ~ In (Call (OStopClip a)) ts) ->
   forall p part,
     Tone.parts (tone s) !! p = Some part ->
     Tone.parts (tone (fst (turns ts (s, n)))) !! p = Some part) /\
  (forall a p part,
     Tone.parts (tone s) !! p = Some part ->
     (forall c, clips s !! a = Some c -> ActiveClip.part c <> Some p) ->
     Tone.parts (tone (snd (stopClip a s))) !! p = Some part).
Proof.
  split; [|split].
  - revert s n. induction ts as [|t ts IH]; intros s n.
    + exists []. now rewrite app_nil_r.
    + cbn [turns fold_left]. fold (turns ts (turn t (s, n))).
      destruct (turn_once t (s, n)) as (more1 & H1).
      destruct (turn t (s, n)) as [s1 n1].
      destruct (IH s1 n1) as (more2 & H2).
      exists (more1 ++ more2). cbn [fst] in H1. now rewrite H2, H1, app_assoc.
  - revert s n. induction ts as [|t ts IH]; intros s n Hno p part Hp; [exact Hp|].
    cbn [turns fold_left]. fold (turns ts (turn t (s, n))).
    pose proof (turn_keeps_parts t (s, n) p part) as H1.
    destruct (turn t (s, n)) as [s1 n1].
    apply IH.
    + intros a H. apply (Hno a). now right.
    + apply H1; [|exact Hp]. intros a ->. apply (Hno a). now left.
  - intros a p part. apply stopClip_other_parts.
Qed.

Lemma only_stopClip_touches_a_part_witness :
  exists part,
    Tone.parts (tone (fst (turns [Call OInit; Call ODispose; Resume; Call (OSetBpm (of_Z 90))]
                             (sample_playing, 0%nat)))) !! 0%nat = Some part /\
    length (Tone.part_events part) = 3%nat /\ playing part = true.
Proof.
  destruct (only_stopClip_touches_a_part
              [Call OInit; Call ODispose; Resume; Call (OSetBpm (of_Z 90))]
              sample_playing 0%nat) as (_ & H & _).
  eexists. split.
  - apply H.
    + intros a Hin. cbn [In] in Hin.
      destruct Hin as [Hin|[Hin|[Hin|[Hin|[]]]]]; discriminate Hin.
    + vm_compute. reflexivity.
  - split; reflexivity.
Defined.

(** X15.  What the callback of a part does when Tone.js calls it.  On an
    engine that holds the nodes of [k], whether initialised or not (the
    callback does not check), each call with a timed value of the part
    leads to exactly one [triggerAttackRelease]: on the voice of the pad
    of that value, with its note and duration, at the time Tone.js passes
    and with the velocity of the value, which bass, lead and fx scale by
    0.9, 0.8 and 0.6; a call without a value leads to none.  The calls are
    answered in the order in which they come.  A part that was stopped or
    disposed is not called.  Nothing but the list of calls made on the
    voices changes. *)
Theorem part_callback_plays_the_pad (s : State) (k : Rack) (i : bool) (p : PartId)
    (part : Tone.Part) (calls : list (number * nat)) :
  this s = engine_of k i (AudioEngine.bpm (this s)) ->
  Tone.parts (tone s) !! p = Some part ->
  exists s',
    play_period p calls s = (Return tt, s') /\
    Tone.triggers (tone s') =
    Tone.triggers (tone s) ++
    (if playing part then flat_map (fired k (Tone.part_events part)) calls else []) /\
    (forall t j o e,
       Tone.part_events part !! j = Some (o, e) ->
       fired k (Tone.part_events part) (t, j) =
       [sound k (LoopEvent.padId e) t (LoopEvent.velocity e)]) /\
    (forall t j,
       Tone.part_events part !! j = None -> fired k (Tone.part_events part) (t, j) = []) /\
    this s' = this s /\
    Tone.nodes (tone s') = Tone.nodes (tone s) /\
    Tone.parts (tone s') = Tone.parts (tone s) /\
    Tone.transport (tone s') = Tone.transport (tone s) /\
    clips s' = clips s /\ arrays s' = arrays s.
Proof.
  intros He Hp.
  assert (Hf : fields (this s) = fields (engine_of k true zero))
    by (rewrite He; reflexivity).
  assert (Hfired : (forall t j o e,
             Tone.part_events part !! j = Some (o, e) ->
             fired k (Tone.part_events part) (t, j) =
             [sound k (LoopEvent.padId e) t (LoopEvent.velocity e)]) /\
          (forall t j,
             Tone.part_events part !! j = None ->
             fired k (Tone.part_events part) (t, j) = [])).
  { split.
    - intros t j o e H. now apply (fired_in_range k _ t j o e).
    - intros t j H. unfold fired. cbn [fst snd]. plain_numbers. now rewrite H. }
  destruct (playing part) eqn:Hpl.
  - eexists. split; [now apply (play_period_spec k p part)|].
    cbn [this tone clips arrays Tone.triggers Tone.with_triggers Tone.nodes Tone.parts
         Tone.transport].
    split; [reflexivity|]. split; [apply Hfired|]. split; [apply Hfired|]. repeat split.
  - exists s. split; [cbv [play_period bind get]; now rewrite Hp, Hpl|].
    split; [now rewrite app_nil_r|]. split; [apply Hfired|]. split; [apply Hfired|].
    repeat split.
Qed.

Lemma part_callback_plays_the_pad_witness :
  exists s',
    play_period 0%nat [(decimal 1 2, 1); (zero, 0); (zero, 7)]%nat
      (snd (dispose sample_playing)) = (Return tt, s') /\
    map Tone.voice (Tone.triggers (tone s')) = [5; 4]%nat.
Proof.
  destruct (part_callback_plays_the_pad (snd (dispose sample_playing)) sample_rack false
              0%nat
              (Tone.mkPart
                 (map (fun evt => (offsetOf (seconds_at DEFAULT_BPM "1m") evt, evt))
                    sample_events)
                 true (Some "1m") (Some (decimal 1 100)) (Some zero) 0 0)
              [(decimal 1 2, 1); (zero, 0); (zero, 7)]%nat)
    as (s' & E & Ht & _).
  - vm_compute. reflexivity.
  - vm_compute. reflexivity.
  - exists s'. split; [exact E|]. rewrite Ht. vm_compute. reflexivity.
Defined.

(** ** The engine behind the component *)

Lemma cleanup_part_spec (prev : option loc) (s : State) :
  (forall a, prev = Some a -> exists c, clips s !! a = Some c) ->
  exists s1,
    match prev with
    | Some a =>
        let* c := read_clip a in
        match ActiveClip.part c with
        | Some p => part_dispose p
        | None => ret tt
        end
    | None => ret tt
    end s = (Return tt, s1) /\
    this s1 = this s /\ Tone.nodes (tone s1) = Tone.nodes (tone s) /\
    Tone.transport (tone s1) = Tone.transport (tone s) /\
    clips s1 = clips s /\ arrays s1 = arrays s /\
    forall p part,
      Tone.parts (tone s) !! p = Some part ->
      exists part',
        Tone.parts (tone s1) !! p = Some part' /\
        Tone.part_stops part' = Tone.part_stops part /\
        Tone.part_events part' = Tone.part_events part.
Proof.
  intros Hc. destruct prev as [a|].
  - destruct (Hc a eq_refl) as (c & Ha).
    cbv [bind read_clip get]. rewrite Ha. cbv [ret].
    destruct (ActiveClip.part c) as [q|].
    + eexists. split; [reflexivity|].
      cbn [this tone clips arrays Tone.nodes Tone.transport Tone.parts Tone.with_parts].
      repeat (split; [reflexivity|]).
      intros p part Hp. unfold PartId in *.
      destruct (decide (q = p)) as [->|Hne].
      * rewrite lookup_alter_eq, Hp. eexists. split; [reflexivity|]. split; reflexivity.
      * rewrite lookup_alter_ne by exact Hne. exists part. auto.
    + exists s. repeat (split; [reflexivity|]). intros p part Hp. exists part. auto.
  - exists s. split; [reflexivity|]. repeat (split; [reflexivity|]).
    intros p part Hp. exists part. auto.
Qed.

Lemma handlePadTrigger_dead (padId : PadId.t) (ui : Ui.t) (s : State) :
  Ui.audioReady ui = true ->
  AudioEngine.initialized (this s) = false ->
  handlePadTrigger padId ui s = (Throw EngineNotReady, s).
Proof.
  intros Ha Hi. unfold handlePadTrigger, ensureAudio. rewrite Ha.
  unfold bind at 1. cbv [ret].
  apply bind_throw. now apply triggerPad_not_ready.
Qed.

(** X17.  The component drives the engine while it is not ready.  The
    engine it creates is new, so each of the three slider effects, which
    run after the first render, throws the not-initialised error.  And the
    cleanup of the effect that depends on [activeClip] calls
    [engine.dispose()] but leaves the component's own [audioReady] flag
    set: once it has run, [ensureAudio] skips [init], so every pad tap
    throws the not-initialised error and records nothing, and so do the
    slider effects.  The cleanup disposes the part of the clip that was
    active without stopping it, and it takes nothing off the timeline. *)
Theorem cleanup_leaves_the_pads_dead (ui : Ui.t) (prev : option loc) (s : State) :
  (this s = new_AudioEngine ->
   effect_bpm ui s = (Throw EngineNotReady, s) /\
   effect_filter ui s = (Throw EngineNotReady, s) /\
   effect_reverb ui s = (Throw EngineNotReady, s)) /\
  ((forall a, prev = Some a -> exists c, clips s !! a = Some c) ->
   Ui.audioReady ui = true ->
   exists s',
     cleanup prev s = (Return tt, s') /\
     AudioEngine.initialized (this s') = false /\
     (forall padId, handlePadTrigger padId ui s' = (Throw EngineNotReady, s')) /\
     effect_bpm ui s' = (Throw EngineNotReady, s') /\
     effect_filter ui s' = (Throw EngineNotReady, s') /\
     effect_reverb ui s' = (Throw EngineNotReady, s') /\
     Tone.once (Tone.transport (tone s')) = Tone.once (Tone.transport (tone s)) /\
     (forall p part,
        Tone.parts (tone s) !! p = Some part ->
        exists part',
          Tone.parts (tone s') !! p = Some part' /\
          Tone.part_stops part' = Tone.part_stops part /\
          Tone.part_events part' = Tone.part_events part)).
Proof.
  split.
  - intros Hn.
    assert (Hi : AudioEngine.initialized (this s) = false) by (rewrite Hn; reflexivity).
    unfold effect_bpm, effect_filter, effect_reverb.
    split; [now apply setBpm_not_ready|].
    split; [now apply setFilterFrequency_not_ready | now apply setReverbWet_not_ready].
  - intros Hc Ha.
    destruct (cleanup_part_spec prev s Hc) as (s1 & E1 & _ & _ & Ht & _ & _ & Hp).
    eexists. split.
    { unfold cleanup. rewrite (bind_return _ _ _ _ _ E1). apply dispose_spec. }
    assert (Hi : AudioEngine.initialized
                   (this (mkState (clear_initialized (this s1))
                            (Tone.with_nodes (released (owned (this s1))) (tone s1))
                            (clips s1) (arrays s1))) = false) by reflexivity.
    split; [exact Hi|].
    split; [intros padId; now apply handlePadTrigger_dead|].
    unfold effect_bpm, effect_filter, effect_reverb.
    split; [now apply setBpm_not_ready|].
    split; [now apply setFilterFrequency_not_ready|].
    split; [now apply setReverbWet_not_ready|].
    cbn [tone Tone.transport Tone.parts Tone.with_nodes].
    split; [now rewrite Ht | exact Hp].
Qed.

Lemma cleanup_leaves_the_pads_dead_witness :
  exists s',
    cleanup None sample_playing = (Return tt, s') /\
    handlePadTrigger PadId.kick sample_ui s' = (Throw EngineNotReady, s').
Proof.
  destruct (cleanup_leaves_the_pads_dead sample_ui None sample_playing) as [_ H].
  destruct H as (s' & E & _ & Hd & _).
  - intros a Ha. discriminate Ha.
  - reflexivity.
  - exists s'. split; [exact E | apply Hd].
Defined.



